(** * 8-bit Studio: the frame decoding, quantization and re-encoding core

  A shallow embedding of the pure helpers of [src/App.tsx] and of the
  job-id discipline of the [App] component, with the properties stated in
  the specification.

  Conventions.
  - JavaScript numbers that the program only ever uses as integers
    (counts, indices, byte values, the dimensions of a decoded source) are
    [Z] or [nat].  Where the program computes with numbers that need not be
    integers or finite, they are doubles: [FrameDelay.number] is a double
    as a rational or one of the three special values, [Double] rounds every
    operation to the nearest double, and [Num.t] is a double whose value is
    an integer or not finite.
  - Typed arrays ([Uint8Array], [Uint8ClampedArray]) are [list Z]; reading
    out of range gives [None] (JavaScript's [undefined]), writing out of
    range does nothing, exactly as stdpp's [!!] and [<[_:=_]>].
  - [Map<string, number>] is [gmap string nat].
  - A function that can [throw] returns a sum with the exception on the
    left, or an [option] when the exception carries no information.
  - What the browser and the omggif library do is a parameter of the
    function that calls them. *)

From Stdlib Require Import ZArith QArith Qpower Qround Qabs Lia Lqa Ascii.
From stdpp Require Import base list sorting gmap strings pretty.

Local Open Scope Z_scope.

(** ** Frame delays *)

Module FrameDelay.

(** A JavaScript number, as far as [clampFrameDelay] can tell numbers
    apart: every finite double is a rational. *)
Inductive number : Type :=
| NaN
| PosInfinity
| NegInfinity
| Finite (q : Q).

Definition Number_isFinite (x : number) : bool :=
  match x with Finite _ => true | _ => false end.

(** [x <= 0]; every comparison with [NaN] is false. *)
Definition le_zero (x : number) : bool :=
  match x with
  | Finite q => Qle_bool q 0
  | NegInfinity => true
  | NaN | PosInfinity => false
  end.

(** [Math.round]: the nearest integer, ties towards +infinity. *)
Definition Math_round (q : Q) : Z := Qfloor (q + (1 # 2)).

Definition clampFrameDelay (delay : number) : Z :=
  if negb (Number_isFinite delay) || le_zero delay then 6
  else
    match delay with
    | Finite q => Z.max 1 (Z.min 65535 (Math_round q))
    | _ => 6
    end.

End FrameDelay.

(** ** Double-precision arithmetic *)

Module Double.

(** [2 ^ e] for any integer [e]. *)
Definition pow2 (e : Z) : Q := Qpower 2 e.

(** [floor (log2 a)] for [a > 0]. *)
Definition ilog2 (a : Q) : Z :=
  let e0 := Z.log2 (Qnum a) - Z.log2 (Zpos (Qden a)) in
  if Qle_bool (pow2 e0) a then e0 else e0 - 1.

(** The nearest integer, ties to the even one. *)
Definition roundHalfEven (x : Q) : Z :=
  let f := Qfloor x in
  match (x - inject_Z f ?= 1 # 2)%Q with
  | Lt => f
  | Gt => f + 1
  | Eq => if Z.even f then f else f + 1
  end.

(** The double nearest to [q], ties to the even significand: 53 bits of
    significand, exponents down to [-1074], an infinity from [2 ^ 1024]
    on. *)
Definition round64 (q : Q) : FrameDelay.number :=
  if Qeq_bool q 0 then FrameDelay.Finite 0
  else
    let a := Qabs q in
    let e := Z.max (ilog2 a - 52) (-1074) in
    let r := Qred (inject_Z (roundHalfEven (a / pow2 e)) * pow2 e) in
    if Qle_bool (pow2 1024) r then
      if Qle_bool 0 q then FrameDelay.PosInfinity else FrameDelay.NegInfinity
    else FrameDelay.Finite (if Qle_bool 0 q then r else Qopp r).

(** An integer as a double: the nearest one. *)
Definition ofZ (z : Z) : FrameDelay.number := round64 (inject_Z z).

(** [x + y] *)
Definition add (x y : FrameDelay.number) : FrameDelay.number :=
  match x, y with
  | FrameDelay.NaN, _ | _, FrameDelay.NaN => FrameDelay.NaN
  | FrameDelay.PosInfinity, FrameDelay.NegInfinity
  | FrameDelay.NegInfinity, FrameDelay.PosInfinity => FrameDelay.NaN
  | FrameDelay.PosInfinity, _ | _, FrameDelay.PosInfinity =>
      FrameDelay.PosInfinity
  | FrameDelay.NegInfinity, _ | _, FrameDelay.NegInfinity =>
      FrameDelay.NegInfinity
  | FrameDelay.Finite a, FrameDelay.Finite b => round64 (a + b)
  end.

(** The infinity with the sign of [s], [NaN] for zero. *)
Definition signedInfinity (s : comparison) : FrameDelay.number :=
  match s with
  | Gt => FrameDelay.PosInfinity
  | Lt => FrameDelay.NegInfinity
  | Eq => FrameDelay.NaN
  end.

Definition negate (x : FrameDelay.number) : FrameDelay.number :=
  match x with
  | FrameDelay.PosInfinity => FrameDelay.NegInfinity
  | FrameDelay.NegInfinity => FrameDelay.PosInfinity
  | FrameDelay.Finite a => FrameDelay.Finite (- a)
  | FrameDelay.NaN => FrameDelay.NaN
  end.

(** [x * y] *)
Definition mul (x y : FrameDelay.number) : FrameDelay.number :=
  match x, y with
  | FrameDelay.NaN, _ | _, FrameDelay.NaN => FrameDelay.NaN
  | FrameDelay.Finite a, FrameDelay.Finite b => round64 (a * b)
  | FrameDelay.Finite a, FrameDelay.PosInfinity
  | FrameDelay.PosInfinity, FrameDelay.Finite a =>
      signedInfinity (a ?= 0)%Q
  | FrameDelay.Finite a, FrameDelay.NegInfinity
  | FrameDelay.NegInfinity, FrameDelay.Finite a =>
      negate (signedInfinity (a ?= 0)%Q)
  | FrameDelay.PosInfinity, FrameDelay.PosInfinity
  | FrameDelay.NegInfinity, FrameDelay.NegInfinity => FrameDelay.PosInfinity
  | FrameDelay.PosInfinity, FrameDelay.NegInfinity
  | FrameDelay.NegInfinity, FrameDelay.PosInfinity => FrameDelay.NegInfinity
  end.

(** [x / y].  A zero divisor is [+0]: the divisors of the program are its
    integer grid dimensions. *)
Definition div (x y : FrameDelay.number) : FrameDelay.number :=
  match x, y with
  | FrameDelay.NaN, _ | _, FrameDelay.NaN => FrameDelay.NaN
  | FrameDelay.Finite a, FrameDelay.Finite b =>
      if Qeq_bool b 0 then signedInfinity (a ?= 0)%Q else round64 (a / b)
  | FrameDelay.Finite _, _ => FrameDelay.Finite 0
  | FrameDelay.PosInfinity, FrameDelay.Finite b =>
      if Qle_bool 0 b then FrameDelay.PosInfinity else FrameDelay.NegInfinity
  | FrameDelay.NegInfinity, FrameDelay.Finite b =>
      if Qle_bool 0 b then FrameDelay.NegInfinity else FrameDelay.PosInfinity
  | _, _ => FrameDelay.NaN
  end.

End Double.

(** ** Numbers with an integer value *)

Module Num.

(** A JavaScript number that is an integer or is not finite: what the
    dimensions, counts and block sizes of the program are. *)
Inductive t : Type :=
| NaN
| PosInfinity
| NegInfinity
| Int (z : Z).

(** [Math.floor] *)
Definition floor (x : FrameDelay.number) : t :=
  match x with
  | FrameDelay.NaN => NaN
  | FrameDelay.PosInfinity => PosInfinity
  | FrameDelay.NegInfinity => NegInfinity
  | FrameDelay.Finite q => Int (Qfloor q)
  end.

(** The double nearest to the integer [z], as every result of an integer
    operation is; it is [z] itself up to [2 ^ 53], and it is an integer. *)
Definition ofZ (z : Z) : t := floor (Double.ofZ z).

(** [Number.isFinite] *)
Definition isFinite (x : t) : bool :=
  match x with Int _ => true | _ => false end.

(** [x <= y]; every comparison with [NaN] is false. *)
Definition le (x y : t) : bool :=
  match x, y with
  | NaN, _ | _, NaN => false
  | NegInfinity, _ | _, PosInfinity => true
  | PosInfinity, _ | _, NegInfinity => false
  | Int a, Int b => a <=? b
  end.

(** [x < y] *)
Definition lt (x y : t) : bool :=
  match x, y with
  | NaN, _ | _, NaN => false
  | PosInfinity, _ | _, NegInfinity => false
  | NegInfinity, _ | _, PosInfinity => true
  | Int a, Int b => a <? b
  end.

(** [Math.max(x, y)] and [Math.min(x, y)]: [NaN] if an argument is. *)
Definition max (x y : t) : t :=
  match x, y with
  | NaN, _ | _, NaN => NaN
  | _, _ => if le x y then y else x
  end.

Definition min (x y : t) : t :=
  match x, y with
  | NaN, _ | _, NaN => NaN
  | _, _ => if le x y then x else y
  end.

(** [x * y] *)
Definition mul (x y : t) : t :=
  match x, y with
  | NaN, _ | _, NaN => NaN
  | Int a, Int b => ofZ (a * b)
  | Int a, PosInfinity | PosInfinity, Int a =>
      match a ?= 0 with Gt => PosInfinity | Lt => NegInfinity | Eq => NaN end
  | Int a, NegInfinity | NegInfinity, Int a =>
      match a ?= 0 with Gt => NegInfinity | Lt => PosInfinity | Eq => NaN end
  | PosInfinity, PosInfinity | NegInfinity, NegInfinity => PosInfinity
  | PosInfinity, NegInfinity | NegInfinity, PosInfinity => NegInfinity
  end.

End Num.

(** ** Size-budget solver *)

Module SizeBudget.

(** [const MAX_GIF_PIXELS = 4_000_000] *)
Definition MAX_GIF_PIXELS : Z := 4000000.

(** [Math.floor(Math.sqrt(a / b))] for integers [a >= 0] and [b > 0]: the
    largest [k] with [k * k <= a / b] over the reals, which is the integer
    square root of the integer quotient (see [floor_sqrt_div_spec]). *)
Definition floor_sqrt_div (a b : Z) : Z := Z.sqrt (a / b).

(** [Math.floor(Math.sqrt(a / b))] for an integer [a > 0] and any [b]:
    [a / 0] is [Infinity], a negative quotient has the root [NaN], and
    [a / Infinity] is zero.  For an integer [b > 0] the quotient and the root
    are rounded, but between two integers [k] and [k + 1] (doubles
    themselves, as their squares are) rounding never crosses, so the floor
    is that of the exact root. *)
Definition floorSqrtQuotient (a : Z) (b : Num.t) : Num.t :=
  match b with
  | Num.NaN => Num.NaN
  | Num.PosInfinity | Num.NegInfinity => Num.Int 0
  | Num.Int n =>
      if n =? 0 then Num.PosInfinity
      else if n <? 0 then Num.NaN
      else Num.Int (floor_sqrt_div a n)
  end.

(** [getSafeGifPixelSize] *)
Definition getSafeGifPixelSize
    (sampleWidth sampleHeight frameCount desiredPixelSize : Num.t) : Num.t :=
  let frameArea := Num.mul sampleWidth sampleHeight in
  if Num.le frameArea (Num.Int 0) || negb (Num.isFinite frameArea)
     || Num.le frameCount (Num.Int 0)
  then Num.max (Num.Int 1) desiredPixelSize
  else
    let maxPixelSize :=
      floorSqrtQuotient MAX_GIF_PIXELS
        (Num.max (Num.mul frameArea frameCount) (Num.Int 1)) in
    if negb (Num.isFinite maxPixelSize) || Num.le maxPixelSize (Num.Int 0)
    then Num.Int 1
    else Num.max (Num.Int 1) (Num.min desiredPixelSize maxPixelSize).

(** The solver on integers whose products are exact: the finite branch of
    [getSafeGifPixelSize]. *)
Definition integerSize
    (sampleWidth sampleHeight frameCount desiredPixelSize : Z) : Z :=
  let frameArea := sampleWidth * sampleHeight in
  if (frameArea <=? 0) || (frameCount <=? 0) then
    Z.max 1 desiredPixelSize
  else
    let maxPixelSize :=
      floor_sqrt_div MAX_GIF_PIXELS (Z.max (frameArea * frameCount) 1) in
    if maxPixelSize <=? 0 then 1
    else Z.max 1 (Z.min desiredPixelSize maxPixelSize).

(** The number of indexed pixels the animated encode of [convertImage]
    decodes: [finalWidth * finalHeight] per frame, [frameCount] frames. *)
Definition totalGifPixels (sampleWidth sampleHeight frameCount k : Z) : Z :=
  (sampleWidth * k) * (sampleHeight * k) * frameCount.

End SizeBudget.

(** ** Palette lookup builder and indexed frames *)

Module Palette.

Record RGB : Type := { r : Z; g : Z; b : Z }.

(** [String.prototype.toLowerCase], on the ASCII range that hex colors use:
    the letters A-Z move to a-z, every other byte stays. *)
Definition ascii_toLowerCase (c : ascii) : ascii :=
  let n := nat_of_ascii c in
  if ((65 <=? n) && (n <=? 90))%nat then ascii_of_nat (n + 32) else c.

Fixpoint toLowerCase (s : string) : string :=
  match s with
  | EmptyString => EmptyString
  | String c rest => String (ascii_toLowerCase c) (toLowerCase rest)
  end.

(** [Array.from(new Set(xs))]: a [Set] keeps the first insertion of every
    value, in insertion order. *)
Definition setAdd (acc : list string) (x : string) : list string :=
  if decide (x ∈ acc) then acc else acc ++ [x].

Definition setFromArray (xs : list string) : list string :=
  foldl setAdd [] xs.

(** [palette.length ? palette : ["#000000", "#ffffff"]], and the
    deduplicated, lowercased list [Array.from(new Set(...))] made from it. *)
Definition sourceColors (palette : list string) : list string :=
  if decide (length palette = 0%nat) then ["#000000"; "#ffffff"] else palette.

Definition uniqueColors (palette : list string) : list string :=
  setFromArray (toLowerCase <$> sourceColors palette).

(** [normalizedPalette] after the two [push] branches. *)
Definition normalizedPalette (palette : list string) : list string :=
  let unique := uniqueColors palette in
  match unique with
  | [] => unique ++ ["#000000"; "#ffffff"]
  | [c] => unique ++ [c]
  | _ => unique
  end.

Definition cappedLength (palette : list string) : nat :=
  Nat.min 256 (length (normalizedPalette palette)).

(** [Math.max(2, 1 << Math.ceil(Math.log2(Math.max(2, cappedLength))))];
    [Math.log2] is exact on powers of two, so its ceiling is [Nat.log2_up]. *)
Definition targetSize (palette : list string) : nat :=
  Nat.max 2 (2 ^ Nat.log2_up (Nat.max 2 (cappedLength palette))).

(** [normalizedPalette[normalizedPalette.length - 1]]; the list is never
    empty at this point, the default only makes the model total. *)
Definition fallbackHex (palette : list string) : string :=
  default "" (last (normalizedPalette palette)).

(** [slice(0, targetSize)] followed by the [while] loop that pushes
    [fallbackHex] until the length is [targetSize]. *)
Definition paddedPalette (palette : list string) : list string :=
  let sliced := take (targetSize palette) (normalizedPalette palette) in
  sliced
  ++ replicate (targetSize palette - length sliced) (fallbackHex palette).

(** The [forEach] that fills [colorIndexMap]: the first index of every hex. *)
Definition indexMapStep (m : gmap string nat) (entry : nat * string)
    : gmap string nat :=
  match m !! entry.2 with
  | Some _ => m
  | None => <[entry.2 := entry.1]> m
  end.

Definition buildIndexMap (padded : list string) : gmap string nat :=
  foldl indexMapStep ∅ (zip (seq 0 (length padded)) padded).

Record PaletteLookup : Type := {
  paletteColors : list Z;
  colorIndexMap : gmap string nat;
  fallbackIndex : nat
}.

Section WithHexToRgb.

(** [hexToRgb] lives in [src/lib/utils], which is not part of the sources;
    the lookup builder only packs its result, so it is taken as given. *)
Variable hexToRgb : string -> RGB.

Definition packColor (hex : string) : Z :=
  let c := hexToRgb hex in
  Z.lor (Z.lor (Z.shiftl (r c) 16) (Z.shiftl (g c) 8)) (b c).

Definition buildPaletteLookup (palette : list string) : PaletteLookup :=
  let padded := paddedPalette palette in
  let map := buildIndexMap padded in
  {| paletteColors := packColor <$> padded;
     colorIndexMap := map;
     fallbackIndex := default 0%nat (map !! fallbackHex palette) |}.

End WithHexToRgb.

(** The per-cell lookup of [colorGridToIndexedPixels]:
    [colorIndexMap.get(hex.toLowerCase()) ?? fallbackIndex]. *)
Definition lookupIndex (colorIndexMap : gmap string nat) (fallbackIndex : nat)
    (hex : string) : nat :=
  default fallbackIndex (colorIndexMap !! toLowerCase hex).

(** [colors[y]?.[x]?.toLowerCase() ?? ""] looked up in the map. *)
Definition cellIndex (colors : list (list string))
    (colorIndexMap : gmap string nat) (fallbackIndex : nat) (y x : nat) : nat :=
  match colors !! y ≫= (.!! x) with
  | Some hex => lookupIndex colorIndexMap fallbackIndex hex
  | None => default fallbackIndex (colorIndexMap !! "")
  end.

(** A store into a [Uint8Array]: the value is taken modulo 256, a store
    outside the array is ignored. *)
Definition storeByte (buf : list Z) (i : Z) (v : nat) : list Z :=
  if i <? 0 then buf else <[Z.to_nat i := Z.of_nat v mod 256]> buf.

Definition fillBlockRow (pixelSize rowOffset : Z) (paletteIndex : nat)
    (x : nat) (buf : list Z) : list Z :=
  foldl (fun acc dx =>
           let column := Z.of_nat x * pixelSize + dx in
           storeByte acc (rowOffset + column) paletteIndex)
        buf (seqZ 0 pixelSize).

Definition fillPixelRow (colors : list (list string)) (pixelSize : Z)
    (colorIndexMap : gmap string nat) (fallbackIndex : nat)
    (sampleWidth : nat) (finalWidth : Z) (y : nat) (dy : Z) (buf : list Z)
    : list Z :=
  let row := Z.of_nat y * pixelSize + dy in
  let rowOffset := row * finalWidth in
  foldl (fun acc x =>
           fillBlockRow pixelSize rowOffset
             (cellIndex colors colorIndexMap fallbackIndex y x) x acc)
        buf (seq 0 sampleWidth).

(** [colorGridToIndexedPixels]: [inl] is the thrown
    [Error("Color grid is empty.")]. *)
Definition colorGridToIndexedPixels (colors : list (list string))
    (pixelSize : Z) (colorIndexMap : gmap string nat) (fallbackIndex : nat)
    : string + list Z :=
  let sampleHeight := length colors in
  let sampleWidth := from_option length 0%nat (colors !! 0%nat) in
  if decide (sampleHeight = 0%nat \/ sampleWidth = 0%nat) then
    inl "Color grid is empty."
  else
    let finalWidth := Z.of_nat sampleWidth * pixelSize in
    let finalHeight := Z.of_nat sampleHeight * pixelSize in
    let indexedPixels := replicate (Z.to_nat (finalWidth * finalHeight)) 0 in
    inr (foldl (fun acc y =>
                  foldl (fun acc' dy =>
                           fillPixelRow colors pixelSize colorIndexMap
                             fallbackIndex sampleWidth finalWidth y dy acc')
                        acc (seqZ 0 pixelSize))
               indexedPixels (seq 0 sampleHeight)).

(** Test data: [sampleColor n] is the color ["#000hhh"] whose value is [n]. *)
Definition hexDigit (n : nat) : ascii :=
  match String.get (n mod 16) "0123456789abcdef" with
  | Some c => c
  | None => "0"%char
  end.

Definition sampleColor (n : nat) : string :=
  String "#" (String "0" (String "0" (String "0"
    (String (hexDigit (n / 256))
    (String (hexDigit (n / 16))
    (String (hexDigit n) EmptyString)))))).

Definition palette257 : list string := sampleColor <$> seq 0 257.

End Palette.

(** ** Quantizer *)

Module Quantizer.

(** [type PaletteEntry = { hex: string; rgb: ReturnType<typeof hexToRgb> }] *)
Record PaletteEntry : Type := {
  hex : string;
  rgb : Palette.RGB
}.

(** [Number.MAX_VALUE], the largest finite double. *)
Definition MAX_VALUE : Z := 2 ^ 1024 - 2 ^ 971.

(** [buffer[index]]: [None] is JavaScript's [undefined]. *)
Definition readByte (buffer : list Z) (index : Z) : option Z :=
  if index <? 0 then None else buffer !! Z.to_nat index.

(** [(rgb.r - r) ** 2 + (rgb.g - g) ** 2 + (rgb.b - b) ** 2]; with an
    [undefined] operand the sum is [NaN], here [None]. *)
Definition distance (entry : PaletteEntry) (r g b : option Z) : option Z :=
  r' ← r; g' ← g; b' ← b;
  Some ((Palette.r (rgb entry) - r') ^ 2
        + (Palette.g (rgb entry) - g') ^ 2
        + (Palette.b (rgb entry) - b') ^ 2).

(** One round of [for (const entry of paletteData)]: the state is
    [(closest, best)]; [distance < best] is false for [NaN]. *)
Definition nearestStep (r g b : option Z)
    (st : option PaletteEntry * Z) (entry : PaletteEntry)
    : option PaletteEntry * Z :=
  match distance entry r g b with
  | Some d => if d <? st.2 then (Some entry, d) else st
  | None => st
  end.

(** [closest] after the loop, started from [paletteData[0]] and
    [Number.MAX_VALUE]. *)
Definition nearestEntry (paletteData : list PaletteEntry) (r g b : option Z)
    : option PaletteEntry :=
  (foldl (nearestStep r g b) (paletteData !! 0%nat, MAX_VALUE) paletteData).1.

(** [const clamp = (value, max) => Math.min(max - 1, Math.max(0, value))] *)
Definition clamp (value : Num.t) (max : Z) : Num.t :=
  Num.min (Num.ofZ (max - 1)) (Num.max (Num.Int 0) value).

(** [Math.floor(((coord + 0.5) / gridDim) * sourceDim)], every operation
    rounded to the nearest double as the machine does. *)
Definition sourceCoord (coord gridDim sourceDim : Z) : Num.t :=
  Num.floor
    (Double.mul
       (Double.div
          (Double.add (Double.ofZ coord) (FrameDelay.Finite (1 # 2)))
          (Double.ofZ gridDim))
       (Double.ofZ sourceDim)).

(** The body of the inner loop: the hex written to [colorGrid[y][x]].
    [None] is the [TypeError] of [closest.hex] on an empty palette. *)
Definition quantizeCell (framePixels : list Z) (sourceWidth : Z)
    (paletteData : list PaletteEntry) (sourceY sourceX : Z) : option string :=
  let index := (sourceY * sourceWidth + sourceX) * 4 in
  let r := readByte framePixels index in
  let g := readByte framePixels (index + 1) in
  let b := readByte framePixels (index + 2) in
  hex <$> nearestEntry paletteData r g b.

(** The body of the inner loop for the clamped coordinates.  When one of
    them is not an integer ([NaN], or an infinity) neither is [index], and
    the three reads give [undefined]. *)
Definition quantizeAt (framePixels : list Z) (sourceWidth : Z)
    (paletteData : list PaletteEntry) (sourceY sourceX : Num.t)
    : option string :=
  match sourceY, sourceX with
  | Num.Int y, Num.Int x =>
      quantizeCell framePixels sourceWidth paletteData y x
  | _, _ => hex <$> nearestEntry paletteData None None None
  end.

(** What [quantizeFramePixels] can throw: the [RangeError] of an invalid
    array length, the [TypeError] of [closest.hex] on an empty palette. *)
Inductive Exception : Type :=
| RangeError
| TypeError.

(** An integer that [new Array(n)] accepts as a length. *)
Definition validArrayLength (n : Z) : bool := (0 <=? n) && (n <? 2 ^ 32).

(** [quantizeFramePixels], for integer dimensions.
    [Array.from({ length: sampleHeight }, ...)] makes no row for a length of
    0 or less and throws for one above [2 ^ 32 - 1]; each row is
    [new Array(sampleWidth)], which throws unless [sampleWidth] is a valid
    length. *)
Definition quantizeFramePixels (framePixels : list Z)
    (sourceWidth sourceHeight sampleWidth sampleHeight : Z)
    (paletteData : list PaletteEntry) : Exception + list (list string) :=
  if 2 ^ 32 <=? sampleHeight then inl RangeError
  else if (0 <? sampleHeight) && negb (validArrayLength sampleWidth)
  then inl RangeError
  else
    match
      mapM (fun y =>
              let sourceY :=
                clamp (sourceCoord y sampleHeight sourceHeight)
                      sourceHeight in
              mapM (fun x =>
                      let sourceX :=
                        clamp (sourceCoord x sampleWidth sourceWidth)
                              sourceWidth in
                      quantizeAt framePixels sourceWidth paletteData
                                 sourceY sourceX)
                   (seqZ 0 sampleWidth))
           (seqZ 0 sampleHeight)
    with
    | Some colorGrid => inr colorGrid
    | None => inl TypeError
    end.

(** The squared Euclidean RGB distance of the specification. *)
Definition sqdist (entry : PaletteEntry) (r g b : Z) : Z :=
  (Palette.r (rgb entry) - r) ^ 2 + (Palette.g (rgb entry) - g) ^ 2
  + (Palette.b (rgb entry) - b) ^ 2.

Definition isByte (v : Z) : Prop := 0 <= v <= 255.

Definition byteEntry (entry : PaletteEntry) : Prop :=
  isByte (Palette.r (rgb entry)) /\ isByte (Palette.g (rgb entry))
  /\ isByte (Palette.b (rgb entry)).

(** The loop invariant of the nearest-color search, after the entries of
    [done_]: [closest] is the first entry of least distance among them. *)
Definition nearestInv (r g b : Z) (done_ : list PaletteEntry)
    (st : option PaletteEntry * Z) : Prop :=
  exists (i : nat) (e : PaletteEntry),
    st = (Some e, sqdist e r g b) /\ done_ !! i = Some e /\
    forall (j : nat) (e' : PaletteEntry), done_ !! j = Some e' ->
      sqdist e r g b <= sqdist e' r g b /\
      ((j < i)%nat -> sqdist e r g b < sqdist e' r g b).

(** The two-color palette of the specification's example. *)
Definition blackWhite : list PaletteEntry :=
  [ {| hex := "#000000";
       rgb := {| Palette.r := 0; Palette.g := 0; Palette.b := 0 |} |};
    {| hex := "#ffffff";
       rgb := {| Palette.r := 255; Palette.g := 255; Palette.b := 255 |} |} ].

End Quantizer.

(** ** Animated-source decoder *)

Module Decoder.

(** [interface GifFrameInfo] of omggif; the fields are unsigned 16-bit values
    of the container. *)
Module FrameInfo.
Record t : Type := {
  x : nat;
  y : nat;
  width : nat;
  height : nat;
  delay : Z;
  disposal : Z
}.
End FrameInfo.

(** [class GifReader] of omggif, as far as [extractGifSource] uses it.
    [frameInfo] lists [reader.frameInfo(i)] for [i < numFrames()];
    [decodeAndBlitFrameRGBA i canvas] is the content of the caller's buffer
    after the call. *)
Module Reader.
Record t : Type := {
  width : nat;
  height : nat;
  loopCount : option Z;
  frameInfo : list FrameInfo.t;
  decodeAndBlitFrameRGBA : nat -> list Z -> list Z
}.
Definition numFrames (reader : t) : nat := length (frameInfo reader).
End Reader.

(** Typed arrays are objects: a [ref] names one, the [heap] holds their
    contents.  A new array gets the next free reference. *)
Abbreviation ref := nat (only parsing).
Abbreviation heap := (list (list Z)) (only parsing).

Definition alloc (h : heap) (content : list Z) : heap * ref :=
  (h ++ [content], length h).

Definition deref (h : heap) (p : ref) : list Z := default [] (h !! p).

Definition store (h : heap) (p : ref) (content : list Z) : heap :=
  <[p := content]> h.

(** [type GifFrameData = { pixels: Uint8ClampedArray; delay: number }] *)
Module FrameData.
Record t : Type := {
  pixels : ref;
  delay : Z
}.
End FrameData.

(** [type GifSource] *)
Module Source.
Record t : Type := {
  width : nat;
  height : nat;
  loopCount : option Z;
  frames : list FrameData.t
}.
End Source.

(** [buffer.fill(value, start, end)] for [0 <= start]: the elements at the
    positions from [start] up to, not including, [end] that exist. *)
Definition fill (buffer : list Z) (value : Z) (start end_ : nat) : list Z :=
  imap (fun p v => if (start <=? p)%nat && (p <? end_)%nat then value else v)
       buffer.

Definition rowStart (canvasWidth : nat) (frame : FrameInfo.t) (row : nat)
    : nat :=
  ((FrameInfo.y frame + row) * canvasWidth + FrameInfo.x frame) * 4.

(** The body of the [for] loop of [clearFrameRegion]. *)
Definition clearRow (canvasWidth : nat) (frame : FrameInfo.t)
    (buffer : list Z) (row : nat) : list Z :=
  let start := rowStart canvasWidth frame row in
  fill buffer 0 start (start + FrameInfo.width frame * 4).

Definition clearFrameRegion (buffer : list Z) (canvasWidth : nat)
    (frame : FrameInfo.t) : list Z :=
  foldl (clearRow canvasWidth frame) buffer (seq 0 (FrameInfo.height frame)).

(** Byte [p] lies in one of the spans that the first [rows] rounds of
    [clearFrameRegion] fill. *)
Definition inRows (canvasWidth : nat) (frame : FrameInfo.t) (rows p : nat)
    : bool :=
  existsb (fun row =>
             let start := rowStart canvasWidth frame row in
             (start <=? p)%nat && (p <? start + FrameInfo.width frame * 4)%nat)
          (seq 0 rows).

(** [target.set(source)]: the elements of [source] replace the first
    elements of [target].  The source is never longer than the target where
    [extractGifSource] calls it, so the [RangeError] case does not arise. *)
Definition typedArraySet (target source : list Z) : list Z :=
  take (length target) (source ++ drop (length source) target).

(** One round of the [for] loop of [extractGifSource]; [canvasState] is the
    reference of the shared canvas. *)
Definition decodeFrame (reader : Reader.t) (canvasState : ref)
    (st : heap * list FrameData.t) (step : nat * FrameInfo.t)
    : heap * list FrameData.t :=
  let '(h, frames) := st in
  let '(i, frameInfo) := step in
  let '(h1, restoreBuffer) :=
    if FrameInfo.disposal frameInfo =? 3 then
      let '(h', p) := alloc h (deref h canvasState) in (h', Some p)
    else (h, None) in
  let h2 :=
    store h1 canvasState
      (Reader.decodeAndBlitFrameRGBA reader i (deref h1 canvasState)) in
  let '(h3, pixels) := alloc h2 (deref h2 canvasState) in
  let frames' :=
    frames ++ [{| FrameData.pixels := pixels;
                  FrameData.delay := FrameInfo.delay frameInfo |}] in
  let h4 :=
    if FrameInfo.disposal frameInfo =? 2 then
      store h3 canvasState
        (clearFrameRegion (deref h3 canvasState) (Reader.width reader)
           frameInfo)
    else
      match FrameInfo.disposal frameInfo =? 3, restoreBuffer with
      | true, Some p =>
          store h3 canvasState
            (typedArraySet (deref h3 canvasState) (deref h3 p))
      | _, _ => h3
      end in
  (h4, frames').

(** [extractGifSource], given the [GifReader] made from the bytes.  The heap
    of the result holds the buffers the frames refer to. *)
Definition extractGifSource (reader : Reader.t) : string + Source.t * heap :=
  let width := Reader.width reader in
  let height := Reader.height reader in
  let loopCount := Reader.loopCount reader in
  let frameCount := Reader.numFrames reader in
  if decide (frameCount = 0%nat) then inl "GIF contains no frames"
  else
    let '(h0, canvasState) := alloc [] (replicate (width * height * 4) 0) in
    let '(h, frames) :=
      foldl (decodeFrame reader canvasState) (h0, [])
            (zip (seq 0 frameCount) (Reader.frameInfo reader)) in
    inr ({| Source.width := width; Source.height := height;
            Source.loopCount := loopCount; Source.frames := frames |}, h).

(** *** The disposal state machine of the specification *)

(** Pixel number [pixel] of a canvas of width [canvasWidth] lies in the
    rectangle of [frame]. *)
Definition inRect (canvasWidth : nat) (frame : FrameInfo.t) (pixel : nat)
    : bool :=
  let px := (pixel mod canvasWidth)%nat in
  let py := (pixel / canvasWidth)%nat in
  (FrameInfo.x frame <=? px)%nat
  && (px <? FrameInfo.x frame + FrameInfo.width frame)%nat
  && (FrameInfo.y frame <=? py)%nat
  && (py <? FrameInfo.y frame + FrameInfo.height frame)%nat.

(** Clear the frame's own rectangle to fully transparent: the four bytes of
    every pixel in the rectangle become 0. *)
Definition clearRect (canvasWidth : nat) (frame : FrameInfo.t)
    (canvas : list Z) : list Z :=
  imap (fun p v => if inRect canvasWidth frame (p / 4) then 0 else v) canvas.

(** Step 1: with disposal code 3 the full canvas is copied into a temporary
    snapshot before the frame is composited. *)
Definition takeSnapshot (frame : FrameInfo.t) (canvas : list Z)
    : option (list Z) :=
  if FrameInfo.disposal frame =? 3 then Some canvas else None.

(** Step 4, post-capture disposal: code 2 clears the frame's rectangle,
    code 3 restores the snapshot, any other code keeps the canvas. *)
Definition dispose (canvasWidth : nat) (frame : FrameInfo.t)
    (snapshot : option (list Z)) (canvas : list Z) : list Z :=
  if FrameInfo.disposal frame =? 2 then clearRect canvasWidth frame canvas
  else if FrameInfo.disposal frame =? 3 then default canvas snapshot
  else canvas.

(** The frames of the state machine, from frame index [i] on: snapshot,
    composite, capture with the delay, dispose. *)
Fixpoint machineFrames (reader : Reader.t) (i : nat)
    (infos : list FrameInfo.t) (canvas : list Z) : list (list Z * Z) :=
  match infos with
  | [] => []
  | frame :: rest =>
      let snapshot := takeSnapshot frame canvas in
      let composited := Reader.decodeAndBlitFrameRGBA reader i canvas in
      let captured := (composited, FrameInfo.delay frame) in
      captured
      :: machineFrames reader (S i) rest
           (dispose (Reader.width reader) frame snapshot composited)
  end.

(** A frame whose region is cleared after its capture (disposal code 2) does
    not stick out of the canvas on the right. *)
Definition frameFits (reader : Reader.t) (frame : FrameInfo.t) : Prop :=
  FrameInfo.disposal frame = 2 ->
  (FrameInfo.x frame + FrameInfo.width frame <= Reader.width reader)%nat.

(** What [extractGifSource] relies on from the collaborator decoder: it
    writes into the caller's buffer, whose length is fixed. *)
Definition blitKeepsLength (reader : Reader.t) : Prop :=
  forall (i : nat) (canvas : list Z),
    length (Reader.decodeAndBlitFrameRGBA reader i canvas) = length canvas.

(** The collaborator decoder only touches pixels of the frame's rectangle. *)
Definition blitStaysInFrame (reader : Reader.t) : Prop :=
  forall (i : nat) (frame : FrameInfo.t) (canvas : list Z) (p : nat),
    Reader.frameInfo reader !! i = Some frame ->
    inRect (Reader.width reader) frame (p / 4) = false ->
    Reader.decodeAndBlitFrameRGBA reader i canvas !! p = canvas !! p.

(** The buffers the frames of a decoded source refer to, with their delays. *)
Definition frameBuffers (h : heap) (frames : list FrameData.t)
    : list (list Z * Z) :=
  (fun fr => (deref h (FrameData.pixels fr), FrameData.delay fr)) <$> frames.

(** Test data: a decoder whose frame [i] is a solid rectangle of the opaque
    color [(c, c, c)] with [c = 50 * (i + 1)]. *)
Definition solidBlit (canvasWidth : nat) (infos : list FrameInfo.t)
    (i : nat) (canvas : list Z) : list Z :=
  match infos !! i with
  | Some frame =>
      imap (fun p v =>
              if inRect canvasWidth frame (p / 4) then
                if (p mod 4 =? 3)%nat then 255 else 50 * (Z.of_nat i + 1)
              else v)
           canvas
  | None => canvas
  end.

Definition twoFrames : list FrameInfo.t :=
  [ {| FrameInfo.x := 0; FrameInfo.y := 0; FrameInfo.width := 20;
       FrameInfo.height := 20; FrameInfo.delay := 10;
       FrameInfo.disposal := 2 |};
    {| FrameInfo.x := 5; FrameInfo.y := 5; FrameInfo.width := 10;
       FrameInfo.height := 10; FrameInfo.delay := 7;
       FrameInfo.disposal := 0 |} ].

(** Test data: on a 2 x 2 canvas, a full frame that is kept, then a frame of
    width 2 at column 1, one pixel wider than the canvas allows, with
    disposal code 2, then a one-pixel frame. *)
Definition overhangFrames : list FrameInfo.t :=
  [ {| FrameInfo.x := 0; FrameInfo.y := 0; FrameInfo.width := 2;
       FrameInfo.height := 2; FrameInfo.delay := 10;
       FrameInfo.disposal := 0 |};
    {| FrameInfo.x := 1; FrameInfo.y := 0; FrameInfo.width := 2;
       FrameInfo.height := 1; FrameInfo.delay := 10;
       FrameInfo.disposal := 2 |};
    {| FrameInfo.x := 0; FrameInfo.y := 0; FrameInfo.width := 1;
       FrameInfo.height := 1; FrameInfo.delay := 10;
       FrameInfo.disposal := 0 |} ].

Definition overhangReader : Reader.t :=
  {| Reader.width := 2; Reader.height := 2; Reader.loopCount := None;
     Reader.frameInfo := overhangFrames;
     Reader.decodeAndBlitFrameRGBA := solidBlit 2 overhangFrames |}.

Definition twoFrameReader : Reader.t :=
  {| Reader.width := 20; Reader.height := 20; Reader.loopCount := None;
     Reader.frameInfo := twoFrames;
     Reader.decodeAndBlitFrameRGBA := solidBlit 20 twoFrames |}.

End Decoder.

(** ** Conversion orchestrator: the job-id discipline *)

Module Orchestrator.

(** The [vectorData] state of [App]. *)
Record VectorData : Type := {
  colors : list (list string);
  width : Z;
  height : Z;
  pixelSize : Z
}.

(** The [vector] argument of [finalize]. *)
Record Vector : Type := {
  vectorColors : list (list string);
  vectorWidth : Z;
  vectorHeight : Z
}.

(** The state the conversion handlers of [App] read and write:
    [jobRef.current], the React states they set, and the URLs that
    [finalize] hands to [URL.revokeObjectURL] (latest first).  The two other
    callers of [URL.revokeObjectURL], the cleanup of the [resultPreview]
    effect and [handleDownloadSvg], write none of these states and are left
    out: [revokedUrls] is not everything the application revokes. *)
Record AppState : Type := {
  jobRef : Z;
  resultPreview : option string;
  vectorData : option VectorData;
  status : string;
  isProcessing : bool;
  revokedUrls : list string
}.

Definition setStatus (message : string) (s : AppState) : AppState :=
  {| jobRef := jobRef s; resultPreview := resultPreview s;
     vectorData := vectorData s; status := message;
     isProcessing := isProcessing s; revokedUrls := revokedUrls s |}.

Definition revokeObjectURL (url : string) (s : AppState) : AppState :=
  {| jobRef := jobRef s; resultPreview := resultPreview s;
     vectorData := vectorData s; status := status s;
     isProcessing := isProcessing s; revokedUrls := url :: revokedUrls s |}.

(** The [fail] closure of [convertImage(jobId)]; [detail] is
    [describeError(error)]. *)
Definition fail (jobId : Z) (message detail : string) (s : AppState)
    : AppState :=
  if negb (jobRef s =? jobId) then s
  else
    {| jobRef := jobRef s; resultPreview := resultPreview s;
       vectorData := vectorData s;
       status := if decide (detail = "") then message
                 else message +:+ ": " +:+ detail;
       isProcessing := false; revokedUrls := revokedUrls s |}.

(** The [finalize] closure of [convertImage(jobId)]; [pixelSize] is the
    value the closure captured. *)
Definition finalize (jobId pixelSize : Z) (previewUrl : string)
    (vector : option Vector) (nextStatus : string) (s : AppState)
    : AppState :=
  if negb (jobRef s =? jobId) then
    if String.prefix "blob:" previewUrl then revokeObjectURL previewUrl s
    else s
  else
    {| jobRef := jobRef s;
       resultPreview := Some previewUrl;
       vectorData :=
         match vector with
         | Some v =>
             Some {| colors := vectorColors v; width := vectorWidth v;
                     height := vectorHeight v; pixelSize := pixelSize |}
         | None => vectorData s
         end;
       status := nextStatus;
       isProcessing := false;
       revokedUrls := revokedUrls s |}.

(** What the synchronous part of [convertImage] does, by the branch taken
    and the outcome of the encode. *)
Inductive SyncOutcome : Type :=
| GifParsing
| GifUnavailable
| GifEncoded (gifUrl : string) (firstVector : option Vector) (reduced : bool)
| GifFailed (detail : string)
| NoPreview
| ImagePending.

Definition convertImage (jobId pixelSize : Z) (outcome : SyncOutcome)
    (s : AppState) : AppState :=
  match outcome with
  | GifParsing => setStatus "Parsing GIF..." s
  | GifUnavailable => fail jobId "GIF data is not available." "" s
  | GifEncoded gifUrl firstVector reduced =>
      finalize jobId pixelSize gifUrl firstVector
        (if reduced
         then "GIF output is large; pixel size was reduced automatically."
         else "") s
  | GifFailed detail => fail jobId "GIF processing failed" detail s
  | NoPreview => fail jobId "Please upload an image first." "" s
  | ImagePending => s
  end.

(** [rebuild]: every trigger that recomputes goes through it. *)
Definition rebuild (hasSource : bool) (pixelSize : Z) (outcome : SyncOutcome)
    (s : AppState) : AppState :=
  if negb hasSource then setStatus "Please upload an image first." s
  else
    let jobId := jobRef s + 1 in
    convertImage jobId pixelSize outcome
      {| jobRef := jobId; resultPreview := None; vectorData := None;
         status := "Building pixel preview..."; isProcessing := true;
         revokedUrls := revokedUrls s |}.

(** [image.onload] of job [jobId]: [result] is the preview and vector the
    [try] block computed, or the message of what it threw. *)
Definition imageOnload (jobId pixelSize : Z)
    (result : string * Vector + string) (s : AppState) : AppState :=
  if negb (jobRef s =? jobId) then s
  else
    match result with
    | inl (previewUrl, vector) =>
        finalize jobId pixelSize previewUrl (Some vector) "" s
    | inr detail => fail jobId "Failed to generate pixel art." detail s
    end.

(** [image.onerror] of job [jobId]. *)
Definition imageOnerror (jobId : Z) (detail : string) (s : AppState)
    : AppState :=
  fail jobId "Image failed to load." detail s.

(** The handlers of a conversion, one at a time: the triggers, which
    allocate the job ids, and the completions of the jobs. *)
Inductive Event : Type :=
| Trigger (hasSource : bool) (pixelSize : Z) (outcome : SyncOutcome)
| Finalize (jobId pixelSize : Z) (previewUrl : string)
    (vector : option Vector) (nextStatus : string)
| Fail (jobId : Z) (message detail : string)
| ImageOnload (jobId pixelSize : Z) (result : string * Vector + string)
| ImageOnerror (jobId : Z) (detail : string).

Definition step (s : AppState) (e : Event) : AppState :=
  match e with
  | Trigger hasSource pixelSize outcome => rebuild hasSource pixelSize outcome s
  | Finalize jobId pixelSize previewUrl vector nextStatus =>
      finalize jobId pixelSize previewUrl vector nextStatus s
  | Fail jobId message detail => fail jobId message detail s
  | ImageOnload jobId pixelSize result => imageOnload jobId pixelSize result s
  | ImageOnerror jobId detail => imageOnerror jobId detail s
  end.

Definition run (s : AppState) (events : list Event) : AppState :=
  foldl step s events.

(** The job an asynchronous completion belongs to. *)
Definition completionOf (e : Event) : option Z :=
  match e with
  | Trigger _ _ _ => None
  | Finalize jobId _ _ _ _ | Fail jobId _ _ | ImageOnload jobId _ _
  | ImageOnerror jobId _ => Some jobId
  end.

(** What the user sees. *)
Definition visible (s : AppState)
    : option string * option VectorData * string * bool :=
  (resultPreview s, vectorData s, status s, isProcessing s).

(** The blob URL a completion hands to [finalize], if any. *)
Definition blobUrlOf (e : Event) : option string :=
  match e with
  | Finalize _ _ previewUrl _ _ =>
      if String.prefix "blob:" previewUrl then Some previewUrl else None
  | _ => None
  end.

Definition initialState : AppState :=
  {| jobRef := 0; resultPreview := None; vectorData := None; status := "";
     isProcessing := false; revokedUrls := [] |}.

End Orchestrator.

(** ** Loop counts *)

Module LoopCount.

(** [x < 0]; every comparison with [NaN] is false. *)
Definition lt_zero (x : FrameDelay.number) : bool :=
  match x with
  | FrameDelay.Finite q => negb (Qle_bool 0 q)
  | FrameDelay.NegInfinity => true
  | FrameDelay.NaN | FrameDelay.PosInfinity => false
  end.

(** [normalizeLoopCount]; [None] is [null], the only value of
    [number | null] whose [typeof] is not ["number"]. *)
Definition normalizeLoopCount (loopCount : option FrameDelay.number) : Z :=
  match loopCount with
  | None => 0
  | Some x =>
      if negb (FrameDelay.Number_isFinite x) || lt_zero x then 0
      else
        match x with
        | FrameDelay.Finite q => Z.min 65535 (FrameDelay.Math_round q)
        | _ => 0
        end
  end.

End LoopCount.

(** ** Indexed frames: the stores in program order *)

Module IndexedStores.

(** The [indexedPixels[rowOffset + column] = paletteIndex] stores of
    [colorGridToIndexedPixels], in the order the four nested loops run
    them: the position and the palette index of each. *)
Definition stores (colors : list (list string)) (pixelSize : Z)
    (colorIndexMap : gmap string nat) (fallbackIndex : nat)
    (sampleWidth sampleHeight : nat) (finalWidth : Z) : list (Z * nat) :=
  y ← seq 0 sampleHeight;
  dy ← seqZ 0 pixelSize;
  x ← seq 0 sampleWidth;
  dx ← seqZ 0 pixelSize;
  [((Z.of_nat y * pixelSize + dy) * finalWidth
    + (Z.of_nat x * pixelSize + dx),
    Palette.cellIndex colors colorIndexMap fallbackIndex y x)].

Definition applyStore (buf : list Z) (st : Z * nat) : list Z :=
  Palette.storeByte buf st.1 st.2.

End IndexedStores.

(** ** The decoder loop without the heap *)

Module DecoderLoop.

(** The canvas after the post-capture step of one round of
    [extractGifSource], from the canvas before the round ([restoreBuffer],
    when one is taken) and the composited canvas. *)
Definition afterDisposal (reader : Decoder.Reader.t)
    (frame : Decoder.FrameInfo.t) (before composited : list Z) : list Z :=
  if Decoder.FrameInfo.disposal frame =? 2 then
    Decoder.clearFrameRegion composited (Decoder.Reader.width reader) frame
  else if Decoder.FrameInfo.disposal frame =? 3 then before
  else composited.

(** The captured buffers and delays of the rounds [i], [i + 1], ... when the
    canvas holds [canvas] before round [i]. *)
Fixpoint loopFrames (reader : Decoder.Reader.t) (i : nat)
    (infos : list Decoder.FrameInfo.t) (canvas : list Z)
    : list (list Z * Z) :=
  match infos with
  | [] => []
  | frame :: rest =>
      let composited :=
        Decoder.Reader.decodeAndBlitFrameRGBA reader i canvas in
      (composited, Decoder.FrameInfo.delay frame)
      :: loopFrames reader (S i) rest
           (afterDisposal reader frame canvas composited)
  end.

(** The canvas before round [i + n] when it holds [canvas] before round
    [i]. *)
Fixpoint canvasBefore (reader : Decoder.Reader.t) (i : nat)
    (infos : list Decoder.FrameInfo.t) (canvas : list Z) (n : nat)
    {struct n} : list Z :=
  match n with
  | O => canvas
  | S n' =>
      match infos with
      | [] => canvas
      | frame :: rest =>
          canvasBefore reader (S i) rest
            (afterDisposal reader frame canvas
               (Decoder.Reader.decodeAndBlitFrameRGBA reader i canvas)) n'
      end
  end.

End DecoderLoop.

(** ** Job accounting *)

Module Jobs.

(** The event is a trigger that reaches [jobRef.current = jobId] in
    [rebuild]. *)
Definition allocatesJob (e : Orchestrator.Event) : bool :=
  match e with
  | Orchestrator.Trigger hasSource _ _ => hasSource
  | _ => false
  end.

End Jobs.

(** ** Palette registry *)

Module Presets.

Record Preset : Type := {
  id : string;
  label : string;
  description : string;
  colors : list string
}.

(** [const PIXEL_PRESETS] *)
Definition PIXEL_PRESETS : list Preset :=
  [ {| id := "gameboy"; label := "Game Boy DMG";
       description :=
         "Muted greens with crunchy highlights inspired by the original handheld.";
       colors := ["#0f380f"; "#306230"; "#8bac0f"; "#9bbc0f"] |};
    {| id := "nes"; label := "NES Warm";
       description :=
         "Earthy reds and blues tuned to mimic the NES PPU palette.";
       colors := ["#7c0c00"; "#ef0a1a"; "#f2b233"; "#1d57c2"; "#5691f0"] |};
    {| id := "c64"; label := "Commodore 64";
       description :=
         "Classic 16-color palette with teal shadows and lavender midtones.";
       colors := ["#000000"; "#ffffff"; "#68372b"; "#70a4b2"; "#6f3d86";
                  "#588d43"; "#352879"; "#b8c76f"; "#6f4f25"; "#8a8a8a";
                  "#adadad"; "#c9d487"; "#9a6759"; "#c57d75"; "#aea1ff";
                  "#fffcc2"] |};
    {| id := "solar"; label := "Neon Sunset";
       description :=
         "High-contrast magentas and cyans for vaporwave backdrops.";
       colors := ["#14002b"; "#ff00c3"; "#ff8f1f"; "#00f0ff"] |};
    {| id := "noir"; label := "Film Noir";
       description :=
         "Moody monochrome mix for dramatic, high-contrast renders.";
       colors := ["#0a0a0a"; "#212121"; "#4f4f4f"; "#8c8c8c"; "#d6d6d6";
                  "#f8f8f8"] |};
    {| id := "sunrise"; label := "Desert Sunrise";
       description :=
         "Warm oranges, dusty reds, and teal shadows for stylized landscapes.";
       colors := ["#2d1b1f"; "#5e2f32"; "#d94f04"; "#f4a259"; "#f7c480";
                  "#fdefd3"; "#3b8183"] |};
    {| id := "arcade"; label := "Neon Arcade";
       description :=
         "Electric pinks, blues, and violets inspired by synthwave cabinets.";
       colors := ["#050014"; "#1e075f"; "#5c1a8d"; "#c918d1"; "#ff5dac";
                  "#5de0fc"; "#0fffc1"] |};
    {| id := "forestlight"; label := "Forest Light";
       description :=
         "Earthy evergreens with golden shafts of light for natural scenes.";
       colors := ["#121a13"; "#1f3622"; "#3a5c33"; "#6d8c40"; "#a1c349";
                  "#f0f4b9"; "#d9ac63"] |} ].

(** [presets.find((p) => p.id === id) ?? presets[0]]; [None] when the list
    is empty ([undefined]). *)
Definition findPreset (presets : list Preset) (wanted : string)
    : option Preset :=
  match list_find (fun p => id p = wanted) presets with
  | Some (_, p) => Some p
  | None => presets !! 0%nat
  end.

(** [getPalette]; the table is not empty, so the last branch is never
    taken. *)
Definition getPalette (wanted : string) : Preset :=
  match findPreset PIXEL_PRESETS wanted with
  | Some p => p
  | None => {| id := ""; label := ""; description := ""; colors := [] |}
  end.

(** A palette that [buildPaletteLookup] keeps as it is: between 2 and 256
    colors that are their own deduplicated, lowercased list. *)
Definition lossless (palette : list string) : bool :=
  bool_decide (Palette.uniqueColors palette = palette)
  && (2 <=? length palette)%nat && (length palette <=? 256)%nat.

End Presets.

(** ** Vector export *)

Module Svg.

(** The double quote, and the line feed followed by two spaces that joins
    the rectangles. *)
Definition dq : string := String "034"%char EmptyString.
Definition separator : string := String "010"%char "  ".
Definition lineFeed : string := String "010"%char EmptyString.

(** A number in a template literal.  The numbers here are integers, printed
    in decimal with a leading minus sign when negative. *)
Definition numberToString (n : Z) : string := pretty n.

(** The template literal pushed to [rects]. *)
Definition rectMarkup (x y pixelSize : Z) (color : string) : string :=
  "<rect x=" +:+ dq +:+ numberToString (x * pixelSize) +:+ dq
  +:+ " y=" +:+ dq +:+ numberToString (y * pixelSize) +:+ dq
  +:+ " width=" +:+ dq +:+ numberToString pixelSize +:+ dq
  +:+ " height=" +:+ dq +:+ numberToString pixelSize +:+ dq
  +:+ " fill=" +:+ dq +:+ color +:+ dq +:+ " />".

(** One round of the inner loop: [colors[y]?.[x]], skipped when it is
    [undefined] or the empty string. *)
Definition cellRects (colors : list (list string)) (pixelSize y x : Z)
    : list string :=
  match colors !! Z.to_nat y ≫= (.!! Z.to_nat x) with
  | Some color =>
      if decide (color = "") then [] else [rectMarkup x y pixelSize color]
  | None => []
  end.

(** [rects] after the two loops. *)
Definition rects (colors : list (list string)) (width height pixelSize : Z)
    : list string :=
  y ← seqZ 0 height; x ← seqZ 0 width; cellRects colors pixelSize y x.



(** [Array.prototype.join] *)
Fixpoint join (sep : string) (parts : list string) : string :=
  match parts with
  | [] => ""
  | [part] => part
  | part :: rest => part +:+ sep +:+ join sep rest
  end.

Definition buildSvgFromColors (colors : list (list string))
    (width height pixelSize : Z) : string :=
  let svgWidth := width * pixelSize in
  let svgHeight := height * pixelSize in
  "<svg xmlns=" +:+ dq +:+ "http://www.w3.org/2000/svg" +:+ dq
  +:+ " width=" +:+ dq +:+ numberToString svgWidth +:+ dq
  +:+ " height=" +:+ dq +:+ numberToString svgHeight +:+ dq
  +:+ " viewBox=" +:+ dq +:+ "0 0 " +:+ numberToString svgWidth +:+ " "
  +:+ numberToString svgHeight +:+ dq
  +:+ " shape-rendering=" +:+ dq +:+ "crispEdges" +:+ dq +:+ ">"
  +:+ separator
  +:+ join separator (rects colors width height pixelSize)
  +:+ lineFeed +:+ "</svg>".

End Svg.

(** ** The animated branch of [convertImage] *)

Module GifPath.

(** What the [try] block of the animated branch can throw: its own [Error]
    and that of [colorGridToIndexedPixels], the [RangeError] of an invalid
    array length, the [TypeError] of an empty palette, and whatever the
    [GifWriter] throws. *)
Inductive Exception : Type :=
| Error (message : string)
| RangeError
| TypeError
| WriterError.

(** [class GifWriter] of omggif.  The library is not part of the sources, so
    its three operations are parameters.  [W] is the state of a writer and
    [None] a call that throws.  [construct] gets the length of the buffer,
    the logical screen, the global palette and the loop count; [addFrame] is
    called as [addFrame(0, 0, width, height, indexedPixels, { delay })];
    [finish] is [end()] and gives the number of bytes written. *)
Record GifWriter (W : Type) : Type := {
  construct : Z -> Num.t -> Num.t -> list Z -> Z -> option W;
  addFrame : W -> Num.t -> Num.t -> list Z -> Z -> option W;
  finish : W -> option Z
}.
Arguments construct {W} _ _ _ _ _ _.
Arguments addFrame {W} _ _ _ _ _ _.
Arguments finish {W} _ _.


(** [Math.round] of a double. *)
Definition Math_round (x : FrameDelay.number) : Num.t :=
  match x with
  | FrameDelay.NaN => Num.NaN
  | FrameDelay.PosInfinity => Num.PosInfinity
  | FrameDelay.NegInfinity => Num.NegInfinity
  | FrameDelay.Finite q => Num.Int (FrameDelay.Math_round q)
  end.

(** [sourceGif.height / sourceGif.width || 1]: the quotient, or 1 when the
    quotient is 0 or [NaN]. *)
Definition aspect (sourceWidth sourceHeight : Z) : FrameDelay.number :=
  match Double.div (Double.ofZ sourceHeight) (Double.ofZ sourceWidth) with
  | FrameDelay.NaN => FrameDelay.Finite 1
  | FrameDelay.Finite q =>
      if Qeq_bool q 0 then FrameDelay.Finite 1 else FrameDelay.Finite q
  | infinity => infinity
  end.

(** [Math.max(8, resolution)] *)
Definition sampleWidth (resolution : Z) : Z := Z.max 8 resolution.

(** [Math.max(8, Math.round(sampleWidth * aspect))] *)
Definition sampleHeight (sourceWidth sourceHeight resolution : Z) : Num.t :=
  Num.max (Num.Int 8)
    (Math_round
       (Double.mul (Double.ofZ (sampleWidth resolution))
                   (aspect sourceWidth sourceHeight))).

(** [new Uint8Array(n)]: the length of the new array.  [NaN] counts as 0;
    a negative or infinite length, or one of [2 ^ 53] or more, is a
    [RangeError]. *)
Definition typedArrayLength (n : Num.t) : Exception + Z :=
  match n with
  | Num.NaN => inr 0
  | Num.Int z => if (0 <=? z) && (z <? 2 ^ 53) then inr z else inl RangeError
  | Num.PosInfinity | Num.NegInfinity => inl RangeError
  end.

(** [quantizeFramePixels] for the [sampleHeight] of the branch.
    [Array.from({ length })] throws for an infinite length and makes no row
    for [NaN] or a negative infinity, for which the loop runs no round
    either. *)
Definition quantizeFrame (framePixels : list Z) (sourceWidth sourceHeight
    sampleWidth : Z) (sampleHeight : Num.t)
    (paletteData : list Quantizer.PaletteEntry)
    : Exception + list (list string) :=
  match sampleHeight with
  | Num.Int h =>
      match Quantizer.quantizeFramePixels framePixels sourceWidth
              sourceHeight sampleWidth h paletteData with
      | inl Quantizer.RangeError => inl RangeError
      | inl Quantizer.TypeError => inl TypeError
      | inr colorGrid => inr colorGrid
      end
  | Num.PosInfinity => inl RangeError
  | Num.NaN | Num.NegInfinity => inr []
  end.

(** [colorGridToIndexedPixels] for the block size of the branch.  With a
    block size that is not finite the grid is checked first; then
    [new Uint8Array] gets [NaN], makes an empty array that the loops leave
    alone, or gets an infinity and throws. *)
Definition indexFrame (colors : list (list string)) (pixelSize : Num.t)
    (colorIndexMap : gmap string nat) (fallbackIndex : nat)
    : Exception + list Z :=
  match pixelSize with
  | Num.Int k =>
      match Palette.colorGridToIndexedPixels colors k colorIndexMap
              fallbackIndex with
      | inl message => inl (Error message)
      | inr indexedPixels => inr indexedPixels
      end
  | other =>
      if decide (length colors = 0%nat
                 \/ from_option length 0%nat (colors !! 0%nat) = 0%nat)
      then inl (Error "Color grid is empty.")
      else match other with
           | Num.NaN => inr []
           | _ => inl RangeError
           end
  end.

(** One call of [writer.addFrame], with the grid it was made from. *)
Record AddedFrame : Type := {
  quantizedGrid : list (list string);
  indexedPixels : list Z;
  delay : Z
}.

(** A loop whose body may throw: the first exception ends it. *)
Fixpoint forEach {S A : Type} (body : S -> A -> Exception + S) (l : list A)
    (s : S) : Exception + S :=
  match l with
  | [] => inr s
  | a :: rest =>
      match body s a with
      | inl e => inl e
      | inr s' => forEach body rest s'
      end
  end.

(** What [finalize] gets, and what led to it: the block size used, the
    logical screen, global palette and loop count given to the writer, the
    frames added in order, the byte length [end()] gave, the grid kept for
    the vector export, and the notice. *)
Record GifOutput : Type := {
  safePixelSize : Num.t;
  finalWidth : Num.t;
  finalHeight : Num.t;
  palette : list Z;
  loop : Z;
  added : list AddedFrame;
  byteLength : Z;
  firstVector : option (list (list string));
  notice : string
}.

(** [a] is the call of [addFrame] that the callback makes for [frame]. *)
Definition addedFor (sourceWidth sourceHeight sampleWidth : Z)
    (sampleHeight safePixelSize : Num.t)
    (paletteData : list Quantizer.PaletteEntry)
    (colorIndexMap : gmap string nat) (fallbackIndex : nat)
    (frame : list Z * Z) (a : AddedFrame) : Prop :=
  quantizeFrame frame.1 sourceWidth sourceHeight sampleWidth sampleHeight
    paletteData = inr (quantizedGrid a) /\
  indexFrame (quantizedGrid a) safePixelSize colorIndexMap fallbackIndex
  = inr (indexedPixels a) /\
  delay a = FrameDelay.clampFrameDelay (FrameDelay.Finite (inject_Z frame.2)).

Section WithWriter.
Context {W : Type} (gifWriter : GifWriter W).

(** The variables of the [forEach] callback: the writer, [firstVector] and
    the calls of [addFrame] so far. *)
Record LoopState : Type := {
  writer : W;
  vector : option (list (list string));
  calls : list AddedFrame
}.

(** The callback of [sourceGif.frames.forEach]; [frame] is the content of
    [frame.pixels] with [frame.delay]. *)
Definition frameBody (sourceWidth sourceHeight sampleWidth : Z)
    (sampleHeight safePixelSize finalWidth finalHeight : Num.t)
    (paletteData : list Quantizer.PaletteEntry)
    (colorIndexMap : gmap string nat) (fallbackIndex : nat)
    (st : LoopState) (frame : list Z * Z) : Exception + LoopState :=
  match quantizeFrame frame.1 sourceWidth sourceHeight sampleWidth
          sampleHeight paletteData with
  | inl e => inl e
  | inr quantizedGrid =>
      let firstVector :=
        match vector st with
        | None => Some quantizedGrid
        | Some v => Some v
        end in
      match indexFrame quantizedGrid safePixelSize colorIndexMap
              fallbackIndex with
      | inl e => inl e
      | inr pixels =>
          let d :=
            FrameDelay.clampFrameDelay
              (FrameDelay.Finite (inject_Z frame.2)) in
          match addFrame gifWriter (writer st) finalWidth finalHeight
                  pixels d with
          | None => inl WriterError
          | Some writer' =>
              inr {| writer := writer';
                     vector := firstVector;
                     calls :=
                       calls st
                       ++ [{| quantizedGrid := quantizedGrid;
                              indexedPixels := pixels;
                              delay := d |}] |}
          end
      end
  end.

(** The [try] block of the animated branch, up to the arguments of
    [finalize].  [frames] are the frames of [sourceGif], [resolution] and
    [pixelSize] the settings. *)
Definition encodeGif (hexToRgb : string -> Palette.RGB)
    (frames : list (list Z * Z)) (loopCount : option FrameDelay.number)
    (sourceWidth sourceHeight resolution pixelSize : Z)
    (paletteData : list Quantizer.PaletteEntry) : Exception + GifOutput :=
  let frameCount := length frames in
  if decide (frameCount = 0%nat)
  then inl (Error "GIF contains no valid frames.")
  else
    let sw := sampleWidth resolution in
    let sh := sampleHeight sourceWidth sourceHeight resolution in
    let k :=
      SizeBudget.getSafeGifPixelSize (Num.Int sw) sh
        (Num.Int (Z.of_nat frameCount)) (Num.Int pixelSize) in
    let paletteHex := Quantizer.hex <$> paletteData in
    let lookup := Palette.buildPaletteLookup hexToRgb paletteHex in
    let fw := Num.mul (Num.Int sw) k in
    let fh := Num.mul sh k in
    match typedArrayLength
            (Num.mul (Num.mul (Num.mul fw fh)
                               (Num.Int (Z.of_nat frameCount)))
                     (Num.Int 5)) with
    | inl e => inl e
    | inr bufferLength =>
        let lc := LoopCount.normalizeLoopCount loopCount in
        match construct gifWriter bufferLength fw fh
                (Palette.paletteColors lookup) lc with
        | None => inl WriterError
        | Some writer0 =>
            match forEach
                    (frameBody sourceWidth sourceHeight sw sh k fw fh
                       paletteData (Palette.colorIndexMap lookup)
                       (Palette.fallbackIndex lookup))
                    frames
                    {| writer := writer0; vector := None; calls := [] |}
            with
            | inl e => inl e
            | inr st =>
                match finish gifWriter (writer st) with
                | None => inl WriterError
                | Some n =>
                    inr {| safePixelSize := k;
                           finalWidth := fw;
                           finalHeight := fh;
                           palette := Palette.paletteColors lookup;
                           loop := lc;
                           added := calls st;
                           byteLength := n;
                           firstVector := vector st;
                           notice :=
                             if Num.lt k (Num.Int pixelSize)
                             then "GIF output is large; pixel size was reduced automatically."
                             else EmptyString |}
                end
            end
        end
    end.

End WithWriter.

(** Test data: a writer that accepts everything and writes nothing, two
    1x1 frames, the first nearly black and the second nearly white, the
    second with delay 0, and the colors of the two-color palette. *)
Definition nullWriter : GifWriter unit :=
  {| construct := fun _ _ _ _ _ => Some tt;
     addFrame := fun _ _ _ _ _ => Some tt;
     finish := fun _ => Some 0 |}.

Definition twoDots : list (list Z * Z) :=
  [([10; 10; 10; 255], 4); ([250; 250; 250; 255], 0)].

Definition greyRgb (hex : string) : Palette.RGB :=
  if decide (hex = "#000000")
  then {| Palette.r := 0; Palette.g := 0; Palette.b := 0 |}
  else {| Palette.r := 255; Palette.g := 255; Palette.b := 255 |}.

End GifPath.

(** ** The still-image quantizer *)

Module StillQuantizer.

(** A store into a [Uint8ClampedArray]: the value is clamped to 0..255 (the
    color components are integers, nothing is rounded), and a store outside
    the array is ignored. *)
Definition storeClamped (buf : list Z) (i v : Z) : list Z :=
  if i <? 0 then buf else <[Z.to_nat i := Z.max 0 (Z.min 255 v)]> buf.

(** [colorGrid[y][x] = hex].  A slot of [new Array(sampleWidth)] that was
    never assigned is [None]; the loop bounds keep [y] and [x] inside the
    grid. *)
Definition setCell (grid : list (list (option string))) (y x : Z)
    (hex : string) : list (list (option string)) :=
  alter (fun row => <[Z.to_nat x := Some hex]> row) (Z.to_nat y) grid.

(** A [for] loop whose body may throw: the state is threaded through the
    rounds, and the first exception ends the loop. *)
Fixpoint forEach {S A : Type} (body : S -> A -> option S) (l : list A)
    (s : S) : option S :=
  match l with
  | [] => Some s
  | a :: rest => s' ← body s a; forEach body rest s'
  end.

Record LoopState : Type := {
  quantized : list Z;
  colorGrid : list (list (option string))
}.

(** [closest] after the palette loop, for the pixel at [index] of [data]. *)
Definition closestAt (data : list Z)
    (paletteData : list Quantizer.PaletteEntry) (index : Z)
    : option Quantizer.PaletteEntry :=
  let r := Quantizer.readByte data index in
  let g := Quantizer.readByte data (index + 1) in
  let b := Quantizer.readByte data (index + 2) in
  Quantizer.nearestEntry paletteData r g b.

(** The body of the inner loop.  [None] is the [TypeError] of [closest.rgb]
    on an empty palette. *)
Definition cellBody (data : list Z) (sampleWidth : Z)
    (paletteData : list Quantizer.PaletteEntry) (st : LoopState) (y x : Z)
    : option LoopState :=
  let index := (y * sampleWidth + x) * 4 in
  closest ← closestAt data paletteData index;
  let q1 :=
    storeClamped (quantized st) index (Palette.r (Quantizer.rgb closest)) in
  let q2 :=
    storeClamped q1 (index + 1) (Palette.g (Quantizer.rgb closest)) in
  let q3 :=
    storeClamped q2 (index + 2) (Palette.b (Quantizer.rgb closest)) in
  let q4 := storeClamped q3 (index + 3) 255 in
  Some {| quantized := q4;
          colorGrid := setCell (colorGrid st) y x (Quantizer.hex closest) |}.

(** The two nested loops of [quantizeSampleCanvas], from the zero-filled
    [quantized] and the grid of unassigned slots. *)
Definition quantizeLoops (data : list Z) (sampleWidth sampleHeight : Z)
    (paletteData : list Quantizer.PaletteEntry) : option LoopState :=
  let st0 :=
    {| quantized := replicate (length data) 0;
       colorGrid := replicate (Z.to_nat sampleHeight)
                      (replicate (Z.to_nat sampleWidth) None) |} in
  forEach (fun st y =>
             forEach (fun st' x =>
                        cellBody data sampleWidth paletteData st' y x)
                     (seqZ 0 sampleWidth) st)
          (seqZ 0 sampleHeight) st0.

(** What [quantizeSampleCanvas] can throw: the [RangeError] of an invalid
    array length, the [TypeError] of [closest.rgb] on an empty palette, the
    exception of the [ImageData] constructor, and its own [Error]. *)
Inductive Exception : Type :=
| RangeError
| TypeError
| DOMException
| Error (message : string).

(** [new ImageData(quantized, sampleWidth, sampleHeight)] throws unless the
    array holds the four bytes of each of [sampleWidth] by [sampleHeight]
    pixels and there is at least one pixel. *)
Definition imageDataFits (len : nat) (sampleWidth sampleHeight : Z) : bool :=
  (0 <? sampleWidth) && (0 <? sampleHeight)
  && (Z.of_nat len =? sampleWidth * sampleHeight * 4).

(** The canvas made for the export, with the values assigned to its
    [width] and [height]. *)
Module OutputCanvas.
Record t : Type := {
  width : Z;
  height : Z
}.
End OutputCanvas.

(** The object [quantizeSampleCanvas] returns; [outputCanvas] is [None] for
    [null]. *)
Module Result.
Record t : Type := {
  colorGrid : list (list (option string));
  sampleWidth : Z;
  sampleHeight : Z;
  outputCanvas : option OutputCanvas.t
}.
End Result.

(** A call of [quantizeSampleCanvas]: the buffer given to
    [sampleCtx.putImageData], if the call got that far, and what it returned
    or threw. *)
Record Run : Type := {
  painted : option (list Z);
  outcome : Exception + Result.t
}.

(** [quantizeSampleCanvas], from the [data] that [getImageData] returned
    for the [sampleWidth] by [sampleHeight] canvas.  [outputCtx] tells
    whether [outputCanvas.getContext("2d")] gives a context or [null].  The
    arrays are created as in [quantizeFramePixels].  What [drawImage] draws
    on the output canvas is not modelled. *)
Definition quantizeSampleCanvas (data : list Z) (sampleWidth sampleHeight : Z)
    (paletteData : list Quantizer.PaletteEntry) (pixelSize : Z)
    (includeOutputCanvas outputCtx : bool) : Run :=
  if 2 ^ 32 <=? sampleHeight
  then {| painted := None; outcome := inl RangeError |}
  else if (0 <? sampleHeight)
          && negb (Quantizer.validArrayLength sampleWidth)
  then {| painted := None; outcome := inl RangeError |}
  else
    match quantizeLoops data sampleWidth sampleHeight paletteData with
    | None => {| painted := None; outcome := inl TypeError |}
    | Some st =>
        if negb (imageDataFits (length (quantized st))
                   sampleWidth sampleHeight)
        then {| painted := None; outcome := inl DOMException |}
        else
          {| painted := Some (quantized st);
             outcome :=
               if includeOutputCanvas then
                 if outputCtx then
                   inr {| Result.colorGrid := colorGrid st;
                          Result.sampleWidth := sampleWidth;
                          Result.sampleHeight := sampleHeight;
                          Result.outputCanvas :=
                            Some {| OutputCanvas.width :=
                                      sampleWidth * pixelSize;
                                    OutputCanvas.height :=
                                      sampleHeight * pixelSize |} |}
                 else inl (Error "Unable to create export canvas.")
               else
                 inr {| Result.colorGrid := colorGrid st;
                        Result.sampleWidth := sampleWidth;
                        Result.sampleHeight := sampleHeight;
                        Result.outputCanvas := None |} |}
    end.

(** The four bytes the loop body stores for a cell whose color is
    [closest]. *)
Definition cellBytes (closest : Quantizer.PaletteEntry) : list Z :=
  [Z.max 0 (Z.min 255 (Palette.r (Quantizer.rgb closest)));
   Z.max 0 (Z.min 255 (Palette.g (Quantizer.rgb closest)));
   Z.max 0 (Z.min 255 (Palette.b (Quantizer.rgb closest)));
   255].

(** The cells of the grid in the order the loops visit them. *)
Definition cells (sampleWidth sampleHeight : Z) : list (Z * Z) :=
  seqZ 0 sampleHeight ≫= fun y => (fun x => (y, x)) <$> seqZ 0 sampleWidth.

(** The state of the loops after the cells of [done_]. *)
Definition stillInv (data : list Z) (w h : Z)
    (paletteData : list Quantizer.PaletteEntry) (done_ : list (Z * Z))
    (st : LoopState) : Prop :=
  length (quantized st) = length data /\
  length (colorGrid st) = Z.to_nat h /\
  Forall (fun row => length row = Z.to_nat w) (colorGrid st) /\
  forall y x, (y, x) ∈ done_ ->
    (0 <= y < h /\ 0 <= x < w) /\
    exists e, closestAt data paletteData ((y * w + x) * 4) = Some e /\
      e ∈ paletteData /\
      colorGrid st !! Z.to_nat y ≫= (.!! Z.to_nat x)
      = Some (Some (Quantizer.hex e)) /\
      forall c : nat, (c < 4)%nat ->
        (y * w + x) * 4 + Z.of_nat c < Z.of_nat (length data) ->
        quantized st !! Z.to_nat ((y * w + x) * 4 + Z.of_nat c)
        = cellBytes e !! c.

(** Test data: a 2x1 canvas, nearly black then nearly white, both
    half-transparent. *)
Definition twoPixels : list Z := [10; 10; 10; 128; 250; 250; 250; 128].

End StillQuantizer.

(** * Properties *)

Section DoubleFacts.
Import Double.

Lemma pow2_pos (e : Z) : (0 < pow2 e)%Q.
Proof. apply Qpower_0_lt. reflexivity. Qed.

Lemma pow2_add (a b : Z) : (pow2 (a + b) == pow2 a * pow2 b)%Q.
Proof. apply Qpower_plus. discriminate. Qed.

Lemma pow2_le (a b : Z) : a <= b -> (pow2 a <= pow2 b)%Q.
Proof. intros H. apply Qpower_le_compat_l; [exact H|]. discriminate. Qed.

Lemma pow2_Z (e : Z) : 0 <= e -> (pow2 e == inject_Z (2 ^ e))%Q.
Proof. intros H. symmetry. apply (Zpower_Qpower 2 e H). Qed.

Lemma pow2_succ (e : Z) : (pow2 (e + 1) == 2 * pow2 e)%Q.
Proof. rewrite pow2_add. change (pow2 1) with 2%Q. ring. Qed.

Lemma ilog2_spec (a : Q) :
  (0 < a)%Q -> (pow2 (ilog2 a) <= a /\ a < pow2 (ilog2 a + 1))%Q.
Proof.
  intros Ha. destruct a as [N D].
  assert (HN : 0 < N).
  { unfold Qlt in Ha. cbn in Ha. lia. }
  set (k := Z.log2 N). set (j := Z.log2 (Zpos D)).
  assert (Hk : 2 ^ k <= N < 2 ^ (k + 1)).
  { pose proof (Z.log2_spec N HN). subst k. replace (Z.log2 N + 1)
      with (Z.succ (Z.log2 N)) by lia. lia. }
  assert (Hj : 2 ^ j <= Zpos D < 2 ^ (j + 1)).
  { pose proof (Z.log2_spec (Zpos D) ltac:(lia)). subst j.
    replace (Z.log2 (Zpos D) + 1) with (Z.succ (Z.log2 (Zpos D))) by lia.
    lia. }
  assert (Hk0 : 0 <= k) by apply Z.log2_nonneg.
  assert (Hj0 : 0 <= j) by apply Z.log2_nonneg.
  assert (HaD : ((N # D) * inject_Z (Zpos D) == inject_Z N)%Q).
  { unfold Qeq, Qmult, inject_Z. cbn. lia. }
  assert (HDq : (pow2 j <= inject_Z (Zpos D)
                 /\ inject_Z (Zpos D) < pow2 (j + 1))%Q).
  { rewrite !pow2_Z by lia. rewrite <- Zle_Qle, <- Zlt_Qlt. lia. }
  assert (HNq : (pow2 k <= inject_Z N /\ inject_Z N < pow2 (k + 1))%Q).
  { rewrite !pow2_Z by lia. rewrite <- Zle_Qle, <- Zlt_Qlt. lia. }
  pose proof (pow2_pos j) as Hpj. pose proof (pow2_pos k) as Hpk.
  pose proof (pow2_pos (k - j)) as Hpe.
  assert (He : (pow2 k == pow2 (k - j) * pow2 j)%Q).
  { rewrite <- pow2_add. by replace (k - j + j) with k by lia. }
  rewrite !pow2_succ in *.
  assert (Hlow : (pow2 (k - j - 1) <= N # D)%Q).
  { assert (Hh : (pow2 (k - j) == 2 * pow2 (k - j - 1))%Q).
    { rewrite <- pow2_succ. by replace (k - j - 1 + 1) with (k - j) by lia. }
    pose proof (pow2_pos (k - j - 1)).
    set (P := pow2 (k - j - 1)) in *. set (E := pow2 (k - j)) in *.
    set (J := pow2 j) in *. set (K := pow2 k) in *.
    set (d := inject_Z (Zpos D)) in *. set (n := inject_Z N) in *.
    set (a := (N # D)%Q) in *.
    destruct HDq, HNq. nra. }
  assert (Hhigh : (N # D < 2 * pow2 (k - j))%Q).
  { set (E := pow2 (k - j)) in *.
    set (J := pow2 j) in *. set (K := pow2 k) in *.
    set (d := inject_Z (Zpos D)) in *. set (n := inject_Z N) in *.
    set (a := (N # D)%Q) in *.
    destruct HDq, HNq. nra. }
  unfold ilog2. cbn [Qnum Qden]. fold k j.
  destruct (Qle_bool (pow2 (k - j)) (N # D)) eqn:Hb.
  - apply Qle_bool_iff in Hb. split; [exact Hb|exact Hhigh].
  - assert (Hlt : (N # D < pow2 (k - j))%Q).
    { apply Qnot_le_lt. intros Hle. apply Qle_bool_iff in Hle. congruence. }
    split; [exact Hlow|].
    assert (Hh : (pow2 (k - j) == 2 * pow2 (k - j - 1))%Q).
    { rewrite <- pow2_succ. by replace (k - j - 1 + 1) with (k - j) by lia. }
    lra.
Qed.

Lemma roundHalfEven_spec (x : Q) :
  (x - (1 # 2) <= inject_Z (roundHalfEven x)
   /\ inject_Z (roundHalfEven x) <= x + (1 # 2))%Q.
Proof.
  unfold roundHalfEven.
  pose proof (Qfloor_le x) as Hlo. pose proof (Qlt_floor x) as Hhi.
  set (f := Qfloor x) in *.
  assert (Hf1 : (inject_Z (f + 1) == inject_Z f + 1)%Q)
    by (rewrite inject_Z_plus; reflexivity).
  rewrite Hf1 in Hhi.
  destruct (x - inject_Z f ?= 1 # 2)%Q eqn:Hc.
  - apply Qeq_alt in Hc. destruct (Z.even f); rewrite ?Hf1; lra.
  - apply Qlt_alt in Hc. lra.
  - apply Qgt_alt in Hc. rewrite Hf1. lra.
Qed.

Lemma roundHalfEven_Z (x : Q) (n : Z) :
  (x == inject_Z n)%Q -> roundHalfEven x = n.
Proof.
  intros Hx. unfold roundHalfEven.
  assert (Hf : Qfloor x = n) by (rewrite Hx; apply Qfloor_Z).
  rewrite Hf.
  destruct (x - inject_Z n ?= 1 # 2)%Q eqn:Hc; [|done|].
  - apply Qeq_alt in Hc. lra.
  - apply Qgt_alt in Hc. lra.
Qed.

Lemma Qabs_pos_eq (q : Q) : (0 <= q)%Q -> Qabs q = q.
Proof.
  destruct q as [N D]. unfold Qle. cbn. intros H.
  rewrite Z.abs_eq by lia. reflexivity.
Qed.

(** What [round64] does to a positive number: the significand [m] is the
    scaled value rounded to an integer. *)
Lemma round64_pos (q : Q) :
  (0 < q)%Q ->
  let e := Z.max (ilog2 q - 52) (-1074) in
  let m := roundHalfEven (q / pow2 e) in
  (round64 q = FrameDelay.PosInfinity
   /\ (pow2 1024 <= inject_Z m * pow2 e)%Q)
  \/ exists r, round64 q = FrameDelay.Finite r
               /\ (r == inject_Z m * pow2 e)%Q
               /\ (inject_Z m * pow2 e < pow2 1024)%Q.
Proof.
  intros Hq e m. unfold round64.
  assert (Hne : Qeq_bool q 0 = false).
  { destruct (Qeq_bool q 0) eqn:Hb; [|done].
    apply Qeq_bool_iff in Hb. lra. }
  rewrite Hne, (Qabs_pos_eq q) by lra.
  assert (Hq0 : Qle_bool 0 q = true) by (apply Qle_bool_iff; lra).
  rewrite Hq0. cbv zeta. fold e m.
  pose proof (Qred_correct (inject_Z m * pow2 e)) as Hred.
  destruct (Qle_bool (pow2 1024) (Qred (inject_Z m * pow2 e))) eqn:Hb.
  - left. split; [done|]. apply Qle_bool_iff in Hb. lra.
  - right. eexists. split; [reflexivity|]. split; [exact Hred|].
    apply Qnot_le_lt. intros Hle.
    assert (Qle_bool (pow2 1024) (Qred (inject_Z m * pow2 e)) = true)
      by (apply Qle_bool_iff; lra).
    congruence.
Qed.

(** Integers up to [2 ^ 53] are doubles. *)
Lemma round64_Z (z : Z) :
  0 <= z <= 2 ^ 53 ->
  exists r, round64 (inject_Z z) = FrameDelay.Finite r
            /\ (r == inject_Z z)%Q.
Proof.
  intros Hz.
  destruct (decide (z = 0)) as [->|Hnz].
  { exists 0%Q. split; [reflexivity|reflexivity]. }
  assert (Hq : (0 < inject_Z z)%Q).
  { change 0%Q with (inject_Z 0). rewrite <- Zlt_Qlt. lia. }
  pose proof (round64_pos (inject_Z z) Hq) as Hr. cbv zeta in Hr.
  pose proof (ilog2_spec (inject_Z z) Hq) as [Hlo Hhi].
  set (l := ilog2 (inject_Z z)) in *.
  assert (Hl : 0 <= l <= 53).
  { split.
    - destruct (Z_lt_le_dec l 0) as [Hneg|]; [|lia]. exfalso.
      assert (l + 1 <= 0) by lia.
      pose proof (pow2_le (l + 1) 0 ltac:(lia)) as Hp.
      change (pow2 0) with 1%Q in Hp.
      assert ((inject_Z z < 1)%Q) by lra.
      change 1%Q with (inject_Z 1) in H0. rewrite <- Zlt_Qlt in H0. lia.
    - destruct (Z_lt_le_dec 53 l) as [Hbig|]; [|lia]. exfalso.
      pose proof (pow2_le 54 l ltac:(lia)) as Hp.
      rewrite (pow2_Z 54) in Hp by lia.
      assert ((inject_Z (2 ^ 54) <= inject_Z z)%Q) by lra.
      rewrite <- Zle_Qle in H. lia. }
  rewrite Z.max_l in Hr by lia.
  set (e := l - 52) in *.
  (* z / 2^e is an integer *)
  assert (Hint : exists n : Z, (inject_Z z / pow2 e == inject_Z n)%Q
                               /\ (inject_Z n * pow2 e == inject_Z z)%Q).
  { destruct (Z_le_gt_dec e 0) as [Hneg|Hpos].
    - exists (z * 2 ^ (- e)).
      assert (Hopp : (pow2 (- e) == / pow2 e)%Q) by apply Qpower_opp.
      pose proof (pow2_pos e).
      rewrite inject_Z_mult, <- (pow2_Z (- e)) by lia.
      split.
      + unfold Qdiv. by rewrite Hopp.
      + rewrite Hopp. field. lra.
    - assert (e = 1) by lia.
      assert (z = 2 ^ 53).
      { assert (l = 53) by lia.
        assert ((pow2 53 <= inject_Z z)%Q) by (by replace 53 with l).
        rewrite (pow2_Z 53) in H1 by lia. rewrite <- Zle_Qle in H1. lia. }
      subst z. exists (2 ^ 52). rewrite H.
      change (pow2 1) with 2%Q. split.
      +         change (inject_Z (2 ^ 53)) with (inject_Z (2 * 2 ^ 52)).
        rewrite inject_Z_mult. field.
      + change (inject_Z (2 ^ 53)) with (inject_Z (2 * 2 ^ 52)).
        rewrite inject_Z_mult. change (inject_Z 2) with 2%Q. ring. }
  destruct Hint as (n & Hn & Hback).
  rewrite (roundHalfEven_Z _ n Hn) in Hr.
  destruct Hr as [[_ Hover]|(r & Hr & Hreq & _)].
  - exfalso. rewrite Hback in Hover. rewrite (pow2_Z 1024) in Hover by lia.
    rewrite <- Zle_Qle in Hover.
    assert (2 ^ 53 < 2 ^ 1024) by (apply Z.pow_lt_mono_r; lia). lia.
  - exists r. split; [exact Hr|]. by rewrite Hreq.
Qed.

Lemma ilog2_ge (q : Q) (k : Z) :
  (pow2 k <= q)%Q -> k <= ilog2 q.
Proof.
  intros Hk. pose proof (pow2_pos k).
  destruct (ilog2_spec q ltac:(lra)) as [_ Hhi].
  destruct (Z_lt_le_dec (ilog2 q) k) as [Hlt|]; [|lia]. exfalso.
  pose proof (pow2_le (ilog2 q + 1) k ltac:(lia)). lra.
Qed.

(** In the normal range rounding keeps the binade and moves the value by
    at most half a unit in the last place. *)
Lemma round64_normal (q : Q) :
  (pow2 (-1022) <= q)%Q ->
  round64 q = FrameDelay.PosInfinity
  \/ exists r, round64 q = FrameDelay.Finite r
               /\ (pow2 (ilog2 q) <= r)%Q
               /\ (q - q * pow2 (-53) <= r /\ r <= q + q * pow2 (-53))%Q.
Proof.
  intros Hn. pose proof (pow2_pos (-1022)) as Hp.
  assert (Hq : (0 < q)%Q) by lra.
  pose proof (ilog2_ge q (-1022) Hn) as Hl.
  destruct (ilog2_spec q Hq) as [Hlo Hhi].
  pose proof (round64_pos q Hq) as Hr. cbv zeta in Hr.
  rewrite Z.max_l in Hr by lia.
  set (l := ilog2 q) in *. set (e := l - 52) in *.
  pose proof (roundHalfEven_spec (q / pow2 e)) as [Hm1 Hm2].
  set (m := roundHalfEven (q / pow2 e)) in *.
  pose proof (pow2_pos e) as He.
  assert (Hle : (pow2 l == pow2 52 * pow2 e)%Q).
  { rewrite <- pow2_add. by replace (52 + e) with l by (subst e; lia). }
  assert (Hh : (pow2 e == 2 * (pow2 l * pow2 (-53)))%Q).
  { rewrite <- pow2_add, <- pow2_succ. by replace (l + -53 + 1) with e
      by (subst e; lia). }
  assert (Hx : (q / pow2 e * pow2 e == q)%Q) by (field; lra).
  set (x := (q / pow2 e)%Q) in *.
  assert (Hx52 : (pow2 52 <= x)%Q).
  { apply Qmult_le_r with (z := pow2 e); [exact He|]. lra. }
  assert (Hm52 : (pow2 52 <= inject_Z m)%Q).
  { rewrite (pow2_Z 52) in * by lia.
    assert (Hz : 2 ^ 52 - 1 < m).
    { rewrite Zlt_Qlt. unfold Z.sub. rewrite inject_Z_plus.
      change (inject_Z (- (1))) with (-1)%Q. lra. }
    rewrite <- Zle_Qle. lia. }
  destruct Hr as [[Hinf _]|(r & Hr & Hreq & _)]; [by left|right].
  exists r. split; [exact Hr|]. rewrite Hreq.
  pose proof (pow2_pos l). pose proof (pow2_pos (-53)).
  set (P := pow2 e) in *. set (L := pow2 l) in *. set (T := pow2 (-53)) in *.
  set (M := inject_Z m) in *. set (C := pow2 52) in *.
  split; [nra|]. split; nra.
Qed.

(** Below [2 ^ 1023] a number in the normal range rounds to a double. *)
Lemma round64_normal_finite (q : Q) :
  (pow2 (-1022) <= q)%Q -> (q <= pow2 1023)%Q ->
  exists r, round64 q = FrameDelay.Finite r
            /\ (pow2 (ilog2 q) <= r)%Q
            /\ (q - q * pow2 (-53) <= r /\ r <= q + q * pow2 (-53))%Q.
Proof.
  intros Hn Hb. pose proof (pow2_pos (-1022)) as Hp.
  assert (Hq : (0 < q)%Q) by lra.
  destruct (round64_normal q Hn) as [Hinf|Hfin]; [|exact Hfin].
  exfalso.
  pose proof (round64_pos q Hq) as Hr. cbv zeta in Hr.
  destruct Hr as [[_ Hover]|(r & Hr & _)]; [|congruence].
  pose proof (ilog2_ge q (-1022) Hn) as Hl.
  rewrite Z.max_l in Hover by lia.
  destruct (ilog2_spec q Hq) as [Hlo Hhi].
  set (l := ilog2 q) in *. set (e := l - 52) in *.
  pose proof (roundHalfEven_spec (q / pow2 e)) as [Hm1 Hm2].
  set (m := roundHalfEven (q / pow2 e)) in *.
  pose proof (pow2_pos e) as He.
  assert (Hl1023 : l <= 1023).
  { destruct (Z_lt_le_dec 1023 l) as [Hbig|]; [|lia]. exfalso.
    pose proof (pow2_le 1024 l ltac:(lia)).
    pose proof (pow2_succ 1023) as Hs.
    change (1023 + 1) with 1024 in Hs.
    pose proof (pow2_pos 1023). lra. }
  assert (Hx : (q / pow2 e * pow2 e == q)%Q) by (field; lra).
  assert (He971 : (pow2 e <= pow2 971)%Q) by (apply pow2_le; subst e; lia).
  assert (H1024 : (pow2 1024 == 2 * pow2 1023)%Q) by apply (pow2_succ 1023).
  assert (H1023 : (pow2 971 * pow2 52 == pow2 1023)%Q).
  { rewrite <- pow2_add. reflexivity. }
  pose proof (pow2_pos 971). pose proof (pow2_pos 1023).
  assert (H52 : (2 <= pow2 52)%Q).
  { rewrite (pow2_Z 52) by lia. change 2%Q with (inject_Z 2).
    rewrite <- Zle_Qle. lia. }
  set (x := (q / pow2 e)%Q) in *.
  set (P := pow2 e) in *. set (M := inject_Z m) in *.
  set (A := pow2 971) in *. set (B := pow2 1023) in *.
  set (C := pow2 52) in *. set (D := pow2 1024) in *.
  assert ((M * P <= q + P * (1 # 2))%Q) by nra.
  nra.
Qed.

Lemma round64_not_NaN (q : Q) : round64 q <> FrameDelay.NaN.
Proof. unfold round64. repeat case_match; discriminate. Qed.


Lemma round64_opp (q : Q) :
  (0 < q)%Q ->
  round64 (- q)
  = match round64 q with
    | FrameDelay.Finite r => FrameDelay.Finite (- r)
    | FrameDelay.PosInfinity => FrameDelay.NegInfinity
    | other => other
    end.
Proof.
  intros Hq. unfold round64.
  assert (Hne : Qeq_bool q 0 = false).
  { destruct (Qeq_bool q 0) eqn:Hb; [|done].
    apply Qeq_bool_iff in Hb. lra. }
  assert (Hne' : Qeq_bool (- q) 0 = false).
  { destruct (Qeq_bool (- q) 0) eqn:Hb; [|done].
    apply Qeq_bool_iff in Hb. lra. }
  rewrite Hne, Hne'.
  assert (Habs : Qabs (- q) = Qabs q).
  { destruct q as [N D]. unfold Qabs, Qopp. cbn. by rewrite Z.abs_opp. }
  rewrite Habs.
  assert (Hq0 : Qle_bool 0 q = true) by (apply Qle_bool_iff; lra).
  assert (Hq1 : Qle_bool 0 (- q) = false).
  { destruct (Qle_bool 0 (- q)) eqn:Hb; [|done].
    apply Qle_bool_iff in Hb. lra. }
  rewrite Hq0, Hq1. cbv zeta. by case_match.
Qed.

End DoubleFacts.

Section NumFacts.

Lemma ofZ_small (z : Z) : - 2 ^ 53 <= z <= 2 ^ 53 -> Num.ofZ z = Num.Int z.
Proof.
  intros Hz. unfold Num.ofZ, Double.ofZ.
  destruct (Z_le_gt_dec 0 z) as [Hpos|Hneg].
  - destruct (round64_Z z ltac:(lia)) as (r & -> & Hr).
    cbn [Num.floor]. by rewrite Hr, Qfloor_Z.
  - replace z with (- - z) by lia. rewrite inject_Z_opp.
    destruct (round64_Z (- z) ltac:(lia)) as (r & Hr & Hreq).
    rewrite round64_opp, Hr.
    + cbn [Num.floor]. by rewrite Hreq, <- inject_Z_opp, Qfloor_Z.
    + change 0%Q with (inject_Z 0). rewrite <- Zlt_Qlt. lia.
Qed.

Lemma ofZ_large (z : Z) :
  2 ^ 53 <= z ->
  Num.ofZ z = Num.PosInfinity
  \/ exists z', Num.ofZ z = Num.Int z' /\ 2 ^ 53 <= z'.
Proof.
  intros Hz. unfold Num.ofZ, Double.ofZ.
  assert (Hq : (Double.pow2 53 <= inject_Z z)%Q).
  { rewrite (pow2_Z 53) by lia. by rewrite <- Zle_Qle. }
  destruct (round64_normal (inject_Z z)) as [->|(r & -> & Hr & _)].
  { pose proof (pow2_le (-1022) 53 ltac:(lia)). lra. }
  - by left.
  - right. exists (Qfloor r). split; [done|].
    pose proof (ilog2_ge _ 53 Hq) as Hl.
    pose proof (pow2_le 53 _ Hl) as Hp.
    rewrite (pow2_Z 53) in Hp by lia.
    assert (Hle : (inject_Z (2 ^ 53) <= r)%Q) by lra.
    apply Qfloor_resp_le in Hle. by rewrite Qfloor_Z in Hle.
Qed.

Lemma ofZ_large_neg (z : Z) :
  z <= - 2 ^ 53 ->
  Num.ofZ z = Num.NegInfinity
  \/ exists z', Num.ofZ z = Num.Int z' /\ z' <= - 2 ^ 53.
Proof.
  intros Hz. unfold Num.ofZ, Double.ofZ.
  replace z with (- - z) by lia. rewrite inject_Z_opp.
  assert (Hq : (Double.pow2 53 <= inject_Z (- z))%Q).
  { rewrite (pow2_Z 53) by lia. rewrite <- Zle_Qle. lia. }
  rewrite round64_opp.
  2:{ pose proof (pow2_pos 53). lra. }
  destruct (round64_normal (inject_Z (- z))) as [->|(r & -> & Hr & _)].
  { pose proof (pow2_le (-1022) 53 ltac:(lia)). lra. }
  - by left.
  - right. exists (Qfloor (- r)). split; [done|].
    pose proof (ilog2_ge _ 53 Hq) as Hl.
    pose proof (pow2_le 53 _ Hl) as Hp.
    rewrite (pow2_Z 53) in Hp by lia.
    assert (Hle : (- r <= inject_Z (- 2 ^ 53))%Q).
    { rewrite inject_Z_opp. lra. }
    apply Qfloor_resp_le in Hle. by rewrite Qfloor_Z in Hle.
Qed.

End NumFacts.

Section SizeBudgetFacts.
Import SizeBudget.

Lemma floor_sqrt_div_big (n : Z) :
  MAX_GIF_PIXELS < n -> floor_sqrt_div MAX_GIF_PIXELS n = 0.
Proof.
  intros Hn. unfold floor_sqrt_div, MAX_GIF_PIXELS in *.
  rewrite Z.div_small by lia. reflexivity.
Qed.

(** On integers the solver is [integerSize], unless the product of the two
    dimensions overflows. *)
Lemma getSafeGifPixelSize_Int (w h fc d : Z) :
  getSafeGifPixelSize (Num.Int w) (Num.Int h) (Num.Int fc) (Num.Int d)
  = Num.Int (if Num.isFinite (Num.mul (Num.Int w) (Num.Int h))
             then integerSize w h fc d else Z.max 1 d).
Proof.
  assert (Hmax : forall a b, Num.max (Num.Int a) (Num.Int b)
                             = Num.Int (Z.max a b)).
  { intros a b. cbn. destruct (Z.leb_spec a b); f_equal; lia. }
  assert (Hmin : forall a b, Num.min (Num.Int a) (Num.Int b)
                             = Num.Int (Z.min a b)).
  { intros a b. cbn. destruct (Z.leb_spec a b); f_equal; lia. }
  assert (H53 : 4000000 < 2 ^ 53) by lia.
  unfold getSafeGifPixelSize, integerSize. cbv zeta.
  cbn [Num.mul].
  (* the product once both factors are positive *)
  assert (Hprod : forall a, 0 < a -> 0 < fc ->
            (let m := floorSqrtQuotient MAX_GIF_PIXELS
                        (Num.max (Num.mul (Num.Int a) (Num.Int fc))
                           (Num.Int 1)) in
             if negb (Num.isFinite m) || Num.le m (Num.Int 0)
             then Num.Int 1
             else Num.max (Num.Int 1) (Num.min (Num.Int d) m))
            = Num.Int (let m := floor_sqrt_div MAX_GIF_PIXELS
                                  (Z.max (a * fc) 1) in
                       if m <=? 0 then 1 else Z.max 1 (Z.min d m))).
  { intros a Ha Hfc. cbv zeta. cbn [Num.mul].
    assert (Hn : 1 <= a * fc) by nia.
    rewrite (Z.max_l (a * fc) 1) by lia.
    destruct (Z_le_gt_dec (a * fc) (2 ^ 53)) as [Hs|Hb].
    - rewrite ofZ_small by lia. rewrite Hmax, Z.max_l by lia.
      unfold floorSqrtQuotient.
      destruct (Z.eqb_spec (a * fc) 0); [lia|].
      destruct (Z.ltb_spec (a * fc) 0); [lia|].
      cbn [Num.isFinite negb orb Num.le].
      destruct (floor_sqrt_div MAX_GIF_PIXELS (a * fc) <=? 0); [done|].
      by rewrite Hmin, Hmax.
    - rewrite (floor_sqrt_div_big (a * fc))
        by (unfold MAX_GIF_PIXELS; lia).
      cbn [Z.leb Z.compare].
      destruct (ofZ_large (a * fc) ltac:(lia)) as [->|(n' & -> & Hn')].
      + reflexivity.
      + rewrite Hmax, Z.max_l by lia. unfold floorSqrtQuotient.
        destruct (Z.eqb_spec n' 0); [lia|].
        destruct (Z.ltb_spec n' 0); [lia|].
        rewrite floor_sqrt_div_big by (unfold MAX_GIF_PIXELS; lia).
        reflexivity. }
  destruct (Z_le_gt_dec (w * h) (2 ^ 53)) as [Hs|Hb];
    [destruct (Z_le_gt_dec (- 2 ^ 53) (w * h)) as [Hs'|Hb']|].
  - rewrite ofZ_small by lia. cbn [Num.isFinite negb Num.le orb].
    destruct (Z.leb_spec (w * h) 0) as [Ha|Ha]; cbn [orb]; [by rewrite Hmax|].
    destruct (Z.leb_spec fc 0) as [Hf|Hf]; cbn [orb]; [by rewrite Hmax|].
    apply (Hprod (w * h)); lia.
  - destruct (ofZ_large_neg (w * h) ltac:(lia)) as [->|(a' & -> & Ha')].
    + cbn [Num.isFinite negb Num.le orb]. by rewrite Hmax.
    + cbn [Num.isFinite negb Num.le orb].
      destruct (Z.leb_spec a' 0); [|lia].
      destruct (Z.leb_spec (w * h) 0); [|lia]. cbn [orb]. by rewrite Hmax.
  - destruct (ofZ_large (w * h) ltac:(lia)) as [->|(a' & -> & Ha')].
    + cbn [Num.isFinite negb Num.le orb]. by rewrite Hmax.
    + cbn [Num.isFinite negb Num.le orb].
      destruct (Z.leb_spec a' 0); [lia|].
      destruct (Z.leb_spec (w * h) 0); [lia|]. cbn [orb].
      destruct (Z.leb_spec fc 0) as [Hf|Hf]; [by rewrite Hmax|].
      pose proof (Hprod a' ltac:(lia) Hf) as Hp. cbv zeta in Hp.
      cbn [Num.mul] in Hp. cbn [Num.mul]. rewrite Hp. f_equal.
      rewrite !Z.max_l by nia.
      rewrite !floor_sqrt_div_big by (unfold MAX_GIF_PIXELS; nia).
      reflexivity.
Qed.

End SizeBudgetFacts.

Section IntegerSizeFacts.
Import SizeBudget.

Lemma floor_sqrt_div_spec (a b k : Z) :
  0 <= a -> 0 < b -> 0 <= k ->
  (k <= floor_sqrt_div a b <-> k * k * b <= a).
Proof.
  intros Ha Hb Hk. unfold floor_sqrt_div.
  assert (Hq : 0 <= a / b) by (apply Z.div_pos; lia).
  pose proof (Z.sqrt_spec (a / b) Hq) as [Hlo Hhi].
  pose proof (Z.sqrt_nonneg (a / b)) as Hs.
  pose proof (Z.mul_div_le a b Hb) as Hdm.
  pose proof (Z.mul_succ_div_gt a b Hb) as Hdm'.
  split; intros H.
  - assert (k * k <= a / b) by nia. nia.
  - assert (k * k <= a / b).
    { apply Z.div_le_lower_bound; lia. }
    nia.
Qed.

Lemma floor_sqrt_div_antitone (a b b' : Z) :
  0 <= a -> 0 < b -> b <= b' ->
  floor_sqrt_div a b' <= floor_sqrt_div a b.
Proof.
  intros Ha Hb Hbb. unfold floor_sqrt_div.
  apply Z.sqrt_le_mono. apply Z.div_le_compat_l; lia.
Qed.

Lemma integerSize_ge_1 (w h fc d : Z) :
  1 <= integerSize w h fc d.
Proof.
  unfold integerSize.
  repeat (case_match; try lia).
Qed.

Lemma integerSize_le_max (w h fc d : Z) :
  integerSize w h fc d <= Z.max 1 d.
Proof.
  unfold integerSize.
  repeat (case_match; try lia).
Qed.

(** The result only depends on the product [frameArea * frameCount] once
    both are positive. *)
Lemma integerSize_positive (w h fc d : Z) :
  0 < w * h -> 0 < fc ->
  integerSize w h fc d =
    let m := floor_sqrt_div MAX_GIF_PIXELS (w * h * fc) in
    if m <=? 0 then 1 else Z.max 1 (Z.min d m).
Proof.
  intros Ha Hfc. unfold integerSize.
  assert (0 < w * h * fc) by nia.
  destruct (Z.leb_spec (w * h) 0); [lia|].
  destruct (Z.leb_spec fc 0); [lia|].
  cbn [orb]. rewrite Z.max_l by lia. reflexivity.
Qed.

Lemma budget_antitone (n n' d : Z) :
  0 < n -> n <= n' ->
  (let m := floor_sqrt_div MAX_GIF_PIXELS n' in
   if m <=? 0 then 1 else Z.max 1 (Z.min d m))
  <= (let m := floor_sqrt_div MAX_GIF_PIXELS n in
      if m <=? 0 then 1 else Z.max 1 (Z.min d m)).
Proof.
  intros Hn Hnn. cbv zeta.
  assert (Hm : floor_sqrt_div MAX_GIF_PIXELS n'
               <= floor_sqrt_div MAX_GIF_PIXELS n).
  { apply floor_sqrt_div_antitone; [unfold MAX_GIF_PIXELS|..]; lia. }
  repeat (case_match; try lia).
Qed.

Lemma integerSize_frameCount_antitone (w h fc fc' d : Z) :
  fc <= fc' ->
  integerSize w h fc' d <= integerSize w h fc d.
Proof.
  intros Hfc.
  destruct (Z_lt_le_dec 0 (w * h)) as [Ha|Ha];
    [destruct (Z_lt_le_dec 0 fc) as [Hp|Hp]|].
  - rewrite !integerSize_positive by lia.
    apply budget_antitone; nia.
  - transitivity (Z.max 1 d); [apply integerSize_le_max|].
    unfold integerSize.
    destruct (Z.leb_spec fc 0); [|lia].
    rewrite orb_true_r. lia.
  - unfold integerSize.
    destruct (Z.leb_spec (w * h) 0); [|lia]. cbn [orb]. lia.
Qed.

Lemma integerSize_area_antitone (w h w' h' fc d : Z) :
  w * h <= w' * h' ->
  integerSize w' h' fc d <= integerSize w h fc d.
Proof.
  intros Hwh.
  destruct (Z_lt_le_dec 0 fc) as [Hp|Hp];
    [destruct (Z_lt_le_dec 0 (w * h)) as [Ha|Ha]|].
  - rewrite !integerSize_positive by lia.
    apply budget_antitone; nia.
  - transitivity (Z.max 1 d); [apply integerSize_le_max|].
    unfold integerSize.
    destruct (Z.leb_spec (w * h) 0); [|lia]. cbn [orb]. lia.
  - unfold integerSize.
    destruct (Z.leb_spec fc 0); [|lia].
    rewrite !orb_true_r. lia.
Qed.

End IntegerSizeFacts.

Section BudgetFacts.
Import SizeBudget.

Lemma Num_max_Int (a b : Z) :
  Num.max (Num.Int a) (Num.Int b) = Num.Int (Z.max a b).
Proof. cbn. destruct (Z.leb_spec a b); f_equal; lia. Qed.

(** Without a finite area the budget is not applied. *)
Lemma getSafeGifPixelSize_nonfinite (w h fc d : Num.t) :
  Num.isFinite (Num.mul w h) = false ->
  getSafeGifPixelSize w h fc d = Num.max (Num.Int 1) d.
Proof.
  intros Hnf. unfold getSafeGifPixelSize. cbv zeta. rewrite Hnf.
  cbn [negb]. by rewrite orb_true_r.
Qed.

(** The ceiling on integers, where [integerSize] is the solver. *)
Lemma integerSize_ceiling (sw sh fc desired : Z) :
  1 <= sw -> 1 <= sh -> 1 <= fc ->
  let k := integerSize sw sh fc desired in
  (sw * sh * fc <= 4000000 -> totalGifPixels sw sh fc k <= 4000000) /\
  (sw * sh * fc > 4000000 ->
   k = 1 /\ totalGifPixels sw sh fc k > 4000000).
Proof.
  intros Hw Hh Hfc k.
  assert (Ha : 0 < sw * sh) by nia.
  assert (Hn : 0 < sw * sh * fc) by nia.
  assert (Hk : k = let m := floor_sqrt_div MAX_GIF_PIXELS (sw * sh * fc) in
                   if m <=? 0 then 1 else Z.max 1 (Z.min desired m)).
  { subst k. apply integerSize_positive; lia. }
  cbv zeta in Hk.
  set (m := floor_sqrt_div MAX_GIF_PIXELS (sw * sh * fc)) in *.
  assert (Hm0 : 0 <= m) by apply Z.sqrt_nonneg.
  assert (Hspec : forall j, 0 <= j ->
            (j <= m <-> j * j * (sw * sh * fc) <= 4000000)).
  { intros j Hj. apply floor_sqrt_div_spec;
      [unfold MAX_GIF_PIXELS; lia | lia | lia]. }
  unfold totalGifPixels.
  split.
  - intros Hfit.
    destruct (Z.leb_spec m 0) as [Hle|Hgt].
    + rewrite Hk. lia.
    + assert (Hkm : 1 <= k <= m) by lia.
      pose proof (proj1 (Hspec m Hm0) (Z.le_refl m)) as Hmm.
      assert (k * k <= m * m) by nia.
      assert (k * k * (sw * sh * fc) <= m * m * (sw * sh * fc)).
      { apply Z.mul_le_mono_nonneg_r; lia. }
      lia.
  - intros Hover.
    assert (Hm : m <= 0).
    { destruct (Z_lt_le_dec 0 m) as [Hpos|]; [|lia].
      assert (H1 : 1 <= m) by lia.
      apply (Hspec 1) in H1; lia. }
    destruct (Z.leb_spec m 0); [|lia].
    rewrite Hk. lia.
Qed.

(** [integerSize] reduces the block size no further than the budget
    forces. *)
Lemma integerSize_minimal (sw sh fc desired : Z) :
  1 <= sw -> 1 <= sh -> 1 <= fc ->
  let k := integerSize sw sh fc desired in
  1 <= k /\ (k < desired -> totalGifPixels sw sh fc (k + 1) > 4000000).
Proof.
  intros Hw Hh Hfc k.
  assert (Ha : 0 < sw * sh) by nia.
  assert (Hn : 0 < sw * sh * fc) by nia.
  assert (Hk : k = let m := floor_sqrt_div MAX_GIF_PIXELS (sw * sh * fc) in
                   if m <=? 0 then 1 else Z.max 1 (Z.min desired m)).
  { subst k. apply integerSize_positive; lia. }
  cbv zeta in Hk.
  set (m := floor_sqrt_div MAX_GIF_PIXELS (sw * sh * fc)) in *.
  assert (Hm0 : 0 <= m) by apply Z.sqrt_nonneg.
  assert (Hspec : forall j, 0 <= j ->
            (j <= m <-> j * j * (sw * sh * fc) <= 4000000)).
  { intros j Hj. apply floor_sqrt_div_spec;
      [unfold MAX_GIF_PIXELS; lia | lia | lia]. }
  assert (Hk1 : 1 <= k) by (destruct (m <=? 0); lia).
  split; [exact Hk1|]. intros Hlt.
  assert (Hkm : m <= k).
  { destruct (Z.leb_spec m 0); lia. }
  assert (Hnot : ~ (k + 1 <= m)) by lia.
  rewrite (Hspec (k + 1)) in Hnot by lia.
  unfold totalGifPixels. nia.
Qed.

End BudgetFacts.

(** C5 (as stated): the result is non-increasing as the product [w * h]
    grows.  It fails where the product stops being finite: for a grid 8 wide
    and 1,000,000 high the block size 12 is reduced to 1, for a grid 8 wide
    and [Infinity] high (what [convertImage] computes for a source of width
    0) the area is not finite, the budget is not applied, and the result is
    12 again. *)
Lemma C5_infinite_area_raises_result :
  let finite :=
    SizeBudget.getSafeGifPixelSize (Num.Int 8) (Num.Int 1000000) (Num.Int 1)
      (Num.Int 12) in
  let infinite :=
    SizeBudget.getSafeGifPixelSize (Num.Int 8) Num.PosInfinity (Num.Int 1)
      (Num.Int 12) in
  Num.lt (Num.mul (Num.Int 8) (Num.Int 1000000))
         (Num.mul (Num.Int 8) Num.PosInfinity) = true /\
  finite = Num.Int 1 /\ infinite = Num.Int 12 /\
  Num.le infinite finite = false.
Proof. by vm_compute. Qed.

(** C5 (amended): for a fixed desired block size, [getSafeGifPixelSize] on
    integers is non-increasing in [frameCount], and non-increasing in the
    product [w * h] as long as the larger product is finite; for a desired
    size of at least 1 its result never exceeds it.  When the product
    [w * h] is not finite the result is [max 1 desired], whatever the frame
    count. *)
Theorem C5_budget_monotone (w h w' h' fc fc' desired : Z) :
  let size a b c :=
    SizeBudget.getSafeGifPixelSize (Num.Int a) (Num.Int b) (Num.Int c)
      (Num.Int desired) in
  (fc <= fc' -> Num.le (size w h fc') (size w h fc) = true) /\
  (w * h <= w' * h' ->
   Num.isFinite (Num.mul (Num.Int w') (Num.Int h')) = true ->
   Num.le (size w' h' fc) (size w h fc) = true) /\
  (1 <= desired -> Num.le (size w h fc) (Num.Int desired) = true) /\
  (forall sampleWidth sampleHeight frameCount : Num.t,
     Num.isFinite (Num.mul sampleWidth sampleHeight) = false ->
     SizeBudget.getSafeGifPixelSize sampleWidth sampleHeight frameCount
       (Num.Int desired)
     = Num.Int (Z.max 1 desired)).
Proof.
  intros size. subst size. cbv beta.
  rewrite !getSafeGifPixelSize_Int.
  split; [|split; [|split]].
  - intros Hfc. cbn [Num.le]. apply Z.leb_le.
    destruct (Num.isFinite _); [|lia].
    by apply integerSize_frameCount_antitone.
  - intros Hwh Hfin. rewrite Hfin. cbn [Num.le]. apply Z.leb_le.
    destruct (Num.isFinite (Num.mul (Num.Int w) (Num.Int h))).
    + by apply integerSize_area_antitone.
    + apply integerSize_le_max.
  - intros Hd. cbn [Num.le]. apply Z.leb_le.
    pose proof (integerSize_le_max w h fc desired).
    destruct (Num.isFinite _); lia.
  - intros sw sh c Hnf.
    by rewrite getSafeGifPixelSize_nonfinite, Num_max_Int.
Qed.

Lemma C5_budget_monotone_witness :
  Num.le
    (SizeBudget.getSafeGifPixelSize (Num.Int 128) (Num.Int 128) (Num.Int 2)
       (Num.Int 12))
    (SizeBudget.getSafeGifPixelSize (Num.Int 128) (Num.Int 128) (Num.Int 1)
       (Num.Int 12)) = true /\
  Num.le
    (SizeBudget.getSafeGifPixelSize (Num.Int 256) (Num.Int 256) (Num.Int 1)
       (Num.Int 12))
    (SizeBudget.getSafeGifPixelSize (Num.Int 128) (Num.Int 128) (Num.Int 1)
       (Num.Int 12)) = true /\
  Num.le
    (SizeBudget.getSafeGifPixelSize (Num.Int 128) (Num.Int 128) (Num.Int 1)
       (Num.Int 12))
    (Num.Int 12) = true /\
  SizeBudget.getSafeGifPixelSize (Num.Int 8) Num.PosInfinity (Num.Int 3)
    (Num.Int 12) = Num.Int 12.
Proof.
  destruct (C5_budget_monotone 128 128 256 256 1 2 12)
    as (Hfc & Ha & Hd & Hinf).
  split; [apply Hfc; lia|].
  split; [apply Ha; [lia|by vm_compute]|].
  split; [apply Hd; lia|].
  apply (Hinf (Num.Int 8) Num.PosInfinity (Num.Int 3)). reflexivity.
Defined.

(** C8 (as stated): whenever the product exceeds 4,000,000 the function
    returns 1.  For a grid 8 wide and [Infinity] high (a source of width 0)
    the product is [Infinity], above the ceiling, and the function returns
    the desired size 12. *)
Lemma C8_infinite_height_not_one :
  Num.le (Num.Int 1) Num.PosInfinity = true /\
  Num.lt (Num.Int 4000000)
         (Num.mul (Num.mul (Num.Int 8) Num.PosInfinity) (Num.Int 1)) = true /\
  SizeBudget.getSafeGifPixelSize (Num.Int 8) Num.PosInfinity (Num.Int 1)
    (Num.Int 12) = Num.Int 12.
Proof. by vm_compute. Qed.

(** C8 (amended): the 4,000,000-pixel ceiling is enforced only when one pixel
    per grid cell already fits.  For integers
    [sampleWidth, sampleHeight, frameCount >= 1] and
    [k = getSafeGifPixelSize sampleWidth sampleHeight frameCount desired]:
    if [sampleWidth * sampleHeight * frameCount <= 4,000,000] the encode
    decodes at most 4,000,000 pixels; if the product is above 4,000,000 and
    [sampleWidth * sampleHeight] is finite, [k = 1] and the encode decodes
    more than the ceiling; and if [sampleWidth * sampleHeight] is not finite
    (a height of [Infinity], or a product that overflows) the function
    returns [max 1 desired]. *)
Theorem C8_ceiling_conditional (sw sh fc desired : Z) :
  1 <= sw -> 1 <= sh -> 1 <= fc ->
  let size :=
    SizeBudget.getSafeGifPixelSize (Num.Int sw) (Num.Int sh) (Num.Int fc)
      (Num.Int desired) in
  (sw * sh * fc <= 4000000 ->
   exists k, size = Num.Int k
             /\ SizeBudget.totalGifPixels sw sh fc k <= 4000000) /\
  (sw * sh * fc > 4000000 ->
   Num.isFinite (Num.mul (Num.Int sw) (Num.Int sh)) = true ->
   size = Num.Int 1 /\ SizeBudget.totalGifPixels sw sh fc 1 > 4000000) /\
  (Num.isFinite (Num.mul (Num.Int sw) (Num.Int sh)) = false ->
   size = Num.Int (Z.max 1 desired)) /\
  (forall frameCount : Num.t,
     SizeBudget.getSafeGifPixelSize (Num.Int sw) Num.PosInfinity frameCount
       (Num.Int desired)
     = Num.Int (Z.max 1 desired)).
Proof.
  intros Hw Hh Hfc size. subst size.
  rewrite getSafeGifPixelSize_Int.
  destruct (integerSize_ceiling sw sh fc desired Hw Hh Hfc) as [Hfit Hover].
  split; [|split; [|split]].
  - intros Hle.
    assert (Hfin : Num.isFinite (Num.mul (Num.Int sw) (Num.Int sh)) = true).
    { cbn [Num.mul]. rewrite ofZ_small; [done|]. nia. }
    rewrite Hfin. eexists. split; [reflexivity|]. by apply Hfit.
  - intros Hgt Hfin. rewrite Hfin.
    destruct (Hover Hgt) as [Hk Htot]. rewrite Hk in *. done.
  - by intros ->.
  - intros frameCount.
    rewrite getSafeGifPixelSize_nonfinite, Num_max_Int; [done|].
    cbn [Num.mul]. destruct (Z.compare_spec sw 0); try lia. reflexivity.
Qed.

Lemma C8_ceiling_conditional_witness :
  (exists k,
     SizeBudget.getSafeGifPixelSize (Num.Int 128) (Num.Int 128) (Num.Int 10)
       (Num.Int 12) = Num.Int k
     /\ SizeBudget.totalGifPixels 128 128 10 k <= 4000000) /\
  SizeBudget.getSafeGifPixelSize (Num.Int 400) (Num.Int 400) (Num.Int 30)
    (Num.Int 12) = Num.Int 1 /\
  SizeBudget.totalGifPixels 400 400 30 1 > 4000000.
Proof.
  destruct (C8_ceiling_conditional 128 128 10 12) as (Hfit & _);
    [lia..|].
  destruct (C8_ceiling_conditional 400 400 30 12) as (_ & Hover & _);
    [lia..|].
  split; [apply Hfit; lia|].
  apply Hover; [lia|by vm_compute].
Defined.

Section FrameDelayFacts.
Import FrameDelay.

Lemma Math_round_nearest (q : Q) :
  (inject_Z (Math_round q) - (1 # 2) <= q)%Q /\
  (q < inject_Z (Math_round q) + (1 # 2))%Q.
Proof.
  unfold Math_round.
  pose proof (Qfloor_le (q + (1 # 2))) as Hlo.
  pose proof (Qlt_floor (q + (1 # 2))) as Hhi.
  rewrite inject_Z_plus in Hhi.
  split.
  - apply (Qplus_le_l _ _ (1 # 2)). ring_simplify. ring_simplify in Hlo.
    exact Hlo.
  - apply (Qplus_lt_l _ _ (1 # 2)).
    eapply Qlt_le_trans; [exact Hhi|].
    ring_simplify. apply Qle_refl.
Qed.

Lemma clampFrameDelay_positive (q : Q) :
  (0 < q)%Q ->
  clampFrameDelay (Finite q) = Z.max 1 (Z.min 65535 (Math_round q)).
Proof.
  intros Hq. unfold clampFrameDelay. cbn [Number_isFinite negb orb le_zero].
  destruct (Qle_bool q 0) eqn:E; [|reflexivity].
  apply Qle_bool_iff in E. exfalso. apply (Qlt_not_le _ _ Hq E).
Qed.

End FrameDelayFacts.

(** C9: [clampFrameDelay] returns 6 when the delay is not finite or is at most
    0; otherwise it returns the delay rounded to the nearest integer and
    clamped to [1, 65535].  In particular 0, -5, NaN and 100000 give 6, 6, 6
    and 65535. *)
Theorem C9_clampFrameDelay (d : FrameDelay.number) :
  (FrameDelay.Number_isFinite d = false -> FrameDelay.clampFrameDelay d = 6) /\
  (forall q, d = FrameDelay.Finite q -> (q <= 0)%Q ->
             FrameDelay.clampFrameDelay d = 6) /\
  (forall q, d = FrameDelay.Finite q -> (0 < q)%Q ->
     let r := FrameDelay.Math_round q in
     (inject_Z r - (1 # 2) <= q < inject_Z r + (1 # 2))%Q /\
     FrameDelay.clampFrameDelay d = Z.max 1 (Z.min 65535 r) /\
     1 <= FrameDelay.clampFrameDelay d <= 65535 /\
     (1 <= r <= 65535 -> FrameDelay.clampFrameDelay d = r)) /\
  FrameDelay.clampFrameDelay (FrameDelay.Finite 0) = 6 /\
  FrameDelay.clampFrameDelay (FrameDelay.Finite (-5 # 1)) = 6 /\
  FrameDelay.clampFrameDelay FrameDelay.NaN = 6 /\
  FrameDelay.clampFrameDelay (FrameDelay.Finite (100000 # 1)) = 65535.
Proof.
  split.
  { intros Hnf. unfold FrameDelay.clampFrameDelay. rewrite Hnf. reflexivity. }
  split.
  { intros q -> Hq. unfold FrameDelay.clampFrameDelay.
    cbn [FrameDelay.Number_isFinite negb orb FrameDelay.le_zero].
    apply Qle_bool_iff in Hq. rewrite Hq. reflexivity. }
  split; [|repeat split; reflexivity].
  intros q -> Hq r.
  split; [apply Math_round_nearest|].
  rewrite (clampFrameDelay_positive q Hq). fold r.
  split; [reflexivity|]. split; lia.
Qed.

Lemma C9_clampFrameDelay_witness :
  FrameDelay.clampFrameDelay FrameDelay.PosInfinity = 6 /\
  FrameDelay.clampFrameDelay (FrameDelay.Finite (-(3 # 2))) = 6 /\
  FrameDelay.clampFrameDelay (FrameDelay.Finite (5 # 2)) = 3.
Proof.
  split; [|split].
  - destruct (C9_clampFrameDelay FrameDelay.PosInfinity) as (Hnf & _).
    apply Hnf. reflexivity.
  - destruct (C9_clampFrameDelay (FrameDelay.Finite (-(3 # 2))))
      as (_ & Hle & _).
    apply (Hle (-(3 # 2))%Q); [reflexivity | discriminate].
  - destruct (C9_clampFrameDelay (FrameDelay.Finite (5 # 2)))
      as (_ & _ & Hpos & _).
    destruct (Hpos (5 # 2)%Q) as (_ & _ & _ & Hr); [reflexivity..|].
    apply Hr. vm_compute. split; discriminate.
Defined.

Section PaletteFacts.
Import Palette.

Lemma foldl_preserves {A B : Type} (P : A -> Prop) (f : A -> B -> A)
    (l : list B) (a : A) :
  P a -> (forall a' b', P a' -> P (f a' b')) -> P (foldl f a l).
Proof.
  intros Ha Hstep. revert a Ha.
  induction l as [|y l IH]; intros a Ha; cbn [foldl]; auto.
Qed.

Lemma foldl_setAdd_elem (xs acc : list string) (x : string) :
  x ∈ foldl setAdd acc xs <-> x ∈ acc \/ x ∈ xs.
Proof.
  revert acc. induction xs as [|y xs IH]; intros acc; cbn [foldl].
  - rewrite elem_of_nil. tauto.
  - rewrite IH, elem_of_cons. unfold setAdd.
    destruct (decide (y ∈ acc)) as [Hin|Hout].
    + split; [tauto|]. intros [H|[->|H]]; tauto.
    + rewrite elem_of_app, list_elem_of_singleton. tauto.
Qed.

Lemma foldl_setAdd_NoDup (xs acc : list string) :
  NoDup acc -> NoDup (foldl setAdd acc xs).
Proof.
  intros Hacc. apply foldl_preserves; [exact Hacc|].
  intros a y Ha. unfold setAdd.
  destruct (decide (y ∈ a)) as [Hin|Hout]; [exact Ha|].
  apply NoDup_app. split; [exact Ha|]. split.
  - intros z Hz Hz'. apply list_elem_of_singleton in Hz'. subst z. tauto.
  - apply NoDup_singleton.
Qed.

Lemma setFromArray_elem (xs : list string) (x : string) :
  x ∈ setFromArray xs <-> x ∈ xs.
Proof.
  unfold setFromArray. rewrite foldl_setAdd_elem, elem_of_nil. tauto.
Qed.

Lemma setFromArray_NoDup (xs : list string) : NoDup (setFromArray xs).
Proof. apply foldl_setAdd_NoDup, NoDup_nil_2. Qed.

Lemma uniqueColors_elem (palette : list string) (x : string) :
  x ∈ uniqueColors palette <-> x ∈ toLowerCase <$> sourceColors palette.
Proof. apply setFromArray_elem. Qed.

Lemma uniqueColors_NoDup (palette : list string) :
  NoDup (uniqueColors palette).
Proof. apply setFromArray_NoDup. Qed.

Lemma uniqueColors_nonempty (palette : list string) :
  uniqueColors palette <> [].
Proof.
  intros Hnil.
  assert (Hex : exists x, x ∈ toLowerCase <$> sourceColors palette).
  { unfold sourceColors. destruct palette as [|c l]; cbn.
    - eexists. apply list_elem_of_here.
    - eexists. apply list_elem_of_here. }
  destruct Hex as [x Hx]. apply uniqueColors_elem in Hx.
  rewrite Hnil in Hx. by apply elem_of_nil in Hx.
Qed.

(** [normalizedPalette] extends [uniqueColors] by at most one repeated
    color, and has at least two entries. *)
Lemma normalizedPalette_cases (palette : list string) :
  (exists c, uniqueColors palette = [c]
             /\ normalizedPalette palette = [c; c]) \/
  ((2 <= length (uniqueColors palette))%nat
   /\ normalizedPalette palette = uniqueColors palette).
Proof.
  unfold normalizedPalette.
  pose proof (uniqueColors_nonempty palette) as Hne.
  destruct (uniqueColors palette) as [|c [|c' l]]; [done| |].
  - left. by exists c.
  - right. cbn [length]. split; [lia|done].
Qed.

Lemma normalizedPalette_length (palette : list string) :
  (2 <= length (normalizedPalette palette))%nat.
Proof.
  destruct (normalizedPalette_cases palette) as [(c & _ & ->)|[H ->]];
    cbn [length]; lia.
Qed.

Lemma normalizedPalette_last (palette : list string) :
  last (normalizedPalette palette) = last (uniqueColors palette).
Proof.
  destruct (normalizedPalette_cases palette) as [(c & -> & ->)|[_ ->]]; done.
Qed.

Lemma normalizedPalette_prefix (palette : list string) :
  exists rest, normalizedPalette palette = uniqueColors palette ++ rest.
Proof.
  destruct (normalizedPalette_cases palette) as [(c & -> & ->)|[_ ->]].
  - by exists [c].
  - exists []. by rewrite app_nil_r.
Qed.

Lemma targetSize_power (palette : list string) :
  exists k : nat, (1 <= k <= 8)%nat /\ targetSize palette = (2 ^ k)%nat.
Proof.
  unfold targetSize.
  set (c := Nat.max 2 (cappedLength palette)).
  assert (Hc : (2 <= c <= 256)%nat).
  { subst c. unfold cappedLength. lia. }
  assert (Hlo : (Nat.log2_up 2 <= Nat.log2_up c)%nat)
    by (apply Nat.log2_up_le_mono; lia).
  assert (Hhi : (Nat.log2_up c <= Nat.log2_up 256)%nat)
    by (apply Nat.log2_up_le_mono; lia).
  change (Nat.log2_up 2) with 1%nat in Hlo.
  assert (H256 : Nat.log2_up 256 = 8%nat).
  { change 256%nat with (2 ^ 8)%nat. apply Nat.log2_up_pow2. lia. }
  rewrite H256 in Hhi.
  exists (Nat.log2_up c). split; [lia|].
  assert ((2 ^ 1 <= 2 ^ Nat.log2_up c)%nat)
    by (apply Nat.pow_le_mono_r; lia).
  cbn in H. lia.
Qed.

Lemma targetSize_bounds (palette : list string) :
  (2 <= targetSize palette <= 256)%nat.
Proof.
  destruct (targetSize_power palette) as (k & [Hk1 Hk8] & ->).
  assert ((2 ^ 1 <= 2 ^ k)%nat) by (apply Nat.pow_le_mono_r; lia).
  assert ((2 ^ k <= 2 ^ 8)%nat) by (apply Nat.pow_le_mono_r; lia).
  change (2 ^ 8)%nat with 256%nat in *. change (2 ^ 1)%nat with 2%nat in *.
  lia.
Qed.

Lemma targetSize_ge_capped (palette : list string) :
  (cappedLength palette <= targetSize palette)%nat.
Proof.
  unfold targetSize.
  set (c := Nat.max 2 (cappedLength palette)).
  assert (Hc : (1 < c)%nat) by (subst c; lia).
  pose proof (Nat.log2_up_spec c Hc) as [_ Hup].
  lia.
Qed.

Lemma paddedPalette_length (palette : list string) :
  length (paddedPalette palette) = targetSize palette.
Proof.
  unfold paddedPalette. rewrite length_app, length_replicate, length_take.
  lia.
Qed.

(** With at most 256 unique colors nothing is cut off: the table starts with
    the unique colors. *)
Lemma paddedPalette_small (palette : list string) :
  (length (uniqueColors palette) <= 256)%nat ->
  exists rest, paddedPalette palette = uniqueColors palette ++ rest.
Proof.
  intros Hlen.
  assert (Hn : (length (normalizedPalette palette) <= 256)%nat).
  { destruct (normalizedPalette_cases palette) as [(c & _ & ->)|[_ ->]];
      cbn [length]; lia. }
  pose proof (targetSize_ge_capped palette) as Hcap.
  unfold cappedLength in Hcap. rewrite Nat.min_r in Hcap by lia.
  unfold paddedPalette. rewrite take_ge by lia.
  destruct (normalizedPalette_prefix palette) as [rest ->].
  rewrite <- app_assoc. eauto.
Qed.

(** With more than 256 unique colors the table is the first 256 of them. *)
Lemma paddedPalette_large (palette : list string) :
  (256 < length (uniqueColors palette))%nat ->
  paddedPalette palette = take 256 (uniqueColors palette).
Proof.
  intros Hlen.
  destruct (normalizedPalette_cases palette) as [(c & Hu & _)|[_ Hn]].
  { rewrite Hu in Hlen. cbn in Hlen. lia. }
  pose proof (targetSize_bounds palette) as Hb.
  pose proof (targetSize_ge_capped palette) as Hcap.
  unfold cappedLength in Hcap. rewrite Hn in Hcap.
  rewrite Nat.min_l in Hcap by lia.
  assert (HT : targetSize palette = 256%nat) by lia.
  unfold paddedPalette. rewrite HT, Hn, length_take.
  rewrite Nat.min_l by lia. rewrite Nat.sub_diag. cbn [replicate].
  by rewrite app_nil_r.
Qed.

End PaletteFacts.

Section IndexMapFacts.
Import Palette.

(** The map built by the [forEach] sends every hex to its first index. *)
Lemma foldl_indexMapStep_lookup (l : list string) (i : nat)
    (m : gmap string nat) (h : string) :
  foldl indexMapStep m (zip (seq i (length l)) l) !! h =
    match m !! h with
    | Some v => Some v
    | None => (fun p => (i + p.1)%nat) <$> list_find (eq h) l
    end.
Proof.
  revert i m. induction l as [|y l IH]; intros i m.
  - cbn. by destruct (m !! h).
  - cbn [length seq zip zip_with foldl]. rewrite IH.
    unfold indexMapStep. cbn [fst snd].
    cbn [list_find]. 
    destruct (m !! y) as [v|] eqn:Hy.
    + destruct (m !! h) as [w|] eqn:Hh; [done|].
      destruct (decide (h = y)) as [->|Hne]; [congruence|].
      destruct (list_find (eq h) l) as [[j z]|]; cbn; [|done].
      f_equal. lia.
    + destruct (decide (h = y)) as [->|Hne].
      * rewrite lookup_insert_eq, Hy. cbn. f_equal. lia.
      * rewrite lookup_insert_ne by done.
        destruct (m !! h) as [w|]; [done|].
        destruct (list_find (eq h) l) as [[j z]|]; cbn; [|done].
        f_equal. lia.
Qed.

Lemma buildIndexMap_lookup (l : list string) (h : string) :
  buildIndexMap l !! h = fst <$> list_find (eq h) l.
Proof.
  unfold buildIndexMap. rewrite foldl_indexMapStep_lookup, lookup_empty.
  by destruct (list_find (eq h) l) as [[j z]|].
Qed.

Lemma buildIndexMap_Some (l : list string) (h : string) (i : nat) :
  buildIndexMap l !! h = Some i ->
  l !! i = Some h /\ (i < length l)%nat.
Proof.
  rewrite buildIndexMap_lookup.
  destruct (list_find (eq h) l) as [[j z]|] eqn:Hf; [|done].
  intros [= <-]. apply list_find_Some in Hf as (Hl & <- & _).
  cbn. split; [done|]. by eapply lookup_lt_Some.
Qed.

Lemma buildIndexMap_None (l : list string) (h : string) :
  buildIndexMap l !! h = None <-> h ∉ l.
Proof.
  rewrite buildIndexMap_lookup, fmap_None, list_find_None, Forall_forall.
  split.
  - intros H Hin. by apply (H h).
  - intros H x Hx ->. done.
Qed.

(** In a list without duplicates followed by anything, the first index of
    the last element of the duplicate-free part is its own position. *)
Lemma list_find_last_NoDup (u rest : list string) (c : string) :
  NoDup u -> last u = Some c ->
  list_find (eq c) (u ++ rest) = Some (pred (length u), c).
Proof.
  intros Hnd Hlast. rewrite last_lookup in Hlast.
  assert (Hlt : (pred (length u) < length u)%nat) by by eapply lookup_lt_Some.
  apply list_find_Some. split; [|split; [done|]].
  - by rewrite lookup_app_l.
  - intros j y Hj Hlt' <-.
    rewrite lookup_app_l in Hj by lia.
    pose proof (NoDup_lookup _ _ _ _ Hnd Hj Hlast). lia.
Qed.

Lemma fallbackHex_last (palette : list string) :
  last (uniqueColors palette) = Some (fallbackHex palette).
Proof.
  unfold fallbackHex. rewrite normalizedPalette_last.
  pose proof (uniqueColors_nonempty palette) as Hne.
  destruct (last (uniqueColors palette)) eqn:E; [done|].
  by apply last_None in E.
Qed.

Lemma fallbackIndex_small (palette : list string) :
  (length (uniqueColors palette) <= 256)%nat ->
  buildIndexMap (paddedPalette palette) !! fallbackHex palette
  = Some (pred (length (uniqueColors palette))).
Proof.
  intros Hlen. destruct (paddedPalette_small palette Hlen) as [rest ->].
  rewrite buildIndexMap_lookup.
  rewrite (list_find_last_NoDup _ _ (fallbackHex palette));
    [done | apply uniqueColors_NoDup | apply fallbackHex_last].
Qed.

Lemma fallbackHex_not_padded_large (palette : list string) :
  (256 < length (uniqueColors palette))%nat ->
  fallbackHex palette ∉ paddedPalette palette.
Proof.
  intros Hlen. rewrite (paddedPalette_large palette Hlen).
  intros (j & Hj & Hlt)%elem_of_take.
  pose proof (fallbackHex_last palette) as Hlast.
  rewrite last_lookup in Hlast.
  pose proof (NoDup_lookup _ _ _ _ (uniqueColors_NoDup palette) Hj Hlast).
  lia.
Qed.

Lemma paddedPalette_subset (palette : list string) (x : string) :
  x ∈ paddedPalette palette -> x ∈ uniqueColors palette.
Proof.
  unfold paddedPalette. rewrite elem_of_app. intros [Hin|Hin].
  - apply elem_of_take in Hin as (j & Hj & _).
    apply list_elem_of_lookup_2 in Hj.
    destruct (normalizedPalette_cases palette) as [(c & Hu & Hn)|[_ Hn]].
    + rewrite Hn in Hj. rewrite Hu.
      apply elem_of_cons in Hj as [->|Hj]; [apply list_elem_of_here|done].
    + by rewrite <- Hn.
  - apply elem_of_replicate in Hin as [-> _].
    eapply last_Some_elem_of, fallbackHex_last.
Qed.

Lemma fallbackIndex_lt (f : string -> RGB) (palette : list string) :
  (fallbackIndex (buildPaletteLookup f palette)
   < length (paddedPalette palette))%nat.
Proof.
  cbn [buildPaletteLookup fallbackIndex].
  destruct (buildIndexMap (paddedPalette palette) !! fallbackHex palette)
    as [i|] eqn:E; cbn [default].
  - by apply buildIndexMap_Some in E as [_ ?].
  - rewrite paddedPalette_length.
    pose proof (targetSize_bounds palette). lia.
Qed.

Lemma lookupIndex_lt (f : string -> RGB) (palette : list string) (h : string) :
  let L := buildPaletteLookup f palette in
  (lookupIndex (colorIndexMap L) (fallbackIndex L) h
   < length (paddedPalette palette))%nat.
Proof.
  intros L. unfold lookupIndex.
  destruct (colorIndexMap L !! toLowerCase h) as [i|] eqn:E; cbn [default].
  - by apply buildIndexMap_Some in E as [_ ?].
  - apply fallbackIndex_lt.
Qed.

Lemma cellIndex_lt (f : string -> RGB) (palette : list string)
    (colors : list (list string)) (y x : nat) :
  let L := buildPaletteLookup f palette in
  (cellIndex colors (colorIndexMap L) (fallbackIndex L) y x
   < length (paddedPalette palette))%nat.
Proof.
  intros L. unfold cellIndex.
  destruct (colors !! y ≫= (.!! x)) as [hex|].
  - apply lookupIndex_lt.
  - destruct (colorIndexMap L !! "") as [i|] eqn:E; cbn [default].
    + by apply buildIndexMap_Some in E as [_ ?].
    + apply fallbackIndex_lt.
Qed.

End IndexMapFacts.

Section IndexedPixelsFacts.
Import Palette.

Lemma storeByte_length (buf : list Z) (i : Z) (v : nat) :
  length (storeByte buf i v) = length buf.
Proof.
  unfold storeByte. destruct (i <? 0); [done|]. apply length_insert.
Qed.

Lemma storeByte_Forall (P : Z -> Prop) (buf : list Z) (i : Z) (v : nat) :
  P (Z.of_nat v mod 256) -> Forall P buf -> Forall P (storeByte buf i v).
Proof.
  intros Hv Hbuf. unfold storeByte. destruct (i <? 0); [done|].
  destruct (decide (Z.to_nat i < length buf)%nat) as [Hlt|Hge].
  - by apply Forall_insert.
  - by rewrite list_insert_ge by lia.
Qed.

(** What the three nested loops of [colorGridToIndexedPixels] preserve: any
    property of buffers that every single store preserves. *)
Lemma fillPixelRow_preserves (P : list Z -> Prop) (colors : list (list string))
    (k : Z) (m : gmap string nat) (fb sampleWidth : nat) (fw : Z)
    (y : nat) (dy : Z) (buf : list Z) :
  (forall b i x, P b -> P (storeByte b i (cellIndex colors m fb y x))) ->
  P buf -> P (fillPixelRow colors k m fb sampleWidth fw y dy buf).
Proof.
  intros Hstore Hbuf. unfold fillPixelRow.
  apply foldl_preserves; [exact Hbuf|].
  intros b x Hb. unfold fillBlockRow.
  apply foldl_preserves; [exact Hb|].
  intros b' dx Hb'. by apply Hstore.
Qed.

Lemma colorGridToIndexedPixels_preserves (P : list Z -> Prop)
    (colors : list (list string)) (k : Z) (m : gmap string nat) (fb : nat)
    (buf : list Z) :
  (forall b i y x, P b -> P (storeByte b i (cellIndex colors m fb y x))) ->
  P (replicate
       (Z.to_nat
          (Z.of_nat (from_option length 0%nat (colors !! 0%nat)) * k
           * (Z.of_nat (length colors) * k))) 0) ->
  colorGridToIndexedPixels colors k m fb = inr buf -> P buf.
Proof.
  intros Hstore Hinit. unfold colorGridToIndexedPixels.
  case_decide; [done|]. intros [= <-].
  apply foldl_preserves; [exact Hinit|].
  intros b y Hb. apply foldl_preserves; [exact Hb|].
  intros b' dy Hb'. apply fillPixelRow_preserves; [|exact Hb'].
  intros b'' i x Hb''. by apply Hstore.
Qed.

End IndexedPixelsFacts.

(** C4 (as stated): [fallbackIndex] is the table position of the last color of
    the deduplicated, lowercased list.  With 257 distinct colors the last one,
    ["#000100"], is cut off by the 256 cap: it has no slot, and
    [fallbackIndex] is 0, the slot of ["#000000"]. *)
Lemma C4_last_color_cut_off :
  let L := Palette.buildPaletteLookup
             (fun _ => {| Palette.r := 0; Palette.g := 0; Palette.b := 0 |})
             Palette.palette257 in
  last (Palette.uniqueColors Palette.palette257) = Some "#000100" /\
  Palette.fallbackIndex L = 0%nat /\
  Palette.paddedPalette Palette.palette257 !! Palette.fallbackIndex L
  = Some "#000000" /\
  ("#000100" ∉ Palette.paddedPalette Palette.palette257).
Proof.
  cbv zeta. split; [by vm_compute|]. split; [by vm_compute|].
  split; [by vm_compute|].
  apply (bool_decide_unpack _). by vm_compute.
Qed.

(** C4 (amended): let [colors] be the deduplicated, lowercased input (the
    black/white default for an empty input) and [c] its last color.  With at
    most 256 colors, [fallbackIndex] is the position of [c] in [colors], which
    is also the table slot that holds [c] and the slot the map gives for [c].
    With more than 256 colors [c] is not in the table and [fallbackIndex]
    is 0. *)
Theorem C4_fallback_index (hexToRgb : string -> Palette.RGB)
    (palette : list string) :
  let colors := Palette.uniqueColors palette in
  let L := Palette.buildPaletteLookup hexToRgb palette in
  exists c : string,
    last colors = Some c /\
    ((length colors <= 256)%nat ->
       Palette.fallbackIndex L = pred (length colors) /\
       colors !! Palette.fallbackIndex L = Some c /\
       Palette.paddedPalette palette !! Palette.fallbackIndex L = Some c /\
       Palette.colorIndexMap L !! c = Some (Palette.fallbackIndex L)) /\
    ((256 < length colors)%nat ->
       (c ∉ Palette.paddedPalette palette) /\
       Palette.colorIndexMap L !! c = None /\
       Palette.fallbackIndex L = 0%nat).
Proof.
  intros colors L. exists (Palette.fallbackHex palette).
  pose proof (fallbackHex_last palette) as Hlast.
  split; [exact Hlast|]. split.
  - intros Hlen.
    pose proof (fallbackIndex_small palette Hlen) as Hidx.
    assert (Hfb : Palette.fallbackIndex L = pred (length colors)).
    { subst L. cbn [Palette.buildPaletteLookup Palette.fallbackIndex].
      by rewrite Hidx. }
    rewrite Hfb. split; [done|]. split; [by rewrite <- last_lookup|].
    split; [|exact Hidx].
    by apply buildIndexMap_Some in Hidx as [? _].
  - intros Hlen.
    pose proof (fallbackHex_not_padded_large palette Hlen) as Hout.
    split; [exact Hout|].
    apply buildIndexMap_None in Hout.
    split; [exact Hout|].
    subst L. cbn [Palette.buildPaletteLookup Palette.fallbackIndex].
    by rewrite Hout.
Qed.

Lemma C4_fallback_index_witness :
  let f := fun _ : string =>
             {| Palette.r := 0; Palette.g := 0; Palette.b := 0 |} in
  Palette.fallbackIndex
    (Palette.buildPaletteLookup f ["#0F380F"; "#306230"; "#0f380f"]) = 1%nat /\
  Palette.fallbackIndex (Palette.buildPaletteLookup f Palette.palette257)
  = 0%nat.
Proof.
  intros f. split.
  - destruct (C4_fallback_index f ["#0F380F"; "#306230"; "#0f380f"])
      as (c & _ & Hsmall & _).
    apply Hsmall. vm_compute. lia.
  - destruct (C4_fallback_index f Palette.palette257) as (c & _ & _ & Hlarge).
    apply Hlarge. vm_compute. lia.
Defined.

(** C6: for every input color list the padded palette (and with it the packed
    color table) has a length that is a power of two, at least 2 and at most
    256; an empty input gives the black/white default, and a single unique
    color is duplicated. *)
Theorem C6_padded_power_of_two (hexToRgb : string -> Palette.RGB)
    (palette : list string) :
  let padded := Palette.paddedPalette palette in
  (exists k : nat, (1 <= k <= 8)%nat /\ length padded = (2 ^ k)%nat) /\
  (2 <= length padded <= 256)%nat /\
  length (Palette.paletteColors (Palette.buildPaletteLookup hexToRgb palette))
  = length padded /\
  (palette = [] -> padded = ["#000000"; "#ffffff"]) /\
  (forall c, Palette.uniqueColors palette = [c] -> padded = [c; c]).
Proof.
  intros padded. subst padded. rewrite paddedPalette_length.
  split; [apply targetSize_power|].
  split; [apply targetSize_bounds|].
  split.
  { cbn [Palette.buildPaletteLookup Palette.paletteColors].
    by rewrite length_fmap, paddedPalette_length. }
  split; [by intros ->|].
  intros c Hc.
  unfold Palette.paddedPalette, Palette.targetSize, Palette.cappedLength,
    Palette.fallbackHex, Palette.normalizedPalette.
  rewrite Hc. reflexivity.
Qed.

Lemma C6_padded_power_of_two_witness :
  Palette.paddedPalette [] = ["#000000"; "#ffffff"] /\
  Palette.paddedPalette ["#FFAA00"; "#ffaa00"] = ["#ffaa00"; "#ffaa00"].
Proof.
  pose (f := fun _ : string =>
               {| Palette.r := 0; Palette.g := 0; Palette.b := 0 |}).
  split.
  - destruct (C6_padded_power_of_two f []) as (_ & _ & _ & Hempty & _).
    by apply Hempty.
  - destruct (C6_padded_power_of_two f ["#FFAA00"; "#ffaa00"])
      as (_ & _ & _ & _ & Hone).
    by apply Hone.
Defined.

(** C7: for every hex string that is not a color of the palette, colors
    being compared in their normalized, lowercase form as the lookup does
    (and the palette being the black/white default when it is empty), the
    per-cell lookup of [colorGridToIndexedPixels] resolves to the fallback
    slot; and every index the lookup can give, hence every entry of the
    returned buffer, is strictly below the padded palette length. *)
Theorem C7_fallback_coverage (hexToRgb : string -> Palette.RGB)
    (palette : list string) :
  let L := Palette.buildPaletteLookup hexToRgb palette in
  let m := Palette.colorIndexMap L in
  let fb := Palette.fallbackIndex L in
  let n := length (Palette.paddedPalette palette) in
  (forall hex : string,
     Palette.toLowerCase hex
       ∉ Palette.toLowerCase <$> Palette.sourceColors palette ->
     Palette.lookupIndex m fb hex = fb) /\
  (fb < n)%nat /\
  (forall hex : string, (Palette.lookupIndex m fb hex < n)%nat) /\
  (forall colors y x, (Palette.cellIndex colors m fb y x < n)%nat) /\
  (forall colors pixelSize buf,
     Palette.colorGridToIndexedPixels colors pixelSize m fb = inr buf ->
     Forall (fun v => 0 <= v < Z.of_nat n) buf).
Proof.
  intros L m fb n.
  split.
  { intros hex Hout. unfold Palette.lookupIndex.
    assert (Hnone : m !! Palette.toLowerCase hex = None).
    { apply buildIndexMap_None. intros Hin.
      apply Hout, uniqueColors_elem, paddedPalette_subset, Hin. }
    by rewrite Hnone. }
  split; [apply fallbackIndex_lt|].
  split; [intros hex; apply (lookupIndex_lt hexToRgb)|].
  split; [intros colors y x; apply (cellIndex_lt hexToRgb)|].
  intros colors k buf Hres.
  assert (Hn : (2 <= n <= 256)%nat).
  { subst n. rewrite paddedPalette_length. apply targetSize_bounds. }
  eapply (colorGridToIndexedPixels_preserves
            (Forall (fun v => 0 <= v < Z.of_nat n))); [| |exact Hres].
  - intros b i y x Hb. apply storeByte_Forall; [|exact Hb].
    pose proof (cellIndex_lt hexToRgb palette colors y x) as Hlt.
    cbv zeta in Hlt. fold L m fb n in Hlt.
    rewrite Z.mod_small; lia.
  - apply Forall_replicate. lia.
Qed.

Lemma C7_fallback_coverage_witness :
  let L := Palette.buildPaletteLookup
             (fun _ => {| Palette.r := 0; Palette.g := 0; Palette.b := 0 |})
             ["#aa0000"; "#bb0000"; "#cc0000"] in
  Palette.lookupIndex (Palette.colorIndexMap L) (Palette.fallbackIndex L)
    "#123456" = Palette.fallbackIndex L /\
  Forall (fun v => 0 <= v < 4)
    [0; 0; 2; 2; 0; 0; 2; 2; 2; 2; 1; 1; 2; 2; 1; 1].
Proof.
  intros L.
  destruct (C7_fallback_coverage
              (fun _ => {| Palette.r := 0; Palette.g := 0; Palette.b := 0 |})
              ["#aa0000"; "#bb0000"; "#cc0000"])
    as (Hfb & _ & _ & _ & Hbuf).
  split.
  - apply Hfb. apply (bool_decide_unpack _). by vm_compute.
  - apply (Hbuf [["#AA0000"; "#123456"]; ["#cc0000"; "#bb0000"]] 2).
    by vm_compute.
Defined.

(** C10: [colorGridToIndexedPixels] throws ["Color grid is empty."] exactly
    when the grid has zero rows or its first row has zero columns; for a grid
    of width [w] and height [h], both non-zero, and block size [k] it returns
    a buffer of exactly [(w * k) * (h * k)] entries. *)
Theorem C10_empty_grid_error (colors : list (list string)) (k : Z)
    (m : gmap string nat) (fb : nat) :
  let h := length colors in
  let w := from_option length 0%nat (colors !! 0%nat) in
  let result := Palette.colorGridToIndexedPixels colors k m fb in
  (result = inl "Color grid is empty." <-> h = 0%nat \/ w = 0%nat) /\
  ((exists e, result = inl e) <-> h = 0%nat \/ w = 0%nat) /\
  (h <> 0%nat -> w <> 0%nat ->
   exists buf, result = inr buf /\
               Z.of_nat (length buf) = (Z.of_nat w * k) * (Z.of_nat h * k)).
Proof.
  intros h w result.
  assert (Hthrow : (h = 0%nat \/ w = 0%nat) ->
                   result = inl "Color grid is empty.").
  { intros He. subst result. unfold Palette.colorGridToIndexedPixels.
    fold h w. by rewrite decide_True. }
  assert (Hok : ~ (h = 0%nat \/ w = 0%nat) ->
                exists buf, result = inr buf /\
                  Z.of_nat (length buf) = (Z.of_nat w * k) * (Z.of_nat h * k)).
  { intros Hne.
    destruct result as [e|buf] eqn:Hres.
    { subst result. unfold Palette.colorGridToIndexedPixels in Hres.
      fold h w in Hres. by rewrite decide_False in Hres. }
    exists buf. split; [done|].
    assert (Hlen : length buf
                   = Z.to_nat (Z.of_nat w * k * (Z.of_nat h * k))).
    { eapply (colorGridToIndexedPixels_preserves
                (fun b => length b
                          = Z.to_nat (Z.of_nat w * k * (Z.of_nat h * k))));
        [| |exact Hres].
      - intros b i y x Hb. by rewrite storeByte_length.
      - apply length_replicate. }
    rewrite Hlen, Z2Nat.id; [done|].
    replace (Z.of_nat w * k * (Z.of_nat h * k))
      with (Z.of_nat w * Z.of_nat h * (k * k)) by ring.
    apply Z.mul_nonneg_nonneg; [lia|apply Z.square_nonneg]. }
  split; [|split].
  - split; [|exact Hthrow]. intros Hres.
    destruct (decide (h = 0%nat \/ w = 0%nat)) as [He|Hne]; [done|].
    destruct (Hok Hne) as (buf & Hbuf & _). congruence.
  - split; [|intros He; eexists; by apply Hthrow]. intros [e Hres].
    destruct (decide (h = 0%nat \/ w = 0%nat)) as [He|Hne]; [done|].
    destruct (Hok Hne) as (buf & Hbuf & _). congruence.
  - intros Hh Hw. apply Hok. tauto.
Qed.

Lemma C10_empty_grid_error_witness :
  exists buf,
    Palette.colorGridToIndexedPixels [["#aa0000"; "#bb0000"; "#cc0000"]] 2
      ∅ 0%nat = inr buf /\
    Z.of_nat (length buf) = (3 * 2) * (1 * 2).
Proof.
  apply (C10_empty_grid_error [["#aa0000"; "#bb0000"; "#cc0000"]] 2 ∅ 0%nat);
    cbn; lia.
Defined.

Section QuantizerFacts.
Import Quantizer.

Lemma byte_difference_square (u v : Z) :
  isByte u -> isByte v -> 0 <= (u - v) ^ 2 <= 65025.
Proof.
  unfold isByte. intros Hu Hv. rewrite Z.pow_2_r.
  set (d := u - v). assert (Hd : -255 <= d <= 255) by (subst d; lia).
  pose proof (Z.square_nonneg d) as Hsq.
  assert (Hprod : 0 <= (255 - d) * (255 + d))
    by (apply Z.mul_nonneg_nonneg; lia).
  lia.
Qed.

Lemma sqdist_bound (e : PaletteEntry) (r g b : Z) :
  byteEntry e -> isByte r -> isByte g -> isByte b ->
  0 <= sqdist e r g b <= 195075.
Proof.
  unfold byteEntry, sqdist. intros (Hr & Hg & Hb) Hr' Hg' Hb'.
  pose proof (byte_difference_square _ _ Hr Hr').
  pose proof (byte_difference_square _ _ Hg Hg').
  pose proof (byte_difference_square _ _ Hb Hb').
  lia.
Qed.

Lemma sqdist_lt_MAX_VALUE (e : PaletteEntry) (r g b : Z) :
  byteEntry e -> isByte r -> isByte g -> isByte b ->
  sqdist e r g b < MAX_VALUE.
Proof.
  intros He Hr Hg Hb.
  pose proof (sqdist_bound e r g b He Hr Hg Hb) as [_ Hle].
  eapply Z.le_lt_trans; [exact Hle|]. by vm_compute.
Qed.

Lemma nearestStep_inv (r g b : Z) (done_ : list PaletteEntry)
    (st : option PaletteEntry * Z) (entry : PaletteEntry) :
  nearestInv r g b done_ st ->
  nearestInv r g b (done_ ++ [entry])
    (nearestStep (Some r) (Some g) (Some b) st entry).
Proof.
  intros (i & e & -> & Hi & Hmin).
  unfold nearestStep, distance. cbn [mbind option_bind snd].
  fold (sqdist entry r g b).
  assert (Hlt : (i < length done_)%nat) by by eapply lookup_lt_Some.
  destruct (Z.ltb_spec (sqdist entry r g b) (sqdist e r g b)) as [Hless|Hge].
  - exists (length done_), entry. split; [done|]. split.
    { by rewrite lookup_app_r, Nat.sub_diag by lia. }
    intros j e' Hj.
    destruct (decide (j < length done_)%nat) as [Hjl|Hjl].
    + rewrite lookup_app_l in Hj by done.
      destruct (Hmin j e' Hj) as [Hle _]. split; lia.
    + rewrite lookup_app_r in Hj by lia.
      destruct (j - length done_)%nat as [|n] eqn:E; [|done].
      injection Hj as <-. split; lia.
  - exists i, e. split; [done|]. split.
    { by rewrite lookup_app_l. }
    intros j e' Hj.
    destruct (decide (j < length done_)%nat) as [Hjl|Hjl].
    + rewrite lookup_app_l in Hj by done. by apply Hmin.
    + rewrite lookup_app_r in Hj by lia.
      destruct (j - length done_)%nat as [|n] eqn:E; [|done].
      injection Hj as <-. split; lia.
Qed.

Lemma foldl_nearestStep_inv (r g b : Z) (rest done_ : list PaletteEntry)
    (st : option PaletteEntry * Z) :
  nearestInv r g b done_ st ->
  nearestInv r g b (done_ ++ rest)
    (foldl (nearestStep (Some r) (Some g) (Some b)) st rest).
Proof.
  revert done_ st. induction rest as [|entry rest IH]; intros done_ st Hinv.
  - by rewrite app_nil_r.
  - cbn [foldl]. rewrite (cons_middle entry done_ rest), app_assoc.
    apply IH. by apply nearestStep_inv.
Qed.

(** The search returns the first palette entry of least squared distance. *)
Lemma nearestEntry_spec (paletteData : list PaletteEntry) (r g b : Z) :
  paletteData <> [] -> Forall byteEntry paletteData ->
  isByte r -> isByte g -> isByte b ->
  exists (i : nat) (e : PaletteEntry),
    nearestEntry paletteData (Some r) (Some g) (Some b) = Some e /\
    paletteData !! i = Some e /\
    forall (j : nat) (e' : PaletteEntry), paletteData !! j = Some e' ->
      sqdist e r g b <= sqdist e' r g b /\
      ((j < i)%nat -> sqdist e r g b < sqdist e' r g b).
Proof.
  intros Hne Hbytes Hr Hg Hb.
  destruct paletteData as [|e0 rest]; [done|].
  unfold nearestEntry. cbn [lookup list_lookup foldl].
  assert (Hfirst : nearestInv r g b [e0]
            (nearestStep (Some r) (Some g) (Some b) (Some e0, MAX_VALUE) e0)).
  { unfold nearestStep, distance. cbn [mbind option_bind snd].
    fold (sqdist e0 r g b).
    assert (Hlt : sqdist e0 r g b < MAX_VALUE).
    { apply sqdist_lt_MAX_VALUE; [|done..]. by inversion Hbytes. }
    destruct (Z.ltb_spec (sqdist e0 r g b) MAX_VALUE); [|lia].
    exists 0%nat, e0. split; [done|]. split; [done|].
    intros [|j] e' Hj; [|done]. injection Hj as <-. split; lia. }
  destruct (foldl_nearestStep_inv r g b rest [e0] _ Hfirst)
    as (i & e & Hst & Hi & Hmin).
  exists i, e. cbn [app] in *. rewrite Hst. eauto.
Qed.


Lemma clamp_Int (z max : Z) :
  - 2 ^ 53 < max <= 2 ^ 53 ->
  clamp (Num.Int z) max = Num.Int (Z.min (max - 1) (Z.max 0 z)).
Proof.
  intros Hmax. unfold clamp. rewrite ofZ_small by lia.
  cbn [Num.max Num.le].
  destruct (Z.leb_spec 0 z); cbn [Num.min Num.le];
    case_match; f_equal; lia.
Qed.

Lemma pow2_m1 : (Double.pow2 (-1) == 1 # 2)%Q.
Proof. reflexivity. Qed.


Lemma pow2_m53_small : (0 < Double.pow2 (-53) /\ Double.pow2 (-53) <= 1 # 4)%Q.
Proof.
  split; [apply pow2_pos|].
  pose proof (pow2_le (-53) (-2) ltac:(lia)) as H.
  assert (Double.pow2 (-2) == 1 # 4)%Q by reflexivity. lra.
Qed.

Lemma pow2_m51 : (Double.pow2 (-51) == 4 * Double.pow2 (-53))%Q.
Proof.
  replace (-51) with (2 + -53) by lia. rewrite pow2_add. reflexivity.
Qed.

Lemma three_roundings (d w g s r1 q2 r2 r3 v : Q) :
  (0 < d -> d <= 1 # 4 -> 0 < g -> 0 <= s -> 0 <= w ->
   w - w * d <= r1 -> r1 <= w + w * d ->
   q2 * g == r1 -> 0 <= q2 -> 0 <= r2 ->
   q2 - q2 * d <= r2 -> r2 <= q2 + q2 * d ->
   r2 * s - r2 * s * d <= r3 -> r3 <= r2 * s + r2 * s * d ->
   v * g == w * s ->
   v - v * (4 * d) <= r3 /\ r3 <= v + v * (4 * d))%Q.
Proof.
  intros Hd Hd4 Hg Hs Hw H1l H1h Hq Hq0 Hr0 H2l H2h H3l H3h Hv.
  assert (Hsg : (0 <= s * g)%Q) by (apply Qmult_le_0_compat; lra).
  assert (Hvg : (0 <= v * g)%Q).
  { rewrite Hv. apply Qmult_le_0_compat; lra. }
  assert (Hcube_hi : ((1 + d) * (1 + d) * (1 + d) <= 1 + 4 * d)%Q) by nra.
  assert (Hcube_lo : (1 - 4 * d <= (1 - d) * (1 - d) * (1 - d))%Q) by nra.
  pose proof (Qmult_le_compat_r _ _ g H3h ltac:(lra)) as A3.
  pose proof (Qmult_le_compat_r _ _ g H3l ltac:(lra)) as B3.
  pose proof (Qmult_le_compat_r _ _ (s * g * (1 + d)) H2h
                ltac:(apply Qmult_le_0_compat; lra)) as A2.
  pose proof (Qmult_le_compat_r _ _ (s * g * (1 - d)) H2l
                ltac:(apply Qmult_le_0_compat; lra)) as B2.
  pose proof (Qmult_le_compat_r _ _ (s * ((1 + d) * (1 + d))) H1h
                ltac:(apply Qmult_le_0_compat; [lra|nra])) as A1.
  pose proof (Qmult_le_compat_r _ _ (s * ((1 - d) * (1 - d))) H1l
                ltac:(apply Qmult_le_0_compat; [lra|nra])) as B1.
  pose proof (Qmult_le_compat_r _ _ (v * g) Hcube_hi Hvg) as A0.
  pose proof (Qmult_le_compat_r _ _ (v * g) Hcube_lo Hvg) as B0.
  assert (Hq' : (q2 * (s * g * (1 + d)) * (1 + d)
                 == r1 * (s * ((1 + d) * (1 + d))))%Q).
  { rewrite <- Hq. ring. }
  assert (Hq'' : (q2 * (s * g * (1 - d)) * (1 - d)
                  == r1 * (s * ((1 - d) * (1 - d))))%Q).
  { rewrite <- Hq. ring. }
  assert (Hv' : ((1 + d) * (1 + d) * (1 + d) * (v * g)
                 == (w + w * d) * (s * ((1 + d) * (1 + d))))%Q).
  { rewrite Hv. ring. }
  assert (Hv'' : ((1 - d) * (1 - d) * (1 - d) * (v * g)
                  == (w - w * d) * (s * ((1 - d) * (1 - d))))%Q).
  { rewrite Hv. ring. }
  split; apply Qmult_le_r with (z := g); lra.
Qed.

(** The sampling formula in doubles, against its exact value: three
    roundings, each off by at most [2 ^ -53] of the value. *)
Lemma sourceCoord_error (coord gridDim sourceDim : Z) :
  0 <= coord < gridDim -> 1 <= sourceDim ->
  gridDim <= 2 ^ 50 -> sourceDim <= 2 ^ 50 ->
  let v := ((inject_Z coord + (1 # 2)) / inject_Z gridDim
            * inject_Z sourceDim)%Q in
  exists r : Q,
    sourceCoord coord gridDim sourceDim = Num.Int (Qfloor r) /\
    (v - v * Double.pow2 (-51) <= r /\ r <= v + v * Double.pow2 (-51))%Q.
Proof.
  intros Hc Hs Hg50 Hs50 v.
  unfold sourceCoord, Double.ofZ.
  destruct (round64_Z coord ltac:(lia)) as (rc & -> & Hrc).
  destruct (round64_Z gridDim ltac:(lia)) as (rg & -> & Hrg).
  destruct (round64_Z sourceDim ltac:(lia)) as (rs & -> & Hrs).
  assert (Hc0 : (0 <= inject_Z coord)%Q).
  { change 0%Q with (inject_Z 0). rewrite <- Zle_Qle. lia. }
  assert (Hcg : (inject_Z coord + 1 <= inject_Z gridDim)%Q).
  { change 1%Q with (inject_Z 1). rewrite <- inject_Z_plus, <- Zle_Qle. lia. }
  assert (Hg53 : (inject_Z gridDim <= Double.pow2 50)%Q).
  { rewrite (pow2_Z 50) by lia. by rewrite <- Zle_Qle. }
  assert (Hs1 : (1 <= inject_Z sourceDim)%Q).
  { change 1%Q with (inject_Z 1). rewrite <- Zle_Qle. lia. }
  assert (Hs53 : (inject_Z sourceDim <= Double.pow2 50)%Q).
  { rewrite (pow2_Z 50) by lia. by rewrite <- Zle_Qle. }
  set (c := inject_Z coord) in *. set (g := inject_Z gridDim) in *.
  set (s := inject_Z sourceDim) in *.
  assert (Hrg0 : Qeq_bool rg 0 = false).
  { destruct (Qeq_bool rg 0) eqn:Hb; [|done].
    apply Qeq_bool_iff in Hb. lra. }
  destruct pow2_m53_small as [Hd0 Hd4].
  pose proof pow2_m51 as H51.
  pose proof pow2_m1 as Hhalf.
  pose proof (pow2_le (-1022) (-52) ltac:(lia)) as Hsmall.
  pose proof (pow2_pos (-1022)) as Hp1022.
  pose proof (pow2_le (-1022) (-53) ltac:(lia)) as Hsmall'.
  assert (HB2 : (Double.pow2 (-52) == 2 * Double.pow2 (-53))%Q).
  { replace (-52) with (1 + -53) by lia. rewrite pow2_add. reflexivity. }
  assert (H52 : (Double.pow2 (-52) * Double.pow2 50 == 1 # 4)%Q).
  { rewrite <- pow2_add. reflexivity. }
  assert (H50 : (1 <= Double.pow2 50)%Q).
  { change 1%Q with (Double.pow2 0). apply pow2_le. lia. }
  assert (H1023 : (Double.pow2 50 * Double.pow2 50 * 4 <= Double.pow2 1023)%Q).
  { change 4%Q with (Double.pow2 2). rewrite <- !pow2_add.
    apply pow2_le. lia. }
  set (d := Double.pow2 (-53)) in *. set (T := Double.pow2 (-51)) in *.
  set (A := Double.pow2 (-1022)) in *. set (B := Double.pow2 (-52)) in *.
  set (C := Double.pow2 50) in *. set (M := Double.pow2 1023) in *.
  (* first rounding: coord + 0.5 *)
  cbn [Double.add].
  destruct (round64_normal_finite (rc + (1 # 2)))
    as (r1 & -> & _ & Hr1lo & Hr1hi); [fold A; nra|fold M; nra|].
  fold d in Hr1lo, Hr1hi.
  assert (Hr1pos : (1 # 4 <= r1 /\ r1 <= 2 * C)%Q) by nra.
  (* second rounding: the quotient *)
  cbn [Double.div]. rewrite Hrg0.
  assert (Hq2 : (r1 / rg * g == r1)%Q) by (rewrite Hrg; field; lra).
  assert (Hq2lo : (B <= r1 / rg)%Q).
  { apply Qle_shift_div_l; [lra|]. nra. }
  assert (Hq2hi : (r1 / rg <= 2 * C)%Q).
  { apply Qle_shift_div_r; [lra|]. nra. }
  destruct (round64_normal_finite (r1 / rg))
    as (r2 & -> & _ & Hr2lo & Hr2hi); [fold A; lra|fold M; nra|].
  fold d in Hr2lo, Hr2hi.
  set (q2 := (r1 / rg)%Q) in *.
  assert (Hr2pos : (B * (3 # 4) <= r2 /\ r2 <= 4 * C)%Q) by nra.
  (* third rounding: the product *)
  cbn [Double.mul].
  assert (Hp3lo : (A <= r2 * rs)%Q).
  { assert (B * (3 # 4) * 1 <= r2 * rs)%Q; [|lra].
    apply Qmult_le_compat_nonneg; lra. }
  assert (Hp3hi : (r2 * rs <= M)%Q).
  { assert (r2 * rs <= 4 * C * C)%Q; [|lra].
    apply Qmult_le_compat_nonneg; lra. }
  destruct (round64_normal_finite (r2 * rs))
    as (r3 & -> & _ & Hr3lo & Hr3hi); [done|done|].
  fold d in Hr3lo, Hr3hi.
  exists r3. split; [reflexivity|].
  assert (Hv : (v * g == (c + (1 # 2)) * s)%Q).
  { subst v. fold c g s. field. lra. }
  assert (Hw : (rc + (1 # 2) == c + (1 # 2))%Q) by lra.
  assert (Hq2g : (q2 * g == r1)%Q) by lra.
  assert (Hq20 : (0 <= q2)%Q) by lra.
  assert (Hr20 : (0 <= r2)%Q) by lra.
  rewrite H51.
  apply (three_roundings d (c + (1 # 2)) g s r1 q2 r2 r3 v); try lra.
  - rewrite <- Hw. lra.
  - rewrite <- Hw. lra.
  - rewrite <- Hrs. lra.
  - rewrite <- Hrs. lra.
Qed.

(** Hence the computed cell is the exact one, [(2c+1)s / (2g)] rounded
    down, except that a value that is exactly an integer may come out one
    lower. *)
Lemma sourceCoord_floor (coord gridDim sourceDim : Z) :
  0 <= coord < gridDim -> 1 <= sourceDim ->
  2 * gridDim * sourceDim <= 2 ^ 50 ->
  let N := (2 * coord + 1) * sourceDim in
  exists z : Z,
    sourceCoord coord gridDim sourceDim = Num.Int z /\
    N / (2 * gridDim) - 1 <= z <= N / (2 * gridDim) /\
    (N mod (2 * gridDim) <> 0 -> z = N / (2 * gridDim)).
Proof.
  intros Hc Hs Hbound N.
  destruct (sourceCoord_error coord gridDim sourceDim Hc Hs
              ltac:(nia) ltac:(nia)) as (r & Heq & Hlo & Hhi).
  exists (Qfloor r). split; [done|].
  pose proof (Qfloor_le r) as Hfl. pose proof (Qlt_floor r) as Hfu.
  set (z := Qfloor r) in *.
  set (v := ((inject_Z coord + (1 # 2)) / inject_Z gridDim
             * inject_Z sourceDim)%Q) in *.
  assert (Hg0 : (0 < inject_Z gridDim)%Q).
  { change 0%Q with (inject_Z 0). rewrite <- Zlt_Qlt. lia. }
  assert (Hv : (v * (2 * inject_Z gridDim) == inject_Z N)%Q).
  { subst v N. rewrite !inject_Z_mult, inject_Z_plus, inject_Z_mult.
    change (inject_Z 2) with 2%Q. change (inject_Z 1) with 1%Q.
    field. lra. }
  assert (HN : (0 <= inject_Z N /\ inject_Z N <= Double.pow2 50)%Q).
  { rewrite (pow2_Z 50) by lia. change 0%Q with (inject_Z 0).
    rewrite <- !Zle_Qle. subst N. nia. }
  assert (HT : (Double.pow2 (-51) * Double.pow2 50 == 1 # 2)%Q).
  { rewrite <- pow2_add. reflexivity. }
  pose proof (pow2_pos (-51)) as HT0.
  assert (Herr : (inject_Z N * Double.pow2 (-51) <= 1 # 2)%Q).
  { rewrite <- HT, (Qmult_comm (Double.pow2 (-51))).
    apply Qmult_le_compat_r; lra. }
  assert (Hr2g : (inject_Z N - (1 # 2) <= r * (2 * inject_Z gridDim)
                  /\ r * (2 * inject_Z gridDim)
                     <= inject_Z N + (1 # 2))%Q).
  { pose proof (Qmult_le_compat_r _ _ (2 * inject_Z gridDim) Hlo
                  ltac:(lra)) as A.
    pose proof (Qmult_le_compat_r _ _ (2 * inject_Z gridDim) Hhi
                  ltac:(lra)) as B.
    assert ((v - v * Double.pow2 (-51)) * (2 * inject_Z gridDim)
            == inject_Z N - inject_Z N * Double.pow2 (-51))%Q as EA.
    { rewrite <- Hv. ring. }
    assert ((v + v * Double.pow2 (-51)) * (2 * inject_Z gridDim)
            == inject_Z N + inject_Z N * Double.pow2 (-51))%Q as EB.
    { rewrite <- Hv. ring. }
    lra. }
  destruct Hr2g as [Hrlo Hrhi].
  assert (Hup : 2 * (z * (2 * gridDim)) <= 2 * N + 1).
  { rewrite Zle_Qle, inject_Z_plus, !inject_Z_mult.
    change (inject_Z 2) with 2%Q. change (inject_Z 1) with 1%Q.
    pose proof (Qmult_le_compat_r _ _ (2 * inject_Z gridDim) Hfl
                  ltac:(lra)) as A.
    lra. }
  assert (Hdown : 2 * N - 1 < 2 * ((z + 1) * (2 * gridDim))).
  { rewrite Zlt_Qlt. unfold Z.sub.
    rewrite !inject_Z_plus, !inject_Z_mult, inject_Z_plus.
    change (inject_Z 2) with 2%Q. change (inject_Z 1) with 1%Q.
    change (inject_Z (- (1))) with (-1)%Q.
    pose proof (Qmult_lt_compat_r _ _ (2 * inject_Z gridDim)
                  ltac:(lra) Hfu) as A.
    rewrite inject_Z_plus in A. change (inject_Z 1) with 1%Q in A.
    lra. }
  pose proof (Z.div_mod N (2 * gridDim) ltac:(lia)) as Hdm.
  pose proof (Z.mod_pos_bound N (2 * gridDim) ltac:(lia)) as Hm.
  set (E := N / (2 * gridDim)) in *. set (m := N mod (2 * gridDim)) in *.
  split; [|intros Hm0]; nia.
Qed.

(** A grid of the source's own size samples every pixel at its place. *)
Lemma sourceCoord_same (coord dim : Z) :
  0 <= coord < dim -> dim <= 2 ^ 50 ->
  sourceCoord coord dim dim = Num.Int coord.
Proof.
  intros Hc Hbound.
  destruct (sourceCoord_error coord dim dim Hc ltac:(lia) Hbound Hbound)
    as (r & -> & Hlo & Hhi).
  f_equal.
  pose proof (Qfloor_le r) as Hfl. pose proof (Qlt_floor r) as Hfu.
  set (z := Qfloor r) in *.
  set (v := ((inject_Z coord + (1 # 2)) / inject_Z dim * inject_Z dim)%Q)
    in *.
  assert (Hd0 : (0 < inject_Z dim)%Q).
  { change 0%Q with (inject_Z 0). rewrite <- Zlt_Qlt. lia. }
  assert (Hv : (v == inject_Z coord + (1 # 2))%Q).
  { subst v. field. lra. }
  assert (Hc0 : (0 <= inject_Z coord)%Q).
  { change 0%Q with (inject_Z 0). rewrite <- Zle_Qle. lia. }
  assert (Hc50 : (inject_Z coord + 1 <= Double.pow2 50)%Q).
  { rewrite (pow2_Z 50) by lia. change 1%Q with (inject_Z 1).
    rewrite <- inject_Z_plus, <- Zle_Qle. lia. }
  assert (HT : (Double.pow2 (-51) * Double.pow2 50 == 1 # 2)%Q).
  { rewrite <- pow2_add. reflexivity. }
  pose proof (pow2_pos (-51)) as HT0.
  assert (Herr : (v * Double.pow2 (-51) < 1 # 2)%Q).
  { rewrite <- HT, (Qmult_comm (Double.pow2 (-51))).
    apply Qmult_lt_compat_r; lra. }
  rewrite inject_Z_plus in Hfu. change (inject_Z 1) with 1%Q in Hfu.
  assert (Hlow : (inject_Z coord < inject_Z z + 1)%Q) by lra.
  assert (Hupp : (inject_Z z < inject_Z coord + 1)%Q) by lra.
  change 1%Q with (inject_Z 1) in Hlow, Hupp.
  rewrite <- inject_Z_plus, <- Zlt_Qlt in Hlow, Hupp. lia.
Qed.

End QuantizerFacts.

Section QuantizeGridFacts.
Import Quantizer.

Lemma mapM_seqZ_lookup {A : Type} (f : Z -> option A) (n : Z) :
  (forall z, 0 <= z < n -> is_Some (f z)) ->
  exists k : list A,
    mapM f (seqZ 0 n) = Some k /\ length k = Z.to_nat n /\
    forall z, 0 <= z < n -> k !! Z.to_nat z = f z.
Proof.
  intros Hsome.
  assert (Hall : is_Some (mapM f (seqZ 0 n))).
  { apply mapM_is_Some, Forall_lookup. intros i z Hi.
    apply lookup_seqZ in Hi as [-> Hlt]. apply Hsome. lia. }
  destruct Hall as [k Hk]. exists k. split; [exact Hk|].
  pose proof (mapM_Some_1 _ _ _ Hk) as Hall2.
  split.
  { rewrite <- (Forall2_length _ _ _ Hall2). apply length_seqZ. }
  intros z Hz.
  assert (Hl : seqZ 0 n !! Z.to_nat z = Some z).
  { apply lookup_seqZ. lia. }
  destruct (Forall2_lookup_l _ _ _ _ _ Hall2 Hl) as (y & Hy & Hfy).
  by rewrite Hy, Hfy.
Qed.


End QuantizeGridFacts.



Section ClearRegionFacts.
Import Decoder.

Lemma fill_lookup (buffer : list Z) (value : Z) (start end_ p : nat) :
  fill buffer value start end_ !! p
  = (fun v => if (start <=? p)%nat && (p <? end_)%nat then value else v)
      <$> buffer !! p.
Proof. unfold fill. by rewrite list_lookup_imap. Qed.

Lemma fill_length (buffer : list Z) (value : Z) (start end_ : nat) :
  length (fill buffer value start end_) = length buffer.
Proof. apply length_imap. Qed.

Lemma foldl_fill_lookup (canvasWidth : nat) (frame : FrameInfo.t)
    (rows : nat) (buffer : list Z) (p : nat) :
  foldl (clearRow canvasWidth frame) buffer (seq 0 rows) !! p
  = (fun v => if inRows canvasWidth frame rows p then 0 else v)
      <$> buffer !! p.
Proof.
  induction rows as [|n IH].
  - cbn. by destruct (buffer !! p).
  - rewrite seq_S, foldl_app. cbn [foldl Nat.add].
    unfold clearRow at 1. cbv zeta.
    rewrite fill_lookup, IH. unfold inRows.
    rewrite seq_S, existsb_app. cbn [existsb Nat.add].
    rewrite orb_false_r.
    destruct (buffer !! p) as [v|]; [|done]. cbn [fmap option_fmap option_map].
    f_equal.
    destruct (existsb _ (seq 0 n)); cbn [orb];
      by destruct ((_ <=? p)%nat && (p <? _)%nat).
Qed.

Lemma clearFrameRegion_lookup (buffer : list Z) (canvasWidth : nat)
    (frame : FrameInfo.t) (p : nat) :
  clearFrameRegion buffer canvasWidth frame !! p
  = (fun v => if inRows canvasWidth frame (FrameInfo.height frame) p
              then 0 else v) <$> buffer !! p.
Proof. apply foldl_fill_lookup. Qed.

(** The byte spans of the rows are the frame's rectangle when the frame does
    not stick out of the canvas on the right. *)
Lemma row_span_iff (W x y w h p : nat) :
  (x + w <= W)%nat ->
  (exists row, (row < h)%nat /\
     (((y + row) * W + x) * 4 <= p
      /\ p < ((y + row) * W + x) * 4 + w * 4)%nat)
  <-> ((x <= (p / 4) mod W /\ (p / 4) mod W < x + w)
       /\ (y <= p / 4 / W /\ p / 4 / W < y + h))%nat.
Proof.
  intros Hfit.
  pose proof (Nat.div_mod_eq p 4) as Hp.
  pose proof (Nat.mod_upper_bound p 4 ltac:(lia)) as Hp4.
  set (q := (p / 4)%nat) in *.
  destruct (decide (W = 0%nat)) as [->|HW].
  { assert (w = 0%nat) by lia. subst w. split.
    - intros (row & _ & H1 & H2). lia.
    - intros [[H1 H2] _]. lia. }
  pose proof (Nat.div_mod_eq q W) as Hq.
  pose proof (Nat.mod_upper_bound q W HW) as HqW.
  split.
  - intros (row & Hrow & Hlo & Hhi).
    set (a := ((y + row) * W)%nat) in *.
    assert (Ha : (a + x <= q /\ q < a + x + w)%nat) by lia.
    assert (Hdiv : (y + row)%nat = (q / W)%nat).
    { apply (Nat.div_unique q W (y + row) (q - a)); [lia|]. subst a. lia. }
    assert (Hmod : (q mod W = q - a)%nat).
    { rewrite <- Hdiv in Hq. subst a. lia. }
    rewrite <- Hdiv, Hmod. lia.
  - intros [[Hx1 Hx2] [Hy1 Hy2]].
    exists (q / W - y)%nat. split; [lia|].
    replace (y + (q / W - y))%nat with (q / W)%nat by lia.
    replace (q / W * W)%nat with (W * (q / W))%nat by lia.
    lia.
Qed.

Lemma inRows_inRect (canvasWidth : nat) (frame : FrameInfo.t) (p : nat) :
  (FrameInfo.x frame + FrameInfo.width frame <= canvasWidth)%nat ->
  inRows canvasWidth frame (FrameInfo.height frame) p
  = inRect canvasWidth frame (p / 4).
Proof.
  intros Hfit. apply eq_true_iff_eq.
  pose proof (row_span_iff canvasWidth (FrameInfo.x frame)
                (FrameInfo.y frame) (FrameInfo.width frame)
                (FrameInfo.height frame) p Hfit) as Hspan.
  unfold inRows, inRect, rowStart. rewrite existsb_exists.
  rewrite !andb_true_iff, !Nat.leb_le, !Nat.ltb_lt.
  split.
  - intros (row & Hin & Hrow). apply in_seq in Hin.
    apply andb_true_iff in Hrow as [H1 H2].
    apply Nat.leb_le in H1. apply Nat.ltb_lt in H2.
    destruct Hspan as [Hto _].
    destruct Hto as [[? ?] [? ?]]; [|done].
    exists row. split; [lia|]. split; lia.
  - intros [[[Hx1 Hx2] Hy1] Hy2].
    destruct Hspan as [_ Hfrom].
    destruct Hfrom as (row & Hrow & H1 & H2); [done|].
    exists row. split; [apply in_seq; lia|].
    apply andb_true_iff. split; [by apply Nat.leb_le|by apply Nat.ltb_lt].
Qed.

(** Code and specification clear the same bytes. *)
Lemma clearFrameRegion_clearRect (buffer : list Z) (canvasWidth : nat)
    (frame : FrameInfo.t) :
  (FrameInfo.x frame + FrameInfo.width frame <= canvasWidth)%nat ->
  clearFrameRegion buffer canvasWidth frame
  = clearRect canvasWidth frame buffer.
Proof.
  intros Hfit. apply list_eq. intros p.
  rewrite clearFrameRegion_lookup. unfold clearRect.
  rewrite list_lookup_imap. by rewrite inRows_inRect.
Qed.

Lemma clearRect_length (canvasWidth : nat) (frame : FrameInfo.t)
    (canvas : list Z) :
  length (clearRect canvasWidth frame canvas) = length canvas.
Proof. apply length_imap. Qed.

Lemma clearFrameRegion_length (buffer : list Z) (canvasWidth : nat)
    (frame : FrameInfo.t) :
  length (clearFrameRegion buffer canvasWidth frame) = length buffer.
Proof.
  unfold clearFrameRegion.
  apply (foldl_preserves (fun b => length b = length buffer)); [done|].
  intros b row Hb. unfold clearRow. by rewrite fill_length.
Qed.

Lemma typedArraySet_same_length (target source : list Z) :
  length source = length target -> typedArraySet target source = source.
Proof.
  intros Hlen. unfold typedArraySet.
  rewrite drop_ge by lia. rewrite app_nil_r. apply take_ge. lia.
Qed.

End ClearRegionFacts.

Section HeapFacts.
Import Decoder.

Lemma deref_store_eq (h : heap) (p : ref) (content : list Z) :
  (p < length h)%nat -> deref (store h p content) p = content.
Proof.
  intros Hp. unfold deref, store. by rewrite list_lookup_insert_eq.
Qed.

Lemma deref_store_ne (h : heap) (p q : ref) (content : list Z) :
  p <> q -> deref (store h p content) q = deref h q.
Proof.
  intros Hpq. unfold deref, store. by rewrite list_lookup_insert_ne.
Qed.

Lemma store_length (h : heap) (p : ref) (content : list Z) :
  length (store h p content) = length h.
Proof. apply length_insert. Qed.

Lemma deref_app_old (h : heap) (content : list Z) (q : ref) :
  (q < length h)%nat -> deref (h ++ [content]) q = deref h q.
Proof. intros Hq. unfold deref. by rewrite lookup_app_l. Qed.

Lemma deref_app_new (h : heap) (content : list Z) :
  deref (h ++ [content]) (length h) = content.
Proof.
  unfold deref. rewrite lookup_app_r by lia. by rewrite Nat.sub_diag.
Qed.

(** One round of the loop, seen from outside: the canvas (reference 0) ends
    as the state machine says, the captured frame is a new buffer holding the
    composited canvas, and no older buffer changes. *)
Lemma decodeFrame_spec (reader : Reader.t) (h : heap)
    (frames : list FrameData.t) (i : nat) (frame : FrameInfo.t) :
  blitKeepsLength reader ->
  frameFits reader frame ->
  (0 < length h)%nat ->
  let canvas := deref h 0%nat in
  let composited := Reader.decodeAndBlitFrameRGBA reader i canvas in
  exists (h' : heap) (fr : FrameData.t),
    decodeFrame reader 0%nat (h, frames) (i, frame) = (h', frames ++ [fr]) /\
    deref h' 0%nat
    = dispose (Reader.width reader) frame (takeSnapshot frame canvas)
        composited /\
    deref h' (FrameData.pixels fr) = composited /\
    FrameData.delay fr = FrameInfo.delay frame /\
    (length h <= FrameData.pixels fr < length h')%nat /\
    (forall q, (0 < q < length h)%nat -> deref h' q = deref h q).
Proof.
  intros Hkeep Hfit Hh. cbv zeta.
  unfold decodeFrame, dispose, takeSnapshot, alloc.
  destruct (FrameInfo.disposal frame =? 3) eqn:E3.
  - assert (E2 : (FrameInfo.disposal frame =? 2) = false).
    { apply Z.eqb_eq in E3. rewrite E3. reflexivity. }
    rewrite E2.
    rewrite !(deref_app_old h (deref h 0%nat) 0%nat) by lia.
    set (canvas := deref h 0%nat).
    set (composited := Reader.decodeAndBlitFrameRGBA reader i canvas).
    set (h2 := store (h ++ [canvas]) 0%nat composited).
    assert (Hh2 : length h2 = S (length h)).
    { subst h2. rewrite store_length, length_app. cbn. lia. }
    assert (Hd2 : deref h2 0%nat = composited).
    { subst h2. apply deref_store_eq. rewrite length_app. lia. }
    rewrite Hd2. set (h3 := h2 ++ [composited]).
    assert (Hh3 : length h3 = S (S (length h))).
    { subst h3. rewrite length_app, Hh2. cbn. lia. }
    assert (Hcur : deref h3 0%nat = composited).
    { subst h3. rewrite deref_app_old by lia. exact Hd2. }
    assert (Hsnap : deref h3 (length h) = canvas).
    { subst h3. rewrite deref_app_old by lia. subst h2.
      rewrite deref_store_ne by lia. apply deref_app_new. }
    rewrite Hcur, Hsnap.
    rewrite typedArraySet_same_length
      by (subst composited; by rewrite Hkeep).
    eexists _, _. split; [reflexivity|].
    cbn [FrameData.pixels FrameData.delay]. rewrite store_length, Hh2, Hh3.
    split. { apply deref_store_eq. lia. }
    split. { rewrite deref_store_ne by lia. subst h3.
             rewrite <- Hh2. apply deref_app_new. }
    split; [done|]. split; [lia|].
    intros q Hq. rewrite deref_store_ne by lia. subst h3.
    rewrite deref_app_old by lia. subst h2.
    rewrite deref_store_ne by lia. apply deref_app_old. lia.
  - set (canvas := deref h 0%nat).
    set (composited := Reader.decodeAndBlitFrameRGBA reader i canvas).
    set (h2 := store h 0%nat composited).
    assert (Hh2 : length h2 = length h) by apply store_length.
    assert (Hd2 : deref h2 0%nat = composited).
    { subst h2. by apply deref_store_eq. }
    rewrite Hd2. set (h3 := h2 ++ [composited]).
    assert (Hh3 : length h3 = S (length h)).
    { subst h3. rewrite length_app, Hh2. cbn. lia. }
    assert (Hcur : deref h3 0%nat = composited).
    { subst h3. rewrite deref_app_old by lia. exact Hd2. }
    assert (Hnew : deref h3 (length h2) = composited).
    { subst h3. apply deref_app_new. }
    assert (Hold : forall q, (0 < q < length h)%nat ->
                             deref h3 q = deref h q).
    { intros q Hq. subst h3. rewrite deref_app_old by lia.
      subst h2. apply deref_store_ne. lia. }
    destruct (FrameInfo.disposal frame =? 2) eqn:E2.
    + rewrite Hcur, (clearFrameRegion_clearRect _ _ _
                       (Hfit (proj1 (Z.eqb_eq _ _) E2))).
      eexists _, _. split; [reflexivity|].
      cbn [FrameData.pixels FrameData.delay]. rewrite store_length, Hh2, Hh3.
      split. { apply deref_store_eq. lia. }
      split. { rewrite deref_store_ne by lia. by rewrite <- Hh2. }
      split; [done|]. split; [lia|].
      intros q Hq. rewrite deref_store_ne by lia. by apply Hold.
    + eexists _, _. split; [reflexivity|].
      cbn [FrameData.pixels FrameData.delay]. rewrite Hh2, Hh3.
      split; [exact Hcur|].
      split. { by rewrite <- Hh2. }
      split; [done|]. split; [lia|]. exact Hold.
Qed.

Lemma frameBuffers_ext (h h' : heap) (frames : list FrameData.t) :
  Forall (fun fr => deref h' (FrameData.pixels fr)
                    = deref h (FrameData.pixels fr)) frames ->
  frameBuffers h' frames = frameBuffers h frames.
Proof.
  unfold frameBuffers. induction 1 as [|fr frames Hfr _ IH]; [done|].
  cbn [fmap list_fmap]. by rewrite Hfr, IH.
Qed.

(** The whole loop against the state machine. *)
Lemma decode_loop_spec (reader : Reader.t) (infos : list FrameInfo.t) :
  blitKeepsLength reader ->
  Forall (frameFits reader) infos ->
  forall (i : nat) (h : heap) (frames : list FrameData.t),
    (0 < length h)%nat ->
    Forall (fun fr => (0 < FrameData.pixels fr < length h)%nat) frames ->
    NoDup (FrameData.pixels <$> frames) ->
    exists (h' : heap) (frames' : list FrameData.t),
      foldl (decodeFrame reader 0%nat) (h, frames)
            (zip (seq i (length infos)) infos) = (h', frames') /\
      frameBuffers h' frames'
      = frameBuffers h frames
        ++ machineFrames reader i infos (deref h 0%nat) /\
      Forall (fun fr => (0 < FrameData.pixels fr < length h')%nat) frames' /\
      NoDup (FrameData.pixels <$> frames') /\
      (0 < length h')%nat.
Proof.
  intros Hkeep Hfits. induction Hfits as [|frame infos Hfit _ IH];
    intros i h frames Hh Hrefs Hnd.
  - exists h, frames. cbn. by rewrite app_nil_r.
  - cbn [length seq zip zip_with foldl machineFrames].
    destruct (decodeFrame_spec reader h frames i frame Hkeep Hfit Hh)
      as (h1 & fr & -> & Hcanvas & Hpix & Hdelay & Hfresh & Hold).
    assert (Hh1 : (0 < length h1)%nat) by lia.
    assert (Hrefs1 : Forall (fun fr' =>
              (0 < FrameData.pixels fr' < length h1)%nat) (frames ++ [fr])).
    { apply Forall_app. split.
      - eapply Forall_impl; [exact Hrefs|]. cbn. intros fr' ?. lia.
      - apply Forall_singleton. lia. }
    assert (Hnd1 : NoDup (FrameData.pixels <$> frames ++ [fr])).
    { rewrite fmap_app. apply NoDup_app. split; [exact Hnd|]. split.
      - intros p Hp Hp'. cbn in Hp'. apply list_elem_of_singleton in Hp'.
        apply list_elem_of_fmap in Hp as (fr' & -> & Hin).
        rewrite Forall_forall in Hrefs. specialize (Hrefs fr' Hin). lia.
      - cbn. apply NoDup_singleton. }
    destruct (IH (S i) h1 (frames ++ [fr]) Hh1 Hrefs1 Hnd1)
      as (h' & frames' & Hfold & Hbufs & Hrefs' & Hnd' & Hh').
    exists h', frames'. split; [exact Hfold|].
    split; [|done]. rewrite Hbufs, Hcanvas.
    unfold frameBuffers at 1. rewrite fmap_app, <- app_assoc.
    cbn [fmap list_fmap app]. rewrite Hpix, Hdelay. f_equal.
    apply frameBuffers_ext.
    eapply Forall_impl; [exact Hrefs|]. cbn. intros fr' ?. apply Hold. lia.
Qed.

End HeapFacts.

Section DecoderFacts.
Import Decoder.

Lemma extractGifSource_spec (reader : Reader.t) :
  Reader.frameInfo reader <> [] ->
  blitKeepsLength reader ->
  Forall (frameFits reader) (Reader.frameInfo reader) ->
  exists (source : Source.t) (h : heap),
    extractGifSource reader = inr (source, h) /\
    Source.width source = Reader.width reader /\
    Source.height source = Reader.height reader /\
    Source.loopCount source = Reader.loopCount reader /\
    frameBuffers h (Source.frames source)
    = machineFrames reader 0 (Reader.frameInfo reader)
        (replicate (Reader.width reader * Reader.height reader * 4) 0) /\
    NoDup (FrameData.pixels <$> Source.frames source) /\
    Forall (fun fr => FrameData.pixels fr <> 0%nat) (Source.frames source).
Proof.
  intros Hne Hkeep Hfits. unfold extractGifSource, Reader.numFrames, alloc.
  rewrite decide_False by (by destruct (Reader.frameInfo reader)).
  cbn [app length].
  destruct (decode_loop_spec reader (Reader.frameInfo reader) Hkeep Hfits
              0%nat
              [replicate (Reader.width reader * Reader.height reader * 4) 0]
              [])
    as (h & frames & -> & Hbufs & Hrefs & Hnd & _).
  { cbn. lia. }
  { constructor. }
  { cbn. constructor. }
  eexists _, h. split; [reflexivity|]. cbn [Source.width Source.height
    Source.loopCount Source.frames].
  split; [reflexivity|]. split; [reflexivity|]. split; [reflexivity|].
  split; [exact Hbufs|]. split; [exact Hnd|].
  eapply Forall_impl; [exact Hrefs|]. cbn. intros fr ?. lia.
Qed.

(** Clearing the rectangle of a frame that covers the whole canvas leaves a
    fully transparent canvas. *)
Lemma clearRect_full (W H : nat) (frame : FrameInfo.t) (canvas : list Z) :
  FrameInfo.x frame = 0%nat -> FrameInfo.y frame = 0%nat ->
  FrameInfo.width frame = W -> FrameInfo.height frame = H ->
  length canvas = (W * H * 4)%nat ->
  clearRect W frame canvas = replicate (W * H * 4) 0.
Proof.
  intros Hx Hy Hw Hh Hlen. apply list_eq. intros p.
  unfold clearRect. rewrite list_lookup_imap.
  destruct (decide (p < W * H * 4)%nat) as [Hp|Hp].
  - rewrite lookup_replicate_2 by done.
    destruct (lookup_lt_is_Some_2 canvas p) as [v ->]; [lia|].
    cbn [fmap option_fmap option_map]. f_equal.
    assert (HW : W <> 0%nat) by lia.
    assert (Hq : (p / 4 < W * H)%nat)
      by (apply Nat.Div0.div_lt_upper_bound; lia).
    assert (Hrow : (p / 4 / W < H)%nat)
      by (apply Nat.Div0.div_lt_upper_bound; lia).
    pose proof (Nat.mod_upper_bound (p / 4) W HW) as Hcol.
    assert (Hin : inRect W frame (p / 4) = true).
    { unfold inRect. rewrite Hx, Hy, Hw, Hh. cbn [Nat.add].
      repeat (apply andb_true_iff; split).
      - apply Nat.leb_le. lia.
      - by apply Nat.ltb_lt.
      - apply Nat.leb_le. lia.
      - by apply Nat.ltb_lt. }
    by rewrite Hin.
  - rewrite (lookup_ge_None_2 canvas) by lia.
    symmetry. apply lookup_replicate_None. lia.
Qed.

Lemma solidBlit_length (canvasWidth : nat) (infos : list FrameInfo.t)
    (i : nat) (canvas : list Z) :
  length (solidBlit canvasWidth infos i canvas) = length canvas.
Proof.
  unfold solidBlit. destruct (infos !! i); [apply length_imap|done].
Qed.

Lemma solidBlit_outside (canvasWidth : nat) (infos : list FrameInfo.t)
    (i : nat) (frame : FrameInfo.t) (canvas : list Z) (p : nat) :
  infos !! i = Some frame ->
  inRect canvasWidth frame (p / 4) = false ->
  solidBlit canvasWidth infos i canvas !! p = canvas !! p.
Proof.
  intros Hi Hout. unfold solidBlit. rewrite Hi, list_lookup_imap, Hout.
  by destruct (canvas !! p).
Qed.

End DecoderFacts.

(** C1 (as stated): for every animated source the frames are those of the
    state machine, in which disposal code 2 clears the frame's own
    rectangle.  [clearFrameRegion] clears [width * 4] bytes from the start
    of each row without looking at the width of the canvas: for a frame that
    sticks out on the right, what it clears beyond the canvas edge are the
    first pixels of the next row.  For the source below (2 x 2 canvas, frame
    1 of width 2 at column 1, disposal code 2) the decoder keeps the buffer
    length, yet in the last captured frame the pixel at column 0 of row 1 is
    transparent, while in the state machine it still shows frame 0. *)
Lemma C1_overhanging_frame_clears_next_row :
  Decoder.Reader.frameInfo Decoder.overhangReader <> [] /\
  Decoder.blitKeepsLength Decoder.overhangReader /\
  exists (source : Decoder.Source.t) (h : list (list Z)),
    Decoder.extractGifSource Decoder.overhangReader = inr (source, h) /\
    Decoder.frameBuffers h (Decoder.Source.frames source)
    <> Decoder.machineFrames Decoder.overhangReader 0
         (Decoder.Reader.frameInfo Decoder.overhangReader)
         (replicate (2 * 2 * 4) 0) /\
    (Decoder.frameBuffers h (Decoder.Source.frames source) !! 2%nat
     ≫= fun frame => frame.1 !! 8%nat) = Some 0 /\
    (Decoder.machineFrames Decoder.overhangReader 0
       (Decoder.Reader.frameInfo Decoder.overhangReader)
       (replicate (2 * 2 * 4) 0) !! 2%nat
     ≫= fun frame => frame.1 !! 8%nat) = Some 50.
Proof.
  split; [done|]. split.
  { intros i canvas. apply solidBlit_length. }
  eexists _, _. split; [by vm_compute|].
  split; [|split; by vm_compute].
  intros Heq.
  apply (f_equal (fun l => l !! 2%nat ≫= fun frame => frame.1 !! 8%nat))
    in Heq.
  vm_compute in Heq. discriminate.
Qed.

(** C1 (amended): [extractGifSource] runs the disposal state machine of the
    specification on every source whose frames with disposal code 2 do not
    stick out of the canvas on the right.  For such a source with at least
    one frame, the buffers of the decoded frames are those of
    [machineFrames] started on a zeroed canvas of [width * height * 4] bytes:
    per frame, the canvas before compositing is the snapshot, the frame is
    composited, the composited canvas is captured with the frame's delay into
    a buffer of its own (the references are pairwise different and none is the
    canvas), and then code 2 clears the frame's rectangle, code 3 restores the
    snapshot, any other code keeps the canvas.  A source without frames is
    refused.  For the two-frame source whose frame 0 covers the canvas with
    disposal code 2 and whose frame 1 is a 10 x 10 patch at (5, 5), the
    captured frame 1 is frame 1 composited over a fully transparent canvas: it
    is 0 in every byte outside the patch. *)
Theorem C1_disposal_state_machine :
  (forall reader : Decoder.Reader.t,
     Decoder.Reader.frameInfo reader <> [] ->
     Decoder.blitKeepsLength reader ->
     Forall (Decoder.frameFits reader) (Decoder.Reader.frameInfo reader) ->
     exists (source : Decoder.Source.t) (h : list (list Z)),
       Decoder.extractGifSource reader = inr (source, h) /\
       Decoder.frameBuffers h (Decoder.Source.frames source)
       = Decoder.machineFrames reader 0 (Decoder.Reader.frameInfo reader)
           (replicate (Decoder.Reader.width reader
                       * Decoder.Reader.height reader * 4) 0) /\
       NoDup (Decoder.FrameData.pixels <$> Decoder.Source.frames source) /\
       Forall (fun fr => Decoder.FrameData.pixels fr <> 0%nat)
         (Decoder.Source.frames source)) /\
  (forall reader : Decoder.Reader.t,
     Decoder.Reader.frameInfo reader = [] ->
     Decoder.extractGifSource reader = inl "GIF contains no frames") /\
  (forall (reader : Decoder.Reader.t) (delay0 delay1 disposal1 : Z),
     let W := Decoder.Reader.width reader in
     let H := Decoder.Reader.height reader in
     let patch :=
       {| Decoder.FrameInfo.x := 5; Decoder.FrameInfo.y := 5;
          Decoder.FrameInfo.width := 10; Decoder.FrameInfo.height := 10;
          Decoder.FrameInfo.delay := delay1;
          Decoder.FrameInfo.disposal := disposal1 |} in
     Decoder.Reader.frameInfo reader
     = [ {| Decoder.FrameInfo.x := 0; Decoder.FrameInfo.y := 0;
            Decoder.FrameInfo.width := W; Decoder.FrameInfo.height := H;
            Decoder.FrameInfo.delay := delay0;
            Decoder.FrameInfo.disposal := 2 |};
         patch ] ->
     (15 <= W)%nat -> (15 <= H)%nat ->
     Decoder.blitKeepsLength reader ->
     Decoder.blitStaysInFrame reader ->
     exists (source : Decoder.Source.t) (h : list (list Z))
            (frame0 frame1 : Decoder.FrameData.t),
       Decoder.extractGifSource reader = inr (source, h) /\
       Decoder.Source.frames source = [frame0; frame1] /\
       Decoder.FrameData.delay frame1 = delay1 /\
       let captured := Decoder.deref h (Decoder.FrameData.pixels frame1) in
       captured
       = Decoder.Reader.decodeAndBlitFrameRGBA reader 1
           (replicate (W * H * 4) 0) /\
       length captured = (W * H * 4)%nat /\
       forall p : nat, (p < W * H * 4)%nat ->
         Decoder.inRect W patch (p / 4) = false ->
         captured !! p = Some 0).
Proof.
  split; [|split].
  - intros reader Hne Hkeep Hfits.
    destruct (extractGifSource_spec reader Hne Hkeep Hfits)
      as (source & h & Hres & _ & _ & _ & Hbufs & Hnd & Hrefs).
    by exists source, h.
  - intros reader Hnil.
    unfold Decoder.extractGifSource, Decoder.Reader.numFrames.
    by rewrite Hnil.
  - intros reader delay0 delay1 disposal1 W H patch Hinfo HW HH Hkeep Hstay.
    destruct (extractGifSource_spec reader) as
      (source & h & Hres & _ & _ & _ & Hbufs & _ & _).
    { by rewrite Hinfo. }
    { exact Hkeep. }
    { rewrite Hinfo. repeat constructor; intros _; cbn; fold W H; lia. }
    rewrite Hinfo in Hbufs. cbn [Decoder.machineFrames] in Hbufs.
    fold W H in Hbufs.
    set (zeros := replicate (W * H * 4) 0) in *.
    assert (Hzero : Decoder.dispose W
              {| Decoder.FrameInfo.x := 0; Decoder.FrameInfo.y := 0;
                 Decoder.FrameInfo.width := W; Decoder.FrameInfo.height := H;
                 Decoder.FrameInfo.delay := delay0;
                 Decoder.FrameInfo.disposal := 2 |}
              (Decoder.takeSnapshot
                 {| Decoder.FrameInfo.x := 0; Decoder.FrameInfo.y := 0;
                    Decoder.FrameInfo.width := W;
                    Decoder.FrameInfo.height := H;
                    Decoder.FrameInfo.delay := delay0;
                    Decoder.FrameInfo.disposal := 2 |} zeros)
              (Decoder.Reader.decodeAndBlitFrameRGBA reader 0 zeros)
            = zeros).
    { unfold Decoder.dispose. cbn [Decoder.FrameInfo.disposal Z.eqb Pos.eqb].
      apply (clearRect_full W H); try done.
      rewrite Hkeep. subst zeros. apply length_replicate. }
    rewrite Hzero in Hbufs.
    destruct (Decoder.Source.frames source) as [|frame0 [|frame1 [|? ?]]]
      eqn:Hframes; try done.
    cbn in Hbufs. injection Hbufs as _ _ Hpix Hdelay.
    exists source, h, frame0, frame1.
    split; [exact Hres|]. split; [done|]. split; [exact Hdelay|].
    cbv zeta. rewrite Hpix. split; [done|].
    split. { rewrite Hkeep. subst zeros. apply length_replicate. }
    intros p Hp Hout.
    rewrite (Hstay 1%nat patch zeros p); [|by rewrite Hinfo|exact Hout].
    subst zeros. by apply lookup_replicate_2.
Qed.

Lemma C1_disposal_state_machine_witness :
  exists (source : Decoder.Source.t) (h : list (list Z))
         (frame0 frame1 : Decoder.FrameData.t),
    Decoder.extractGifSource Decoder.twoFrameReader = inr (source, h) /\
    Decoder.Source.frames source = [frame0; frame1] /\
    Decoder.FrameData.delay frame1 = 7 /\
    Decoder.deref h (Decoder.FrameData.pixels frame1) !! 0%nat = Some 0 /\
    Decoder.deref h (Decoder.FrameData.pixels frame1) !! 420%nat = Some 100.
Proof.
  destruct C1_disposal_state_machine as (_ & _ & Hexample).
  destruct (Hexample Decoder.twoFrameReader 10 7 0)
    as (source & h & frame0 & frame1 & Hres & Hframes & Hdelay & Hcap
        & Hlen & Hout).
  - reflexivity.
  - cbn. lia.
  - cbn. lia.
  - intros i canvas. apply solidBlit_length.
  - intros i frame canvas p. apply solidBlit_outside.
  - exists source, h, frame0, frame1.
    split; [exact Hres|]. split; [exact Hframes|]. split; [exact Hdelay|].
    split.
    + apply Hout; [cbn; lia|reflexivity].
    + cbv zeta in Hcap. rewrite Hcap. by vm_compute.
Defined.

Section OrchestratorFacts.
Import Orchestrator.

Lemma fail_stale (jobId : Z) (message detail : string) (s : AppState) :
  jobRef s <> jobId -> fail jobId message detail s = s.
Proof.
  intros Hne. unfold fail.
  destruct (Z.eqb_spec (jobRef s) jobId); [done|reflexivity].
Qed.

Lemma finalize_stale (jobId pixelSize : Z) (previewUrl : string)
    (vector : option Vector) (nextStatus : string) (s : AppState) :
  jobRef s <> jobId ->
  finalize jobId pixelSize previewUrl vector nextStatus s
  = if String.prefix "blob:" previewUrl then revokeObjectURL previewUrl s
    else s.
Proof.
  intros Hne. unfold finalize.
  destruct (Z.eqb_spec (jobRef s) jobId); [done|reflexivity].
Qed.

Lemma fail_jobRef (jobId : Z) (message detail : string) (s : AppState) :
  jobRef (fail jobId message detail s) = jobRef s.
Proof. unfold fail. by destruct (negb _). Qed.

Lemma finalize_jobRef (jobId pixelSize : Z) (previewUrl : string)
    (vector : option Vector) (nextStatus : string) (s : AppState) :
  jobRef (finalize jobId pixelSize previewUrl vector nextStatus s) = jobRef s.
Proof.
  unfold finalize. destruct (negb _); [|done].
  by destruct (String.prefix _ _).
Qed.

Lemma convertImage_jobRef (jobId pixelSize : Z) (outcome : SyncOutcome)
    (s : AppState) :
  jobRef (convertImage jobId pixelSize outcome s) = jobRef s.
Proof.
  destruct outcome; cbn [convertImage setStatus jobRef];
    auto using fail_jobRef, finalize_jobRef.
Qed.

(** A trigger with a source allocates the next job id. *)
Lemma rebuild_jobRef (pixelSize : Z) (outcome : SyncOutcome) (s : AppState) :
  jobRef (rebuild true pixelSize outcome s) = jobRef s + 1.
Proof. unfold rebuild. cbn [negb]. by rewrite convertImage_jobRef. Qed.

(** The current job id never decreases. *)
Lemma step_jobRef_mono (s : AppState) (e : Event) :
  jobRef s <= jobRef (step s e).
Proof.
  destruct e as [hasSource ps outcome| | |jobId ps result|]; cbn [step].
  - destruct hasSource; [rewrite rebuild_jobRef; lia|]. cbn. lia.
  - rewrite finalize_jobRef. lia.
  - rewrite fail_jobRef. lia.
  - unfold imageOnload. destruct (negb _); [lia|].
    destruct result as [[url v]|detail];
      rewrite ?finalize_jobRef, ?fail_jobRef; lia.
  - unfold imageOnerror. rewrite fail_jobRef. lia.
Qed.

Lemma run_jobRef_mono (events : list Event) (s : AppState) :
  jobRef s <= jobRef (run s events).
Proof.
  unfold run. revert s. induction events as [|e events IH]; intros s.
  - cbn. lia.
  - cbn [foldl]. pose proof (step_jobRef_mono s e). specialize (IH (step s e)).
    lia.
Qed.

(** A completion of a job that is not current is not committed; a blob URL
    it hands over is revoked in the same step. *)
Lemma stale_completion_discarded (s : AppState) (e : Event) (jobId : Z) :
  completionOf e = Some jobId -> jobRef s <> jobId ->
  visible (step s e) = visible s /\
  jobRef (step s e) = jobRef s /\
  (forall url, blobUrlOf e = Some url ->
               revokedUrls (step s e) = url :: revokedUrls s) /\
  (blobUrlOf e = None -> step s e = s).
Proof.
  intros He Hne.
  destruct e as [| j ps url v st | j msg detail | j ps result | j detail];
    cbn [completionOf] in He; simplify_eq; cbn [step blobUrlOf].
  - rewrite finalize_stale by done.
    destruct (String.prefix "blob:" url); cbn.
    + split; [done|]. split; [done|]. split; [|done].
      by intros ? [= <-].
    + done.
  - by rewrite fail_stale.
  - unfold imageOnload.
    destruct (Z.eqb_spec (jobRef s) jobId); [done|]. done.
  - unfold imageOnerror. by rewrite fail_stale.
Qed.

End OrchestratorFacts.

(** C3: for triggers A then B, B gets a higher job id than A, and from B's
    trigger on the current job id is at least B's.  Whenever a completion of
    job A arrives after that, it is not committed: the displayed result, the
    vector data, the status and the busy flag stay as they are, and a blob URL
    handed to [finalize] is revoked in that very step.  A completion that
    changes what is displayed belongs to the current job. *)
Theorem C3_job_supersession :
  (forall (s0 : Orchestrator.AppState) (psA psB : Z)
          (outA outB : Orchestrator.SyncOutcome)
          (between after : list Orchestrator.Event)
          (completion : Orchestrator.Event),
     let sA := Orchestrator.step s0 (Orchestrator.Trigger true psA outA) in
     let a := Orchestrator.jobRef sA in
     let sB := Orchestrator.step (Orchestrator.run sA between)
                 (Orchestrator.Trigger true psB outB) in
     let b := Orchestrator.jobRef sB in
     let s := Orchestrator.run sB after in
     Orchestrator.completionOf completion = Some a ->
     a < b /\ b <= Orchestrator.jobRef s /\
     Orchestrator.visible (Orchestrator.step s completion)
     = Orchestrator.visible s /\
     Orchestrator.jobRef (Orchestrator.step s completion)
     = Orchestrator.jobRef s /\
     (forall url, Orchestrator.blobUrlOf completion = Some url ->
        Orchestrator.revokedUrls (Orchestrator.step s completion)
        = url :: Orchestrator.revokedUrls s)) /\
  (forall (s : Orchestrator.AppState) (e : Orchestrator.Event) (jobId : Z),
     Orchestrator.completionOf e = Some jobId ->
     Orchestrator.visible (Orchestrator.step s e) <> Orchestrator.visible s ->
     jobId = Orchestrator.jobRef s).
Proof.
  split.
  - intros s0 psA psB outA outB between after completion sA a sB b s Hc.
    assert (Hab : a < b).
    { subst b sB. cbn [Orchestrator.step]. rewrite rebuild_jobRef.
      pose proof (run_jobRef_mono between sA). subst a. lia. }
    assert (Hbs : b <= Orchestrator.jobRef s).
    { subst s b. apply run_jobRef_mono. }
    destruct (stale_completion_discarded s completion a Hc)
      as (Hvis & Hjob & Hrev & _); [lia|].
    done.
  - intros s e jobId He Hchanged.
    destruct (decide (jobId = Orchestrator.jobRef s)) as [|Hne]; [done|].
    destruct (stale_completion_discarded s e jobId He) as (Hvis & _);
      [congruence|]. done.
Qed.

Lemma C3_job_supersession_witness :
  let vecA := {| Orchestrator.vectorColors := [["#0f380f"]];
                 Orchestrator.vectorWidth := 1;
                 Orchestrator.vectorHeight := 1 |} in
  let sB := Orchestrator.run Orchestrator.initialState
              [Orchestrator.Trigger true 12 Orchestrator.ImagePending;
               Orchestrator.Trigger true 12
                 (Orchestrator.GifEncoded "blob:b" None false)] in
  let completionA :=
    Orchestrator.Finalize 1 12 "blob:a" (Some vecA) "" in
  Orchestrator.resultPreview sB = Some "blob:b" /\
  Orchestrator.visible (Orchestrator.step sB completionA)
  = Orchestrator.visible sB /\
  Orchestrator.revokedUrls (Orchestrator.step sB completionA) = ["blob:a"].
Proof.
  intros vecA sB completionA.
  destruct C3_job_supersession as [Hstale _].
  destruct (Hstale Orchestrator.initialState 12 12 Orchestrator.ImagePending
              (Orchestrator.GifEncoded "blob:b" None false) [] [] completionA)
    as (_ & _ & Hvis & _ & Hrev); [reflexivity|].
  split; [by vm_compute|]. split; [exact Hvis|].
  apply (Hrev "blob:a"). by vm_compute.
Defined.

Section NumberFacts.
Import FrameDelay.

Lemma Math_round_integer (n : Z) : Math_round (inject_Z n) = n.
Proof.
  unfold Math_round, inject_Z, Qplus, Qfloor. cbn [Qnum Qden].
  change (Z.pos (1 * 2)) with 2.
  replace (n * 2 + 1 * 1) with (1 + n * 2) by lia.
  rewrite Z.div_add by lia. reflexivity.
Qed.

Lemma Math_round_nonneg (q : Q) : (0 <= q)%Q -> 0 <= Math_round q.
Proof.
  intros Hq. unfold Math_round.
  change 0 with (Qfloor 0). apply Qfloor_resp_le.
  apply (Qle_trans _ q); [exact Hq|].
  rewrite <- (Qplus_0_r q) at 1. apply Qplus_le_r. discriminate.
Qed.

Lemma clampFrameDelay_range (d : number) : 1 <= clampFrameDelay d <= 65535.
Proof.
  unfold clampFrameDelay.
  destruct (negb (Number_isFinite d) || le_zero d); [lia|].
  destruct d; lia.
Qed.

End NumberFacts.

(** X1: the budget solver only reduces the block size as far as it must.  For
    integers [sampleWidth, sampleHeight, frameCount >= 1] the result is an
    integer [k] of at least 1, and when it is below the desired size the next
    size [k + 1] would decode more than 4,000,000 pixels. *)
Theorem X1_budget_reduction_is_minimal (sw sh fc desired : Z) :
  1 <= sw -> 1 <= sh -> 1 <= fc ->
  exists k : Z,
    SizeBudget.getSafeGifPixelSize (Num.Int sw) (Num.Int sh) (Num.Int fc)
      (Num.Int desired) = Num.Int k /\
    1 <= k /\
    (k < desired -> SizeBudget.totalGifPixels sw sh fc (k + 1) > 4000000).
Proof.
  intros Hw Hh Hfc. rewrite getSafeGifPixelSize_Int.
  eexists. split; [reflexivity|].
  destruct (Num.isFinite _).
  - by apply integerSize_minimal.
  - split; lia.
Qed.

Lemma X1_budget_reduction_is_minimal_witness :
  SizeBudget.getSafeGifPixelSize (Num.Int 128) (Num.Int 128) (Num.Int 10)
    (Num.Int 12) = Num.Int 4 /\
  SizeBudget.totalGifPixels 128 128 10 (4 + 1) > 4000000.
Proof.
  destruct (X1_budget_reduction_is_minimal 128 128 10 12)
    as (k & Hk & _ & Hmin); [lia..|].
  assert (Hv : SizeBudget.getSafeGifPixelSize (Num.Int 128) (Num.Int 128)
                 (Num.Int 10) (Num.Int 12) = Num.Int 4) by (by vm_compute).
  split; [exact Hv|].
  rewrite Hv in Hk. injection Hk as <-. apply Hmin. lia.
Defined.

(** X2: [normalizeLoopCount] always gives an integer between 0 and 65535.
    [null], [NaN], the infinities and negative numbers give 0; an integer
    count between 0 and 65535 passes through unchanged, a larger one gives
    65535. *)
Theorem X2_normalizeLoopCount (loopCount : option FrameDelay.number) :
  0 <= LoopCount.normalizeLoopCount loopCount <= 65535 /\
  (loopCount = None -> LoopCount.normalizeLoopCount loopCount = 0) /\
  (forall x, loopCount = Some x -> FrameDelay.Number_isFinite x = false ->
     LoopCount.normalizeLoopCount loopCount = 0) /\
  (forall q, loopCount = Some (FrameDelay.Finite q) -> (q < 0)%Q ->
     LoopCount.normalizeLoopCount loopCount = 0) /\
  (forall n, loopCount = Some (FrameDelay.Finite (inject_Z n)) -> 0 <= n ->
     LoopCount.normalizeLoopCount loopCount = Z.min 65535 n).
Proof.
  assert (Hneg : forall q, (q < 0)%Q -> Qle_bool 0 q = false).
  { intros q Hq. destruct (Qle_bool 0 q) eqn:E; [|done].
    apply Qle_bool_iff in E. exfalso. apply (Qlt_not_le _ _ Hq E). }
  assert (Hpos : forall q, Qle_bool 0 q = true ->
            0 <= FrameDelay.Math_round q).
  { intros q E. apply Math_round_nonneg. by apply Qle_bool_iff. }
  split; [|split; [|split; [|split]]].
  - destruct loopCount as [[| | |q]|];
      unfold LoopCount.normalizeLoopCount;
      cbn [FrameDelay.Number_isFinite negb orb LoopCount.lt_zero]; try lia.
    destruct (Qle_bool 0 q) eqn:E; cbn [negb]; [|lia].
    specialize (Hpos q E). lia.
  - by intros ->.
  - intros x -> Hx. unfold LoopCount.normalizeLoopCount. by rewrite Hx.
  - intros q -> Hq. unfold LoopCount.normalizeLoopCount.
    cbn [FrameDelay.Number_isFinite negb orb LoopCount.lt_zero].
    by rewrite (Hneg q Hq).
  - intros n -> Hn. unfold LoopCount.normalizeLoopCount.
    cbn [FrameDelay.Number_isFinite negb orb LoopCount.lt_zero].
    assert (E : Qle_bool 0 (inject_Z n) = true).
    { apply Qle_bool_iff. change 0%Q with (inject_Z 0).
      by rewrite <- Zle_Qle. }
    rewrite E. cbn [negb]. by rewrite Math_round_integer.
Qed.

Lemma X2_normalizeLoopCount_witness :
  LoopCount.normalizeLoopCount None = 0 /\
  LoopCount.normalizeLoopCount (Some FrameDelay.PosInfinity) = 0 /\
  LoopCount.normalizeLoopCount (Some (FrameDelay.Finite (-(1 # 3)))) = 0 /\
  LoopCount.normalizeLoopCount (Some (FrameDelay.Finite (inject_Z 3))) = 3 /\
  LoopCount.normalizeLoopCount (Some (FrameDelay.Finite (inject_Z 70000)))
  = 65535.
Proof.
  split; [|split; [|split; [|split]]].
  - by apply (X2_normalizeLoopCount None).
  - destruct (X2_normalizeLoopCount (Some FrameDelay.PosInfinity))
      as (_ & _ & H & _). by apply (H FrameDelay.PosInfinity).
  - destruct (X2_normalizeLoopCount (Some (FrameDelay.Finite (-(1 # 3)))))
      as (_ & _ & _ & H & _). by apply (H (-(1 # 3))%Q).
  - destruct (X2_normalizeLoopCount (Some (FrameDelay.Finite (inject_Z 3))))
      as (_ & _ & _ & _ & H). by apply (H 3).
  - destruct (X2_normalizeLoopCount
                (Some (FrameDelay.Finite (inject_Z 70000))))
      as (_ & _ & _ & _ & H). by apply (H 70000).
Defined.

(** X3: whatever the input, [clampFrameDelay] gives a delay between 1 and
    65535, and clamping an already clamped delay changes nothing. *)
Theorem X3_clampFrameDelay_range_idempotent (d : FrameDelay.number) :
  1 <= FrameDelay.clampFrameDelay d <= 65535 /\
  FrameDelay.clampFrameDelay
    (FrameDelay.Finite (inject_Z (FrameDelay.clampFrameDelay d)))
  = FrameDelay.clampFrameDelay d.
Proof.
  pose proof (clampFrameDelay_range d) as Hr. split; [exact Hr|].
  rewrite clampFrameDelay_positive.
  - rewrite Math_round_integer. lia.
  - change 0%Q with (inject_Z 0). rewrite <- Zlt_Qlt. lia.
Qed.

Section PaletteNormalFacts.
Import Palette.

Lemma ascii_toLowerCase_idem (c : ascii) :
  ascii_toLowerCase (ascii_toLowerCase c) = ascii_toLowerCase c.
Proof. destruct c as [[] [] [] [] [] [] [] []]; reflexivity. Qed.

Lemma toLowerCase_idem (s : string) :
  toLowerCase (toLowerCase s) = toLowerCase s.
Proof.
  induction s as [|c s IH]; [done|].
  cbn [toLowerCase]. by rewrite ascii_toLowerCase_idem, IH.
Qed.

Lemma foldl_setAdd_NoDup_app (xs acc : list string) :
  NoDup (acc ++ xs) -> foldl setAdd acc xs = acc ++ xs.
Proof.
  revert acc. induction xs as [|x xs IH]; intros acc Hnd; cbn [foldl].
  - by rewrite app_nil_r.
  - assert (Hx : x ∉ acc).
    { apply NoDup_app in Hnd as (_ & Hdis & _). intros Hin.
      apply (Hdis x Hin). apply list_elem_of_here. }
    unfold setAdd at 2. rewrite decide_False by done.
    rewrite IH; rewrite <- app_assoc; done.
Qed.

Lemma setFromArray_NoDup_id (xs : list string) :
  NoDup xs -> setFromArray xs = xs.
Proof. intros Hnd. unfold setFromArray. by rewrite foldl_setAdd_NoDup_app. Qed.

Lemma sourceColors_nonempty (palette : list string) :
  palette <> [] -> sourceColors palette = palette.
Proof. unfold sourceColors. by destruct palette. Qed.

Lemma uniqueColors_lowercase (palette : list string) :
  toLowerCase <$> uniqueColors palette = uniqueColors palette.
Proof.
  apply list_eq. intros i. rewrite list_lookup_fmap.
  destruct (uniqueColors palette !! i) as [c|] eqn:E; [|done].
  cbn. f_equal.
  apply list_elem_of_lookup_2, uniqueColors_elem, list_elem_of_fmap in E
    as (x & -> & _).
  apply toLowerCase_idem.
Qed.

Lemma uniqueColors_idem (palette : list string) :
  uniqueColors (uniqueColors palette) = uniqueColors palette.
Proof.
  unfold uniqueColors at 1.
  rewrite sourceColors_nonempty by apply uniqueColors_nonempty.
  rewrite uniqueColors_lowercase.
  apply setFromArray_NoDup_id, uniqueColors_NoDup.
Qed.

Lemma uniqueColors_fmap_lower (palette : list string) :
  uniqueColors (toLowerCase <$> palette) = uniqueColors palette.
Proof.
  unfold uniqueColors. destruct palette as [|c l]; [done|].
  rewrite !sourceColors_nonempty by done.
  rewrite <- list_fmap_compose. f_equal.
  apply list_fmap_ext. intros i x _. apply toLowerCase_idem.
Qed.

(** The lookup only depends on the deduplicated, lowercased colors. *)
Lemma buildPaletteLookup_ext (f : string -> RGB) (p p' : list string) :
  uniqueColors p = uniqueColors p' ->
  paddedPalette p = paddedPalette p' /\
  buildPaletteLookup f p = buildPaletteLookup f p'.
Proof.
  intros Hu.
  assert (Hn : normalizedPalette p = normalizedPalette p').
  { unfold normalizedPalette. by rewrite Hu. }
  assert (Hp : paddedPalette p = paddedPalette p').
  { unfold paddedPalette, targetSize, cappedLength, fallbackHex.
    by rewrite Hn. }
  split; [exact Hp|].
  unfold buildPaletteLookup, fallbackHex. by rewrite Hp, Hn.
Qed.

Lemma lor_shiftl_add (a b n : Z) :
  0 <= n -> 0 <= b < 2 ^ n -> Z.lor (Z.shiftl a n) b = a * 2 ^ n + b.
Proof.
  intros Hn Hb.
  assert (Hland : Z.land (Z.shiftl a n) b = 0).
  { apply Z.bits_inj'. intros k Hk.
    rewrite Z.land_spec, Z.bits_0.
    destruct (Z_lt_le_dec k n) as [Hlt|Hge].
    - rewrite Z.shiftl_spec_low by lia. reflexivity.
    - rewrite <- (Z.mod_small b (2 ^ n)) by lia.
      rewrite Z.mod_pow2_bits_high by lia. apply andb_false_r. }
  rewrite <- Z.lxor_lor by exact Hland.
  rewrite <- Z.add_nocarry_lxor by exact Hland.
  by rewrite Z.shiftl_mul_pow2.
Qed.

End PaletteNormalFacts.

(** X4: [buildPaletteLookup] does not care about letter case or repeated
    colors: it gives the same table, map and fallback slot for a palette, for
    its lowercased copy, for the palette with all its colors repeated, and for
    its own deduplicated, lowercased color list. *)
Theorem X4_lookup_normal_form (hexToRgb : string -> Palette.RGB)
    (palette : list string) :
  Palette.buildPaletteLookup hexToRgb (Palette.toLowerCase <$> palette)
  = Palette.buildPaletteLookup hexToRgb palette /\
  Palette.buildPaletteLookup hexToRgb (palette ++ palette)
  = Palette.buildPaletteLookup hexToRgb palette /\
  Palette.buildPaletteLookup hexToRgb (Palette.uniqueColors palette)
  = Palette.buildPaletteLookup hexToRgb palette.
Proof.
  split; [|split].
  - apply buildPaletteLookup_ext, uniqueColors_fmap_lower.
  - apply buildPaletteLookup_ext.
    destruct palette as [|c l]; [done|].
    unfold Palette.uniqueColors.
    rewrite !sourceColors_nonempty by done.
    rewrite fmap_app. unfold Palette.setFromArray. rewrite foldl_app.
    set (u := foldl Palette.setAdd [] (Palette.toLowerCase <$> c :: l)).
    assert (Hin : forall x, x ∈ Palette.toLowerCase <$> c :: l -> x ∈ u).
    { intros x Hx. subst u. apply foldl_setAdd_elem. by right. }
    clearbody u. revert Hin.
    generalize (Palette.toLowerCase <$> c :: l). intros xs.
    induction xs as [|x xs IH]; intros Hin; [done|].
    cbn [foldl]. unfold Palette.setAdd at 2.
    rewrite decide_True by (apply Hin, list_elem_of_here).
    apply IH. intros y Hy. apply Hin. by apply list_elem_of_further.
  - apply buildPaletteLookup_ext, uniqueColors_idem.
Qed.

(** X5: the map and the table of [buildPaletteLookup] agree.  If the map
    sends [hex] to slot [i], then slot [i] of the padded palette is [hex],
    slot [i] of the packed color table is the packed color of [hex], no
    earlier slot holds [hex], and no other hex is sent to slot [i]. *)
Theorem X5_lookup_round_trip (hexToRgb : string -> Palette.RGB)
    (palette : list string) (hex : string) (i : nat) :
  let L := Palette.buildPaletteLookup hexToRgb palette in
  Palette.colorIndexMap L !! hex = Some i ->
  Palette.paddedPalette palette !! i = Some hex /\
  Palette.paletteColors L !! i = Some (Palette.packColor hexToRgb hex) /\
  (forall j, (j < i)%nat -> Palette.paddedPalette palette !! j <> Some hex) /\
  (forall hex', Palette.colorIndexMap L !! hex' = Some i -> hex' = hex).
Proof.
  intros L Hi. cbn [L Palette.buildPaletteLookup Palette.colorIndexMap
                    Palette.paletteColors] in *.
  pose proof (buildIndexMap_Some _ _ _ Hi) as [Hslot _].
  split; [exact Hslot|]. split.
  { by rewrite list_lookup_fmap, Hslot. }
  split.
  - intros j Hj Hjh. rewrite buildIndexMap_lookup in Hi.
    destruct (list_find (eq hex) (Palette.paddedPalette palette))
      as [[i' x]|] eqn:Hf; [|done].
    cbn in Hi. injection Hi as ->.
    apply list_find_Some in Hf as (_ & _ & Hfirst).
    by apply (Hfirst j hex Hjh Hj).
  - intros hex' Hi'.
    pose proof (buildIndexMap_Some _ _ _ Hi') as [Hslot' _]. congruence.
Qed.

Lemma X5_lookup_round_trip_witness :
  let f := fun _ : string =>
             {| Palette.r := 0; Palette.g := 0; Palette.b := 0 |} in
  Palette.paddedPalette ["#0F380F"; "#306230"; "#8bac0f"] !! 2%nat
  = Some "#8bac0f".
Proof.
  intros f.
  apply (X5_lookup_round_trip f ["#0F380F"; "#306230"; "#8bac0f"] "#8bac0f"
           2%nat).
  by vm_compute.
Defined.

Lemma lookupIndex_palette_color (hexToRgb : string -> Palette.RGB)
    (palette : list string) (c : string) :
  let L := Palette.buildPaletteLookup hexToRgb palette in
  (length (Palette.uniqueColors palette) <= 256)%nat ->
  c ∈ Palette.sourceColors palette ->
  exists i : nat,
    Palette.uniqueColors palette !! i = Some (Palette.toLowerCase c) /\
    Palette.lookupIndex (Palette.colorIndexMap L) (Palette.fallbackIndex L) c
    = i /\
    Palette.paddedPalette palette !! i = Some (Palette.toLowerCase c).
Proof.
  intros L Hlen Hc.
  assert (Hin : Palette.toLowerCase c ∈ Palette.uniqueColors palette).
  { apply uniqueColors_elem, list_elem_of_fmap. eauto. }
  apply list_elem_of_lookup in Hin as [i Hi].
  destruct (paddedPalette_small palette Hlen) as [rest Hpad].
  assert (Hfind : list_find (eq (Palette.toLowerCase c))
                    (Palette.paddedPalette palette)
                  = Some (i, Palette.toLowerCase c)).
  { rewrite Hpad. apply list_find_app_l, list_find_Some.
    split; [exact Hi|]. split; [done|].
    intros j y Hj Hlt <-.
    pose proof (NoDup_lookup _ _ _ _ (uniqueColors_NoDup palette) Hi Hj).
    lia. }
  exists i. split; [exact Hi|]. split.
  - unfold Palette.lookupIndex.
    cbn [L Palette.buildPaletteLookup Palette.colorIndexMap].
    by rewrite buildIndexMap_lookup, Hfind.
  - rewrite Hpad. by apply lookup_app_l_Some.
Qed.


(** X6: with at most 256 distinct colors no palette color is lost.  Every
    color of the palette, in any letter case, resolves to the slot at its
    position in the deduplicated, lowercased list, and that slot of the
    padded palette holds its lowercase form. *)
Theorem X6_palette_colors_keep_their_slot (hexToRgb : string -> Palette.RGB)
    (palette : list string) (c : string) :
  let L := Palette.buildPaletteLookup hexToRgb palette in
  (length (Palette.uniqueColors palette) <= 256)%nat ->
  c ∈ Palette.sourceColors palette ->
  exists i : nat,
    Palette.uniqueColors palette !! i = Some (Palette.toLowerCase c) /\
    Palette.lookupIndex (Palette.colorIndexMap L) (Palette.fallbackIndex L) c
    = i /\
    Palette.paddedPalette palette !! i = Some (Palette.toLowerCase c).
Proof. apply lookupIndex_palette_color. Qed.

Lemma X6_palette_colors_keep_their_slot_witness :
  let L := Palette.buildPaletteLookup
             (fun _ => {| Palette.r := 0; Palette.g := 0; Palette.b := 0 |})
             ["#0F380F"; "#306230"; "#0f380f"; "#8BAC0F"] in
  exists i : nat,
    Palette.lookupIndex (Palette.colorIndexMap L) (Palette.fallbackIndex L)
      "#8BAC0F" = i /\
    Palette.paddedPalette ["#0F380F"; "#306230"; "#0f380f"; "#8BAC0F"] !! i
    = Some "#8bac0f".
Proof.
  intros L.
  destruct (X6_palette_colors_keep_their_slot
              (fun _ => {| Palette.r := 0; Palette.g := 0; Palette.b := 0 |})
              ["#0F380F"; "#306230"; "#0f380f"; "#8BAC0F"] "#8BAC0F")
    as (i & _ & Hl & Hp).
  - vm_compute. lia.
  - apply (bool_decide_unpack _). by vm_compute.
  - exists i. split; [exact Hl|exact Hp].
Defined.

(** X7: packing a color loses nothing.  When [hexToRgb] gives three byte
    values, the packed color is [r * 65536 + g * 256 + b], lies below
    [2 ^ 24], and shifting and masking give the three bytes back. *)
Theorem X7_packColor_round_trip (hexToRgb : string -> Palette.RGB)
    (hex : string) :
  let c := hexToRgb hex in
  let packed := Palette.packColor hexToRgb hex in
  0 <= Palette.r c <= 255 -> 0 <= Palette.g c <= 255 ->
  0 <= Palette.b c <= 255 ->
  packed = Palette.r c * 65536 + Palette.g c * 256 + Palette.b c /\
  0 <= packed < 2 ^ 24 /\
  Z.land (Z.shiftr packed 16) 255 = Palette.r c /\
  Z.land (Z.shiftr packed 8) 255 = Palette.g c /\
  Z.land packed 255 = Palette.b c.
Proof.
  intros c packed Hr Hg Hb.
  assert (Hp : packed
               = Palette.r c * 65536 + Palette.g c * 256 + Palette.b c).
  { subst packed. unfold Palette.packColor. fold c.
    rewrite <- Z.lor_assoc.
    rewrite (lor_shiftl_add (Palette.g c) (Palette.b c) 8)
      by (change (2 ^ 8) with 256; lia).
    change (2 ^ 8) with 256.
    rewrite (lor_shiftl_add (Palette.r c) _ 16)
      by (change (2 ^ 16) with 65536; lia).
    change (2 ^ 16) with 65536. lia. }
  split; [exact Hp|].
  change (2 ^ 24) with 16777216.
  split; [lia|].
  change 255 with (Z.ones 8).
  rewrite !Z.land_ones, !Z.shiftr_div_pow2 by lia.
  change (2 ^ 16) with 65536. change (2 ^ 8) with 256.
  rewrite Hp.
  repeat split; Z.div_mod_to_equations; lia.
Qed.

Lemma X7_packColor_round_trip_witness :
  let f := fun _ : string =>
             {| Palette.r := 139; Palette.g := 172; Palette.b := 15 |} in
  Palette.packColor f "#8bac0f" = 139 * 65536 + 172 * 256 + 15 /\
  Z.land (Z.shiftr (Palette.packColor f "#8bac0f") 8) 255 = 172.
Proof.
  intros f.
  destruct (X7_packColor_round_trip f "#8bac0f") as (Hp & _ & _ & Hg & _);
    [cbn; lia..|].
  split; [exact Hp|exact Hg].
Defined.

Section IndexedStoresFacts.
Import Palette IndexedStores.

Lemma foldl_bind {A B C : Type} (f : A -> C -> A) (g : B -> list C)
    (l : list B) (a : A) :
  foldl f a (l ≫= g) = foldl (fun acc x => foldl f acc (g x)) a l.
Proof.
  revert a. induction l as [|x l IH]; intros a; [done|].
  rewrite bind_cons, foldl_app, IH. reflexivity.
Qed.

Lemma foldl_ext' {A B : Type} (f g : A -> B -> A) (l : list B) (a : A) :
  (forall a' b', f a' b' = g a' b') -> foldl f a l = foldl g a l.
Proof.
  intros Hfg. revert a. induction l as [|x l IH]; intros a; [done|].
  cbn [foldl]. by rewrite Hfg, IH.
Qed.

(** The nested loops are the stores of [stores], applied in order. *)
Lemma colorGridToIndexedPixels_stores (colors : list (list string)) (k : Z)
    (m : gmap string nat) (fb : nat) :
  let h := length colors in
  let w := from_option length 0%nat (colors !! 0%nat) in
  h <> 0%nat -> w <> 0%nat ->
  colorGridToIndexedPixels colors k m fb
  = inr (foldl applyStore
           (replicate (Z.to_nat (Z.of_nat w * k * (Z.of_nat h * k))) 0)
           (stores colors k m fb w h (Z.of_nat w * k))).
Proof.
  intros h w Hh Hw. unfold colorGridToIndexedPixels. fold h w.
  rewrite decide_False by tauto. f_equal.
  unfold stores. rewrite foldl_bind. apply foldl_ext'. intros acc y.
  rewrite foldl_bind. apply foldl_ext'. intros acc' dy.
  unfold fillPixelRow. rewrite foldl_bind. apply foldl_ext'. intros acc'' x.
  unfold fillBlockRow. rewrite foldl_bind. apply foldl_ext'. intros b dx.
  reflexivity.
Qed.

Lemma foldl_applyStore_length (ws : list (Z * nat)) (buf : list Z) :
  length (foldl applyStore buf ws) = length buf.
Proof.
  apply (foldl_preserves (fun b => length b = length buf)); [done|].
  intros b st Hb. unfold applyStore. by rewrite storeByte_length.
Qed.

(** When every store writes the value [T] assigns to its position, every
    position that is stored to holds [T] of it at the end. *)
Lemma foldl_applyStore_lookup (T : Z -> Z) (ws : list (Z * nat))
    (buf : list Z) :
  (forall i v, (i, v) ∈ ws -> Z.of_nat v mod 256 = T i) ->
  forall i v, (i, v) ∈ ws -> 0 <= i < Z.of_nat (length buf) ->
    foldl applyStore buf ws !! Z.to_nat i = Some (T i).
Proof.
  induction ws as [|[j u] ws IH] using rev_ind; intros HT i v Hin Hi.
  { by apply elem_of_nil in Hin. }
  rewrite foldl_app. cbn [foldl]. unfold applyStore at 1. cbn [fst snd].
  unfold storeByte.
  destruct (decide (i = j)) as [->|Hne].
  - destruct (Z.ltb_spec j 0); [lia|].
    rewrite list_lookup_insert_eq
      by (rewrite foldl_applyStore_length; lia).
    f_equal. apply HT. apply elem_of_app. right. apply list_elem_of_here.
  - assert (Hin' : (i, v) ∈ ws).
    { apply elem_of_app in Hin as [Hin|Hin]; [done|].
      apply list_elem_of_singleton in Hin. congruence. }
    assert (IH' : foldl applyStore buf ws !! Z.to_nat i = Some (T i)).
    { apply (IH (fun i' v' H' => HT i' v' (proj2 (elem_of_app _ _ _)
                                              (or_introl H'))) i v Hin' Hi). }
    destruct (Z.ltb_spec j 0); [exact IH'|].
    rewrite list_lookup_insert_ne by lia. exact IH'.
Qed.

End IndexedStoresFacts.

Lemma colorGridToIndexedPixels_lookup (colors : list (list string)) (k : Z)
    (m : gmap string nat) (fb : nat) (row col : Z) :
  let h := length colors in
  let w := from_option length 0%nat (colors !! 0%nat) in
  h <> 0%nat -> w <> 0%nat -> 1 <= k ->
  0 <= row < Z.of_nat h * k -> 0 <= col < Z.of_nat w * k ->
  exists buf : list Z,
    Palette.colorGridToIndexedPixels colors k m fb = inr buf /\
    buf !! Z.to_nat (row * (Z.of_nat w * k) + col)
    = Some (Z.of_nat (Palette.cellIndex colors m fb
                        (Z.to_nat (row / k)) (Z.to_nat (col / k)))
            mod 256).
Proof.
  intros h w Hh Hw Hk Hrow Hcol.
  rewrite (colorGridToIndexedPixels_stores colors k m fb Hh Hw). fold h w.
  eexists. split; [reflexivity|].
  set (W := Z.of_nat w * k) in *.
  set (T := fun i : Z =>
              Z.of_nat (Palette.cellIndex colors m fb
                          (Z.to_nat (i / W / k)) (Z.to_nat (i mod W / k)))
              mod 256).
  assert (HW : 0 < W) by (subst W; nia).
  assert (Hsplit : forall a c, 0 <= c < W ->
            (a * W + c) / W = a /\ (a * W + c) mod W = c).
  { intros a c Hc. split.
    - symmetry. apply (Z.div_unique_pos _ _ a c); lia.
    - symmetry. apply (Z.mod_unique_pos _ _ a c); lia. }
  assert (Hblock : forall a c, 0 <= c < k -> (a * k + c) / k = a).
  { intros a c Hc. symmetry. apply (Z.div_unique_pos _ _ a c); lia. }
  assert (HT : T (row * W + col)
               = Z.of_nat (Palette.cellIndex colors m fb
                             (Z.to_nat (row / k)) (Z.to_nat (col / k)))
                 mod 256).
  { subst T. cbv beta. destruct (Hsplit row col Hcol) as [-> ->]. done. }
  rewrite <- HT.
  apply (foldl_applyStore_lookup T) with
    (v := Palette.cellIndex colors m fb
            (Z.to_nat (row / k)) (Z.to_nat (col / k))).
  - intros i v Hin. unfold IndexedStores.stores in Hin.
    apply list_elem_of_bind in Hin as (y & Hin & Hy).
    apply list_elem_of_bind in Hin as (dy & Hin & Hdy).
    apply list_elem_of_bind in Hin as (x & Hin & Hx).
    apply list_elem_of_bind in Hin as (dx & Hin & Hdx).
    apply list_elem_of_singleton in Hin. injection Hin as -> ->.
    apply elem_of_seq in Hy, Hx. apply elem_of_seqZ in Hdy, Hdx.
    subst T. cbv beta.
    assert (Hc : 0 <= Z.of_nat x * k + dx < W) by (subst W; nia).
    destruct (Hsplit (Z.of_nat y * k + dy) _ Hc) as [-> ->].
    rewrite !Hblock by lia. by rewrite !Nat2Z.id.
  - unfold IndexedStores.stores.
    pose proof (Z.div_mod row k ltac:(lia)) as Hr.
    pose proof (Z.mod_pos_bound row k ltac:(lia)) as Hrm.
    pose proof (Z.div_mod col k ltac:(lia)) as Hc.
    pose proof (Z.mod_pos_bound col k ltac:(lia)) as Hcm.
    assert (Hrd : 0 <= row / k < Z.of_nat h).
    { split; [apply Z.div_pos; lia|apply Z.div_lt_upper_bound; lia]. }
    assert (Hcd : 0 <= col / k < Z.of_nat w).
    { split; [apply Z.div_pos; lia|apply Z.div_lt_upper_bound; lia]. }
    apply list_elem_of_bind. exists (Z.to_nat (row / k)).
    split; [|apply elem_of_seq; lia].
    apply list_elem_of_bind. exists (row mod k).
    split; [|apply elem_of_seqZ; lia].
    apply list_elem_of_bind. exists (Z.to_nat (col / k)).
    split; [|apply elem_of_seq; lia].
    apply list_elem_of_bind. exists (col mod k).
    split; [|apply elem_of_seqZ; lia].
    apply list_elem_of_singleton. rewrite !Z2Nat.id by lia.
    f_equal. lia.
  - rewrite length_replicate. fold W.
    rewrite Z2Nat.id by nia. nia.
Qed.


(** X8: block expansion of an indexed frame.  For a non-empty grid of width
    [w] and height [h] and a block size [k >= 1], the entry of the returned
    buffer at row [row] and column [col] (position [row * (w * k) + col],
    [row < h * k], [col < w * k]) is the palette index of the grid cell
    [(col / k, row / k)], taken modulo 256: every cell fills its own
    [k] x [k] block. *)
Theorem X8_indexed_block_expansion (colors : list (list string)) (k : Z)
    (m : gmap string nat) (fb : nat) (row col : Z) :
  let h := length colors in
  let w := from_option length 0%nat (colors !! 0%nat) in
  h <> 0%nat -> w <> 0%nat -> 1 <= k ->
  0 <= row < Z.of_nat h * k -> 0 <= col < Z.of_nat w * k ->
  exists buf : list Z,
    Palette.colorGridToIndexedPixels colors k m fb = inr buf /\
    buf !! Z.to_nat (row * (Z.of_nat w * k) + col)
    = Some (Z.of_nat (Palette.cellIndex colors m fb
                        (Z.to_nat (row / k)) (Z.to_nat (col / k)))
            mod 256).
Proof. apply colorGridToIndexedPixels_lookup. Qed.

Lemma X8_indexed_block_expansion_witness :
  exists buf : list Z,
    Palette.colorGridToIndexedPixels [["a"; "b"]; ["c"; "d"]] 3
      (Palette.buildIndexMap ["a"; "b"; "c"; "d"]) 0%nat = inr buf /\
    buf !! Z.to_nat (4 * (2 * 3) + 5) = Some 3.
Proof.
  apply (X8_indexed_block_expansion [["a"; "b"]; ["c"; "d"]] 3
           (Palette.buildIndexMap ["a"; "b"; "c"; "d"]) 0%nat 4 5);
    cbn; lia.
Defined.

(** X9: a block size of 0 or less is not an error.  For a non-empty grid
    [colorGridToIndexedPixels] then stores nothing and returns the zero-filled
    buffer of [(w * k) * (h * k)] entries, empty for [k = 0]. *)
Theorem X9_indexed_nonpositive_block (colors : list (list string)) (k : Z)
    (m : gmap string nat) (fb : nat) :
  let h := length colors in
  let w := from_option length 0%nat (colors !! 0%nat) in
  h <> 0%nat -> w <> 0%nat -> k <= 0 ->
  Palette.colorGridToIndexedPixels colors k m fb
  = inr (replicate (Z.to_nat (Z.of_nat w * k * (Z.of_nat h * k))) 0) /\
  (k = 0 -> Palette.colorGridToIndexedPixels colors k m fb = inr []).
Proof.
  intros h w Hh Hw Hk.
  assert (Hres : Palette.colorGridToIndexedPixels colors k m fb
            = inr (replicate
                     (Z.to_nat (Z.of_nat w * k * (Z.of_nat h * k))) 0)).
  { rewrite (colorGridToIndexedPixels_stores colors k m fb Hh Hw). fold h w.
    f_equal. unfold IndexedStores.stores.
    assert (Hnil : seqZ 0 k = []).
    { unfold seqZ. by rewrite Z2Nat.nonpos by lia. }
    rewrite Hnil.
    induction (seq 0 h) as [|y l IH]; [done|].
    rewrite bind_cons. exact IH. }
  split; [exact Hres|]. intros ->. rewrite Hres.
  by rewrite !Z.mul_0_r.
Qed.

Lemma X9_indexed_nonpositive_block_witness :
  Palette.colorGridToIndexedPixels [["a"; "b"]] (-1) ∅ 7%nat = inr [0; 0] /\
  Palette.colorGridToIndexedPixels [["a"; "b"]] 0 ∅ 7%nat = inr [].
Proof.
  split.
  - apply (X9_indexed_nonpositive_block [["a"; "b"]] (-1) ∅ 7%nat);
      cbn; lia.
  - apply (X9_indexed_nonpositive_block [["a"; "b"]] 0 ∅ 7%nat); cbn; lia.
Defined.

Section QuantizerEdgeFacts.
Import Quantizer.

(** Whatever is read, the search ends on an entry of the palette. *)
Lemma foldl_nearestStep_member (r g b : option Z)
    (paletteData rest : list PaletteEntry) (st : option PaletteEntry * Z) :
  (forall e, st.1 = Some e -> e ∈ paletteData) ->
  (forall e, e ∈ rest -> e ∈ paletteData) ->
  forall e, (foldl (nearestStep r g b) st rest).1 = Some e -> e ∈ paletteData.
Proof.
  revert st. induction rest as [|entry rest IH]; intros st Hst Hrest e.
  - cbn. apply Hst.
  - cbn [foldl]. apply IH.
    + intros e'. unfold nearestStep.
      destruct (distance entry r g b) as [d|]; [|apply Hst].
      destruct (d <? st.2); [|apply Hst].
      cbn. intros [= <-]. apply Hrest, list_elem_of_here.
    + intros e' He'. by apply Hrest, list_elem_of_further.
Qed.

Lemma nearestEntry_member (paletteData : list PaletteEntry)
    (r g b : option Z) :
  paletteData <> [] ->
  exists e, nearestEntry paletteData r g b = Some e /\ e ∈ paletteData.
Proof.
  intros Hne. unfold nearestEntry.
  destruct paletteData as [|e0 rest]; [done|].
  set (res := foldl (nearestStep r g b) (Some e0, MAX_VALUE) (e0 :: rest)).
  assert (Hsome : is_Some res.1).
  { subst res. apply (foldl_preserves (fun st => is_Some st.1)); [by eexists|].
    intros st entry Hst. unfold nearestStep.
    destruct (distance entry r g b) as [d|]; [|done].
    destruct (d <? st.2); [by eexists|done]. }
  destruct Hsome as [e He]. exists e. split; [exact He|].
  apply (foldl_nearestStep_member r g b (e0 :: rest) (e0 :: rest)
           (Some e0, MAX_VALUE)); [| |exact He].
  - cbn. intros e' [= <-]. apply list_elem_of_here.
  - done.
Qed.

(** With an undefined component every distance is [NaN] and the search
    stays on its start value. *)
Lemma nearestEntry_undefined (paletteData : list PaletteEntry)
    (r g b : option Z) :
  r = None \/ g = None \/ b = None ->
  nearestEntry paletteData r g b = paletteData !! 0%nat.
Proof.
  intros Hnone. unfold nearestEntry.
  apply (foldl_preserves (fun st => st.1 = paletteData !! 0%nat)); [done|].
  intros st entry Hst. unfold nearestStep.
  assert (Hd : distance entry r g b = None).
  { unfold distance. destruct Hnone as [->|[->| ->]]; [done| |].
    - by destruct r.
    - destruct r; [|done]. by destruct g. }
  by rewrite Hd.
Qed.

Lemma sqdist_zero (e : PaletteEntry) (r g b : Z) :
  sqdist e r g b = 0 <->
  Palette.r (rgb e) = r /\ Palette.g (rgb e) = g /\ Palette.b (rgb e) = b.
Proof.
  unfold sqdist. rewrite !Z.pow_2_r. split.
  - intros H.
    pose proof (Z.square_nonneg (Palette.r (rgb e) - r)) as Sr.
    pose proof (Z.square_nonneg (Palette.g (rgb e) - g)) as Sg.
    pose proof (Z.square_nonneg (Palette.b (rgb e) - b)) as Sb.
    assert (H1 : (Palette.r (rgb e) - r) * (Palette.r (rgb e) - r) = 0)
      by lia.
    assert (H2 : (Palette.g (rgb e) - g) * (Palette.g (rgb e) - g) = 0)
      by lia.
    assert (H3 : (Palette.b (rgb e) - b) * (Palette.b (rgb e) - b) = 0)
      by lia.
    apply Z.mul_eq_0 in H1, H2, H3. lia.
  - intros (-> & -> & ->). rewrite !Z.sub_diag. reflexivity.
Qed.

Lemma quantizeCell_member (framePixels : list Z) (sourceWidth : Z)
    (paletteData : list PaletteEntry) (sourceY sourceX : Z) :
  paletteData <> [] ->
  exists e, quantizeCell framePixels sourceWidth paletteData sourceY sourceX
            = Some (hex e) /\ e ∈ paletteData.
Proof.
  intros Hne. unfold quantizeCell. cbv zeta.
  edestruct (nearestEntry_member paletteData) as (e & He & Hin);
    [exact Hne|].
  rewrite He. by exists e.
Qed.

Lemma quantizeAt_member (framePixels : list Z) (sourceWidth : Z)
    (paletteData : list PaletteEntry) (sourceY sourceX : Num.t) :
  paletteData <> [] ->
  exists e, quantizeAt framePixels sourceWidth paletteData sourceY sourceX
            = Some (hex e) /\ e ∈ paletteData.
Proof.
  intros Hne. unfold quantizeAt.
  destruct sourceY as [| | |y];
    try (destruct (nearestEntry_member paletteData None None None Hne)
           as (e & -> & Hin); by exists e).
  destruct sourceX as [| | |x];
    try (destruct (nearestEntry_member paletteData None None None Hne)
           as (e & -> & Hin); by exists e).
  by apply quantizeCell_member.
Qed.

Lemma quantizeAt_nil (framePixels : list Z) (sourceWidth : Z)
    (sourceY sourceX : Num.t) :
  quantizeAt framePixels sourceWidth [] sourceY sourceX = None.
Proof. by destruct sourceY, sourceX. Qed.

(** The array creation at the head of [quantizeFramePixels] succeeds. *)
Lemma quantizeFramePixels_lengths_ok (framePixels : list Z)
    (sourceWidth sourceHeight sampleWidth sampleHeight : Z)
    (paletteData : list PaletteEntry) :
  sampleHeight < 2 ^ 32 ->
  (0 < sampleHeight -> 0 <= sampleWidth < 2 ^ 32) ->
  quantizeFramePixels framePixels sourceWidth sourceHeight sampleWidth
    sampleHeight paletteData
  = match
      mapM (fun y =>
              mapM (fun x =>
                      quantizeAt framePixels sourceWidth paletteData
                        (clamp (sourceCoord y sampleHeight sourceHeight)
                               sourceHeight)
                        (clamp (sourceCoord x sampleWidth sourceWidth)
                               sourceWidth))
                   (seqZ 0 sampleWidth))
           (seqZ 0 sampleHeight)
    with
    | Some colorGrid => inr colorGrid
    | None => inl TypeError
    end.
Proof.
  intros Hh Hw. unfold quantizeFramePixels.
  destruct (Z.leb_spec (2 ^ 32) sampleHeight); [lia|].
  destruct (Z.ltb_spec 0 sampleHeight) as [Hpos|Hnp]; cbn [andb]; [|done].
  unfold validArrayLength.
  destruct (Z.leb_spec 0 sampleWidth); [|lia].
  destruct (Z.ltb_spec sampleWidth (2 ^ 32)); [|lia]. done.
Qed.

(** The grid [quantizeFramePixels] returns, cell by cell. *)
Lemma quantizeFramePixels_grid (framePixels : list Z)
    (sourceWidth sourceHeight sampleWidth sampleHeight : Z)
    (paletteData : list PaletteEntry) :
  paletteData <> [] ->
  sampleHeight < 2 ^ 32 ->
  (0 < sampleHeight -> 0 <= sampleWidth < 2 ^ 32) ->
  exists colorGrid : list (list string),
    quantizeFramePixels framePixels sourceWidth sourceHeight sampleWidth
      sampleHeight paletteData = inr colorGrid /\
    length colorGrid = Z.to_nat sampleHeight /\
    forall y, 0 <= y < sampleHeight ->
      exists row : list string,
        colorGrid !! Z.to_nat y = Some row /\
        length row = Z.to_nat sampleWidth /\
        forall x, 0 <= x < sampleWidth ->
          row !! Z.to_nat x
          = quantizeAt framePixels sourceWidth paletteData
              (clamp (sourceCoord y sampleHeight sourceHeight) sourceHeight)
              (clamp (sourceCoord x sampleWidth sourceWidth) sourceWidth).
Proof.
  intros Hne Hh Hw.
  rewrite quantizeFramePixels_lengths_ok by done.
  set (cell := fun y x =>
         quantizeAt framePixels sourceWidth paletteData
           (clamp (sourceCoord y sampleHeight sourceHeight) sourceHeight)
           (clamp (sourceCoord x sampleWidth sourceWidth) sourceWidth)).
  change (mapM _ (seqZ 0 sampleHeight))
    with (mapM (fun y => mapM (cell y) (seqZ 0 sampleWidth))
               (seqZ 0 sampleHeight)).
  assert (Hrow : forall y, exists row : list string,
            mapM (cell y) (seqZ 0 sampleWidth) = Some row /\
            length row = Z.to_nat sampleWidth /\
            forall x, 0 <= x < sampleWidth ->
              row !! Z.to_nat x = cell y x).
  { intros y. apply mapM_seqZ_lookup. intros x _. subst cell. cbv beta.
    edestruct quantizeAt_member as (e & -> & _); [exact Hne|]. eauto. }
  destruct (mapM_seqZ_lookup
              (fun y => mapM (cell y) (seqZ 0 sampleWidth)) sampleHeight)
    as (grid & -> & Hglen & Hgl).
  { intros y _. destruct (Hrow y) as (row & -> & _). eauto. }
  exists grid. split; [done|]. split; [exact Hglen|].
  intros y Hy. destruct (Hrow y) as (row & Hr & Hlen & Hcells).
  exists row. split; [|done]. by rewrite (Hgl y Hy).
Qed.

Lemma mapM_cons_None {A B : Type} (f : A -> option B) (x : A) (l : list A) :
  f x = None -> mapM f (x :: l) = None.
Proof. intros Hx. cbn. by rewrite Hx. Qed.

End QuantizerEdgeFacts.

(** X10: the outcomes of [quantizeFramePixels].  It throws a [RangeError]
    exactly when a dimension is not an array length: [sampleHeight] is
    [2 ^ 32] or more, or there is at least one row and [sampleWidth] is
    negative or [2 ^ 32] or more.  Otherwise it throws a [TypeError]
    ([closest] is undefined) exactly when the palette is empty and the grid
    has a cell, and with a non-empty palette it returns, for any buffer, a
    grid of [sampleHeight] rows (none when that is 0 or less) of
    [sampleWidth] cells, each the hex of an entry of the palette. *)
Theorem X10_quantize_total (framePixels : list Z)
    (sourceWidth sourceHeight sampleWidth sampleHeight : Z)
    (paletteData : list Quantizer.PaletteEntry) :
  let result :=
    Quantizer.quantizeFramePixels framePixels sourceWidth sourceHeight
      sampleWidth sampleHeight paletteData in
  let badLength :=
    2 ^ 32 <= sampleHeight \/
    (0 < sampleHeight /\ (sampleWidth < 0 \/ 2 ^ 32 <= sampleWidth)) in
  (result = inl Quantizer.RangeError <-> badLength) /\
  (result = inl Quantizer.TypeError <->
   ~ badLength /\ paletteData = [] /\ 0 < sampleWidth /\ 0 < sampleHeight) /\
  (~ badLength -> paletteData <> [] ->
   exists colorGrid : list (list string),
     result = inr colorGrid /\
     length colorGrid = Z.to_nat sampleHeight /\
     Forall (fun row =>
               length row = Z.to_nat sampleWidth /\
               Forall (fun cell =>
                         exists e, e ∈ paletteData
                                   /\ cell = Quantizer.hex e) row)
            colorGrid).
Proof.
  intros result badLength.
  assert (Hdec : badLength \/ ~ badLength) by (subst badLength; lia).
  destruct Hdec as [Hbad|Hok].
  { assert (Hres : result = inl Quantizer.RangeError).
    { subst result badLength. unfold Quantizer.quantizeFramePixels.
      destruct (Z.leb_spec (2 ^ 32) sampleHeight); [done|].
      destruct (Z.ltb_spec 0 sampleHeight); [|lia].
      unfold Quantizer.validArrayLength.
      destruct (Z.leb_spec 0 sampleWidth); [|done].
      destruct (Z.ltb_spec sampleWidth (2 ^ 32)); [lia|done]. }
    rewrite Hres. split; [done|]. split; [|done].
    split; [done|]. by intros [? _]. }
  assert (Hh : sampleHeight < 2 ^ 32) by (subst badLength; lia).
  assert (Hw : 0 < sampleHeight -> 0 <= sampleWidth < 2 ^ 32)
    by (subst badLength; lia).
  destruct paletteData as [|e0 rest].
  - (* empty palette *)
    destruct (decide (0 < sampleWidth /\ 0 < sampleHeight)) as [[Hw0 Hh0]|Hno].
    + assert (Hres : result = inl Quantizer.TypeError).
      { subst result. rewrite quantizeFramePixels_lengths_ok by done.
        rewrite (seqZ_cons 0 sampleHeight) by lia.
        rewrite mapM_cons_None; [done|].
        rewrite (seqZ_cons 0 sampleWidth) by lia.
        apply mapM_cons_None, quantizeAt_nil. }
      rewrite Hres. split; [by split|]. by split.
    + assert (Hres : exists grid, result = inr grid).
      { subst result. rewrite quantizeFramePixels_lengths_ok by done.
        destruct (mapM_seqZ_lookup
                    (fun y =>
                       mapM (fun x =>
                               Quantizer.quantizeAt framePixels sourceWidth
                                 []
                                 (Quantizer.clamp
                                    (Quantizer.sourceCoord y sampleHeight
                                       sourceHeight) sourceHeight)
                                 (Quantizer.clamp
                                    (Quantizer.sourceCoord x sampleWidth
                                       sourceWidth) sourceWidth))
                            (seqZ 0 sampleWidth)) sampleHeight)
          as (grid & -> & _); [|eauto].
        intros y Hy. rewrite seqZ_nil by lia. by eexists. }
      destruct Hres as [grid ->].
      split; [by split|]. split; [|done]. split; [done|].
      intros (_ & _ & ? & ?). lia.
  - (* a palette with an entry *)
    destruct (quantizeFramePixels_grid framePixels sourceWidth sourceHeight
                sampleWidth sampleHeight (e0 :: rest))
      as (grid & Hres & Hlen & Hrows); [done|done|done|].
    fold result in Hres. rewrite Hres.
    split; [by split|]. split; [split; [done|by intros (_ & ? & _)]|].
    intros _ _. exists grid. split; [done|]. split; [exact Hlen|].
    apply Forall_lookup. intros i row Hi.
    assert (Hlt : (i < Z.to_nat sampleHeight)%nat).
    { rewrite <- Hlen. by eapply lookup_lt_Some. }
    destruct (Hrows (Z.of_nat i) ltac:(lia)) as (row' & Hr' & Hrl & Hcells).
    rewrite Nat2Z.id, Hi in Hr'. injection Hr' as <-.
    split; [exact Hrl|].
    apply Forall_lookup. intros j c Hj.
    assert (Hjlt : (j < Z.to_nat sampleWidth)%nat).
    { rewrite <- Hrl. by eapply lookup_lt_Some. }
    specialize (Hcells (Z.of_nat j) ltac:(lia)).
    rewrite Nat2Z.id, Hj in Hcells.
    edestruct (quantizeAt_member framePixels sourceWidth (e0 :: rest))
      as (e & He & Hin); [done|].
    rewrite He in Hcells. injection Hcells as ->. by exists e.
Qed.

Lemma X10_quantize_total_witness :
  Quantizer.quantizeFramePixels [1; 2] 1 1 (-1) 1 Quantizer.blackWhite
  = inl Quantizer.RangeError /\
  Quantizer.quantizeFramePixels [10; 10; 10; 255] 1 1 1 1 []
  = inl Quantizer.TypeError /\
  exists colorGrid : list (list string),
    Quantizer.quantizeFramePixels [1; 2] 1 1 2 1 Quantizer.blackWhite
    = inr colorGrid /\ length colorGrid = 1%nat.
Proof.
  pose proof (X10_quantize_total [1; 2] 1 1 (-1) 1 Quantizer.blackWhite)
    as H1.
  pose proof (X10_quantize_total [10; 10; 10; 255] 1 1 1 1 []) as H2.
  pose proof (X10_quantize_total [1; 2] 1 1 2 1 Quantizer.blackWhite) as H3.
  cbv zeta in H1, H2, H3.
  destruct H1 as (H1 & _). destruct H2 as (_ & H2 & _).
  destruct H3 as (_ & _ & H3).
  split; [|split].
  - apply (proj2 H1). lia.
  - apply (proj2 H2). split; [lia|]. split; [reflexivity|lia].
  - destruct H3 as (grid & Hg & Hlen & _); [lia|discriminate|].
    exists grid. split; [exact Hg|exact Hlen].
Defined.

(** X11: a read outside the frame buffer does not fail.  When the pixel a
    cell samples is not wholly inside the buffer (its index is negative, or
    one of its three color bytes lies past the end), every distance is [NaN]
    and the cell gets the hex of the first palette entry. *)
Theorem X11_quantize_short_buffer (framePixels : list Z) (sourceWidth : Z)
    (paletteData : list Quantizer.PaletteEntry) (sourceY sourceX : Z) :
  let index := (sourceY * sourceWidth + sourceX) * 4 in
  index < 0 \/ Z.of_nat (length framePixels) <= index + 2 ->
  Quantizer.quantizeCell framePixels sourceWidth paletteData sourceY sourceX
  = Quantizer.hex <$> paletteData !! 0%nat.
Proof.
  intros index Hout. unfold Quantizer.quantizeCell. fold index. cbv zeta.
  rewrite nearestEntry_undefined; [done|].
  unfold Quantizer.readByte.
  destruct Hout as [Hneg|Hshort].
  - left. by destruct (Z.ltb_spec index 0); [|lia].
  - right. right. destruct (Z.ltb_spec (index + 2) 0); [done|].
    apply lookup_ge_None. lia.
Qed.

Lemma X11_quantize_short_buffer_witness :
  Quantizer.quantizeCell [250; 250] 1 Quantizer.blackWhite 0 0
  = Some "#000000".
Proof.
  apply (X11_quantize_short_buffer [250; 250] 1 Quantizer.blackWhite 0 0).
  right. cbn. lia.
Defined.

(** X12: palette colors are fixed points of the quantizer.  If the pixel has
    exactly the color of some palette entry (all components bytes), the
    search returns the first entry of the palette with that color. *)
Theorem X12_quantize_exact_color (paletteData : list Quantizer.PaletteEntry)
    (e0 : Quantizer.PaletteEntry) :
  Forall Quantizer.byteEntry paletteData ->
  e0 ∈ paletteData ->
  let r := Palette.r (Quantizer.rgb e0) in
  let g := Palette.g (Quantizer.rgb e0) in
  let b := Palette.b (Quantizer.rgb e0) in
  exists (i : nat) (e : Quantizer.PaletteEntry),
    Quantizer.nearestEntry paletteData (Some r) (Some g) (Some b) = Some e /\
    paletteData !! i = Some e /\
    Quantizer.rgb e = Quantizer.rgb e0 /\
    forall (j : nat) (e' : Quantizer.PaletteEntry),
      (j < i)%nat -> paletteData !! j = Some e' ->
      Quantizer.rgb e' <> Quantizer.rgb e0.
Proof.
  intros Hbytes Hin r g b.
  assert (Hne : paletteData <> []) by (intros ->; by apply elem_of_nil in Hin).
  assert (Hb0 : Quantizer.byteEntry e0).
  { rewrite Forall_forall in Hbytes. by apply Hbytes. }
  destruct Hb0 as (Hr & Hg & Hb).
  destruct (nearestEntry_spec paletteData r g b Hne Hbytes Hr Hg Hb)
    as (i & e & Hnear & Hi & Hmin).
  apply list_elem_of_lookup in Hin as [i0 Hi0].
  assert (H0 : Quantizer.sqdist e0 r g b = 0) by (by apply sqdist_zero).
  destruct (Hmin i0 e0 Hi0) as [Hle _].
  assert (Hbe : Quantizer.byteEntry e).
  { rewrite Forall_forall in Hbytes. apply Hbytes.
    by eapply list_elem_of_lookup_2. }
  pose proof (sqdist_bound e r g b Hbe Hr Hg Hb) as [Hge _].
  assert (He0 : Quantizer.sqdist e r g b = 0) by lia.
  assert (Hrgb : forall e', Quantizer.sqdist e' r g b = 0 <->
                            Quantizer.rgb e' = Quantizer.rgb e0).
  { intros e'. rewrite sqdist_zero. subst r g b.
    destruct (Quantizer.rgb e'), (Quantizer.rgb e0). cbn. split.
    - by intros (-> & -> & ->).
    - by intros [= -> -> ->]. }
  exists i, e. split; [exact Hnear|]. split; [exact Hi|].
  split; [by apply Hrgb|].
  intros j e' Hj Hje' Heq. apply Hrgb in Heq.
  destruct (Hmin j e' Hje') as [_ Hlt]. specialize (Hlt Hj). lia.
Qed.

Lemma X12_quantize_exact_color_witness :
  exists (i : nat) (e : Quantizer.PaletteEntry),
    Quantizer.nearestEntry Quantizer.blackWhite (Some 255) (Some 255)
      (Some 255) = Some e /\
    Quantizer.blackWhite !! i = Some e /\
    Quantizer.hex e = "#ffffff".
Proof.
  destruct (X12_quantize_exact_color Quantizer.blackWhite
              {| Quantizer.hex := "#ffffff";
                 Quantizer.rgb := {| Palette.r := 255; Palette.g := 255;
                                     Palette.b := 255 |} |})
    as (i & e & Hnear & Hi & Hrgb & _).
  - repeat constructor; cbn; lia.
  - apply list_elem_of_further, list_elem_of_here.
  - exists i, e. split; [exact Hnear|]. split; [exact Hi|].
    cbn in Hnear. by injection Hnear as <-.
Defined.

(** X13: the sampling formula as the code evaluates it, in doubles, for a
    grid of [gridDim] cells over [sourceDim] source pixels with
    [2 * gridDim * sourceDim <= 2 ^ 50].  Cell [c] reads the pixel
    [floor((2c + 1) * sourceDim / (2 * gridDim))] of exact arithmetic, or the
    one before it when that quotient is a whole number.  The pixel never
    leaves the source (the clamp is the identity), the order of the cells is
    kept, a grid of the source's size reads every pixel at its place, and
    when the source is [f] times the grid cell [c] reads a pixel of its own
    block of [f]: pixel [f / 2] of it for odd [f], that one or the one before
    for even [f].  With 40 cells over 240 pixels, cell 20 reads pixel 122
    where exact arithmetic gives 123. *)
Theorem X13_sampling_geometry :
  (forall gridDim sourceDim : Z,
     0 < gridDim -> 0 < sourceDim -> 2 * gridDim * sourceDim <= 2 ^ 50 ->
     (forall c, 0 <= c < gridDim ->
        exists z : Z,
          Quantizer.sourceCoord c gridDim sourceDim = Num.Int z /\
          Quantizer.clamp (Quantizer.sourceCoord c gridDim sourceDim)
            sourceDim = Num.Int z /\
          0 <= z < sourceDim /\
          (2 * c + 1) * sourceDim / (2 * gridDim) - 1 <= z
          <= (2 * c + 1) * sourceDim / (2 * gridDim) /\
          (((2 * c + 1) * sourceDim) mod (2 * gridDim) <> 0 ->
           z = (2 * c + 1) * sourceDim / (2 * gridDim))) /\
     (forall c c' z z', 0 <= c -> c <= c' -> c' < gridDim ->
        Quantizer.sourceCoord c gridDim sourceDim = Num.Int z ->
        Quantizer.sourceCoord c' gridDim sourceDim = Num.Int z' ->
        z <= z') /\
     (forall c, 0 <= c < gridDim -> sourceDim = gridDim ->
        Quantizer.sourceCoord c gridDim sourceDim = Num.Int c) /\
     (forall f c, 0 < f -> sourceDim = f * gridDim -> 0 <= c < gridDim ->
        exists z : Z,
          Quantizer.sourceCoord c gridDim sourceDim = Num.Int z /\
          c * f <= z < (c + 1) * f /\
          c * f + f / 2 - 1 <= z <= c * f + f / 2 /\
          (Z.odd f = true -> z = c * f + f / 2))) /\
  Quantizer.sourceCoord 20 40 240 = Num.Int 122 /\
  (2 * 20 + 1) * 240 / (2 * 40) = 123.
Proof.
  split; [|split; [by vm_compute|reflexivity]].
  intros gridDim sourceDim Hg Hs Hbound.
  assert (Hcell : forall c, 0 <= c < gridDim ->
            exists z : Z,
              Quantizer.sourceCoord c gridDim sourceDim = Num.Int z /\
              0 <= z < sourceDim /\
              (2 * c + 1) * sourceDim / (2 * gridDim) - 1 <= z
              <= (2 * c + 1) * sourceDim / (2 * gridDim) /\
              (((2 * c + 1) * sourceDim) mod (2 * gridDim) <> 0 ->
               z = (2 * c + 1) * sourceDim / (2 * gridDim))).
  { intros c Hc.
    destruct (sourceCoord_floor c gridDim sourceDim Hc ltac:(lia) Hbound)
      as (z & Hz & Hrange & Hexact).
    cbv zeta in Hrange, Hexact.
    exists z. split; [exact Hz|]. split; [|by split].
    pose proof (Z.div_mod ((2 * c + 1) * sourceDim) (2 * gridDim)
                  ltac:(lia)) as Hdm.
    pose proof (Z.mod_pos_bound ((2 * c + 1) * sourceDim) (2 * gridDim)
                  ltac:(lia)) as Hm.
    set (E := (2 * c + 1) * sourceDim / (2 * gridDim)) in *.
    set (m := ((2 * c + 1) * sourceDim) mod (2 * gridDim)) in *.
    assert (HE : 0 <= E < sourceDim) by nia.
    destruct (decide (m = 0)) as [Hm0|Hm0]; [|specialize (Hexact Hm0); lia].
    assert (E <> 0) by nia. lia. }
  split; [|split; [|split]].
  - intros c Hc. destruct (Hcell c Hc) as (z & Hz & Hr & Hfl & Hex).
    exists z. split; [exact Hz|]. split; [|done].
    rewrite Hz, clamp_Int by lia. f_equal. lia.
  - intros c c' z z' Hc0 Hcc Hc' Hz Hz'.
    destruct (Hcell c ltac:(lia)) as (y & Hy & _ & Hyfl & _).
    destruct (Hcell c' ltac:(lia)) as (y' & Hy' & _ & Hyfl' & Hyex').
    assert (y = z) by congruence. assert (y' = z') by congruence.
    subst y y'.
    destruct (decide (c = c')) as [->|Hne].
    { assert (z = z') by congruence. lia. }
    pose proof (Z.div_mod ((2 * c + 1) * sourceDim) (2 * gridDim)
                  ltac:(lia)) as Hdm.
    pose proof (Z.mod_pos_bound ((2 * c + 1) * sourceDim) (2 * gridDim)
                  ltac:(lia)) as Hm.
    pose proof (Z.div_mod ((2 * c' + 1) * sourceDim) (2 * gridDim)
                  ltac:(lia)) as Hdm'.
    pose proof (Z.mod_pos_bound ((2 * c' + 1) * sourceDim) (2 * gridDim)
                  ltac:(lia)) as Hm'.
    set (E := (2 * c + 1) * sourceDim / (2 * gridDim)) in *.
    set (m := ((2 * c + 1) * sourceDim) mod (2 * gridDim)) in *.
    set (E' := (2 * c' + 1) * sourceDim / (2 * gridDim)) in *.
    set (m' := ((2 * c' + 1) * sourceDim) mod (2 * gridDim)) in *.
    assert (HNN : (2 * c + 1) * sourceDim < (2 * c' + 1) * sourceDim)
      by nia.
    destruct (decide (m' = 0)) as [Hm0|Hm0].
    + assert (E < E') by nia. lia.
    + specialize (Hyex' Hm0). assert (E <= E') by nia. lia.
  - intros c Hc ->. apply sourceCoord_same; [done|nia].
  - intros f c Hf -> Hc.
    destruct (Hcell c Hc) as (z & Hz & _ & Hfl & Hex).
    exists z. split; [exact Hz|].
    assert (HN : (2 * c + 1) * (f * gridDim) = (2 * c + 1) * f * gridDim)
      by lia.
    assert (Hq : (2 * c + 1) * (f * gridDim) / (2 * gridDim)
                 = c * f + f / 2).
    { pose proof (Z.div_mod f 2 ltac:(lia)) as Hf2.
      pose proof (Z.mod_pos_bound f 2 ltac:(lia)) as Hr2.
      symmetry.
      apply (Z.div_unique_pos _ _ (c * f + f / 2) (f mod 2 * gridDim));
        nia. }
    assert (Hmod : Z.odd f = true ->
              ((2 * c + 1) * (f * gridDim)) mod (2 * gridDim) <> 0).
    { intros Hodd Hzero.
      apply Z.mod_divide in Hzero; [|lia].
      destruct Hzero as [k Hk].
      assert (Hk' : (2 * c + 1) * f = 2 * k) by nia.
      rewrite <- Z.negb_even in Hodd.
      assert (Hev : Z.even ((2 * c + 1) * f) = true).
      { rewrite Hk'. apply Z.even_mul. }
      rewrite Z.even_mul in Hev.
      replace (2 * c + 1) with (1 + 2 * c) in Hev by lia.
      rewrite Z.even_add_mul_2 in Hev. cbn in Hev.
      rewrite Hev in Hodd. done. }
    rewrite Hq in Hfl, Hex.
    pose proof (Z.div_mod f 2 ltac:(lia)) as Hf2.
    pose proof (Z.mod_pos_bound f 2 ltac:(lia)) as Hr2.
    assert (Hodd_or : Z.odd f = true \/ Z.odd f = false)
      by (destruct (Z.odd f); auto).
    destruct Hodd_or as [Hodd|Heven].
    + specialize (Hex (Hmod Hodd)). subst z.
      split; [nia|]. split; [lia|done].
    + assert (Hf2' : f mod 2 = 0).
      { rewrite Zmod_odd, Heven. reflexivity. }
      assert (2 <= f) by lia.
      split; [nia|]. split; [lia|]. intros Hodd. congruence.
Qed.

Lemma X13_sampling_geometry_witness :
  Quantizer.sourceCoord 3 8 8 = Num.Int 3 /\
  exists z : Z,
    Quantizer.sourceCoord 3 8 40 = Num.Int z /\ 3 * 5 <= z < (3 + 1) * 5.
Proof.
  destruct X13_sampling_geometry as [Hgen _].
  split.
  - destruct (Hgen 8 8) as (_ & _ & H & _); [lia..|].
    apply (H 3); [lia|reflexivity].
  - destruct (Hgen 8 40) as (_ & _ & _ & H); [lia..|].
    destruct (H 5 3) as (z & Hz & Hr & _); [lia|reflexivity|lia|].
    exists z. split; [exact Hz|exact Hr].
Defined.

Section DecoderLoopFacts.
Import Decoder DecoderLoop.

(** [decodeFrame] for any frame, inside the canvas or not. *)
Lemma decodeFrame_loop_spec (reader : Reader.t) (h : heap)
    (frames : list FrameData.t) (i : nat) (frame : FrameInfo.t) :
  blitKeepsLength reader ->
  (0 < length h)%nat ->
  let canvas := deref h 0%nat in
  let composited := Reader.decodeAndBlitFrameRGBA reader i canvas in
  exists (h' : heap) (fr : FrameData.t),
    decodeFrame reader 0%nat (h, frames) (i, frame) = (h', frames ++ [fr]) /\
    deref h' 0%nat = afterDisposal reader frame canvas composited /\
    deref h' (FrameData.pixels fr) = composited /\
    FrameData.delay fr = FrameInfo.delay frame /\
    (length h <= FrameData.pixels fr < length h')%nat /\
    (forall q, (0 < q < length h)%nat -> deref h' q = deref h q).
Proof.
  intros Hkeep Hh. cbv zeta.
  unfold decodeFrame, afterDisposal, alloc.
  destruct (FrameInfo.disposal frame =? 3) eqn:E3.
  - assert (E2 : (FrameInfo.disposal frame =? 2) = false).
    { apply Z.eqb_eq in E3. rewrite E3. reflexivity. }
    rewrite E2.
    rewrite !(deref_app_old h (deref h 0%nat) 0%nat) by lia.
    set (canvas := deref h 0%nat).
    set (composited := Reader.decodeAndBlitFrameRGBA reader i canvas).
    set (h2 := store (h ++ [canvas]) 0%nat composited).
    assert (Hh2 : length h2 = S (length h)).
    { subst h2. rewrite store_length, length_app. cbn. lia. }
    assert (Hd2 : deref h2 0%nat = composited).
    { subst h2. apply deref_store_eq. rewrite length_app. lia. }
    rewrite Hd2. set (h3 := h2 ++ [composited]).
    assert (Hh3 : length h3 = S (S (length h))).
    { subst h3. rewrite length_app, Hh2. cbn. lia. }
    assert (Hcur : deref h3 0%nat = composited).
    { subst h3. rewrite deref_app_old by lia. exact Hd2. }
    assert (Hsnap : deref h3 (length h) = canvas).
    { subst h3. rewrite deref_app_old by lia. subst h2.
      rewrite deref_store_ne by lia. apply deref_app_new. }
    rewrite Hcur, Hsnap.
    rewrite typedArraySet_same_length
      by (subst composited; by rewrite Hkeep).
    eexists _, _. split; [reflexivity|].
    cbn [FrameData.pixels FrameData.delay]. rewrite store_length, Hh2, Hh3.
    split. { apply deref_store_eq. lia. }
    split. { rewrite deref_store_ne by lia. subst h3.
             rewrite <- Hh2. apply deref_app_new. }
    split; [done|]. split; [lia|].
    intros q Hq. rewrite deref_store_ne by lia. subst h3.
    rewrite deref_app_old by lia. subst h2.
    rewrite deref_store_ne by lia. apply deref_app_old. lia.
  - set (canvas := deref h 0%nat).
    set (composited := Reader.decodeAndBlitFrameRGBA reader i canvas).
    set (h2 := store h 0%nat composited).
    assert (Hh2 : length h2 = length h) by apply store_length.
    assert (Hd2 : deref h2 0%nat = composited).
    { subst h2. by apply deref_store_eq. }
    rewrite Hd2. set (h3 := h2 ++ [composited]).
    assert (Hh3 : length h3 = S (length h)).
    { subst h3. rewrite length_app, Hh2. cbn. lia. }
    assert (Hcur : deref h3 0%nat = composited).
    { subst h3. rewrite deref_app_old by lia. exact Hd2. }
    assert (Hnew : deref h3 (length h2) = composited).
    { subst h3. apply deref_app_new. }
    assert (Hold : forall q, (0 < q < length h)%nat ->
                             deref h3 q = deref h q).
    { intros q Hq. subst h3. rewrite deref_app_old by lia.
      subst h2. apply deref_store_ne. lia. }
    destruct (FrameInfo.disposal frame =? 2) eqn:E2.
    + rewrite Hcur.
      eexists _, _. split; [reflexivity|].
      cbn [FrameData.pixels FrameData.delay]. rewrite store_length, Hh2, Hh3.
      split. { apply deref_store_eq. lia. }
      split. { rewrite deref_store_ne by lia. by rewrite <- Hh2. }
      split; [done|]. split; [lia|].
      intros q Hq. rewrite deref_store_ne by lia. by apply Hold.
    + eexists _, _. split; [reflexivity|].
      cbn [FrameData.pixels FrameData.delay]. rewrite Hh2, Hh3.
      split; [exact Hcur|].
      split. { by rewrite <- Hh2. }
      split; [done|]. split; [lia|]. exact Hold.
Qed.

Lemma decode_loop_frames (reader : Reader.t) (infos : list FrameInfo.t) :
  blitKeepsLength reader ->
  forall (i : nat) (h : heap) (frames : list FrameData.t),
    (0 < length h)%nat ->
    Forall (fun fr => (0 < FrameData.pixels fr < length h)%nat) frames ->
    exists (h' : heap) (frames' : list FrameData.t),
      foldl (decodeFrame reader 0%nat) (h, frames)
            (zip (seq i (length infos)) infos) = (h', frames') /\
      frameBuffers h' frames'
      = frameBuffers h frames ++ loopFrames reader i infos (deref h 0%nat) /\
      Forall (fun fr => (0 < FrameData.pixels fr < length h')%nat) frames'.
Proof.
  intros Hkeep. induction infos as [|frame infos IH];
    intros i h frames Hh Hrefs.
  - exists h, frames. cbn. by rewrite app_nil_r.
  - cbn [length seq zip zip_with foldl loopFrames].
    destruct (decodeFrame_loop_spec reader h frames i frame Hkeep Hh)
      as (h1 & fr & -> & Hcanvas & Hpix & Hdelay & Hfresh & Hold).
    assert (Hh1 : (0 < length h1)%nat) by lia.
    assert (Hrefs1 : Forall (fun fr' =>
              (0 < FrameData.pixels fr' < length h1)%nat) (frames ++ [fr])).
    { apply Forall_app. split.
      - eapply Forall_impl; [exact Hrefs|]. cbn. intros fr' ?. lia.
      - apply Forall_singleton. lia. }
    destruct (IH (S i) h1 (frames ++ [fr]) Hh1 Hrefs1)
      as (h' & frames' & Hfold & Hbufs & Hrefs').
    exists h', frames'. split; [exact Hfold|].
    split; [|done]. rewrite Hbufs, Hcanvas.
    unfold frameBuffers at 1. rewrite fmap_app, <- app_assoc.
    cbn [fmap list_fmap app]. rewrite Hpix, Hdelay. f_equal.
    apply frameBuffers_ext.
    eapply Forall_impl; [exact Hrefs|]. cbn. intros fr' ?. apply Hold. lia.
Qed.

Lemma extractGifSource_loopFrames (reader : Reader.t) :
  Reader.frameInfo reader <> [] ->
  blitKeepsLength reader ->
  exists (source : Source.t) (h : heap),
    extractGifSource reader = inr (source, h) /\
    Source.width source = Reader.width reader /\
    Source.height source = Reader.height reader /\
    Source.loopCount source = Reader.loopCount reader /\
    frameBuffers h (Source.frames source)
    = loopFrames reader 0 (Reader.frameInfo reader)
        (replicate (Reader.width reader * Reader.height reader * 4) 0).
Proof.
  intros Hne Hkeep. unfold extractGifSource, Reader.numFrames, alloc.
  rewrite decide_False by (by destruct (Reader.frameInfo reader)).
  cbn [app length].
  destruct (decode_loop_frames reader (Reader.frameInfo reader) Hkeep
              0%nat
              [replicate (Reader.width reader * Reader.height reader * 4) 0]
              [])
    as (h & frames & -> & Hbufs & _).
  { cbn. lia. }
  { constructor. }
  eexists _, h. split; [reflexivity|].
  cbn [Source.width Source.height Source.loopCount Source.frames].
  split; [reflexivity|]. split; [reflexivity|]. split; [reflexivity|].
  exact Hbufs.
Qed.

Lemma afterDisposal_length (reader : Reader.t) (frame : FrameInfo.t)
    (before composited : list Z) :
  length before = length composited ->
  length (afterDisposal reader frame before composited) = length composited.
Proof.
  intros Hlen. unfold afterDisposal.
  destruct (_ =? 2); [apply clearFrameRegion_length|].
  by destruct (_ =? 3).
Qed.

Lemma loopFrames_shape (reader : Reader.t) (infos : list FrameInfo.t) :
  blitKeepsLength reader ->
  forall (i : nat) (canvas : list Z),
    (loopFrames reader i infos canvas).*2 = FrameInfo.delay <$> infos /\
    Forall (fun b => length b = length canvas)
      (loopFrames reader i infos canvas).*1.
Proof.
  intros Hkeep. induction infos as [|frame infos IH]; intros i canvas.
  - split; [done|constructor].
  - cbn [loopFrames fmap list_fmap fst snd].
    destruct (IH (S i) (afterDisposal reader frame canvas
                          (Reader.decodeAndBlitFrameRGBA reader i canvas)))
      as [Hd Hl].
    split; [by rewrite Hd|].
    constructor; [apply Hkeep|].
    eapply Forall_impl; [exact Hl|]. cbn. intros b ->.
    rewrite afterDisposal_length by (by rewrite Hkeep). apply Hkeep.
Qed.

Lemma canvasBefore_cons (reader : Reader.t) (i n : nat)
    (frame : FrameInfo.t) (infos : list FrameInfo.t) (canvas : list Z) :
  canvasBefore reader i (frame :: infos) canvas (S n)
  = canvasBefore reader (S i) infos
      (afterDisposal reader frame canvas
         (Reader.decodeAndBlitFrameRGBA reader i canvas)) n.
Proof. reflexivity. Qed.

Lemma loopFrames_lookup (reader : Reader.t) (infos : list FrameInfo.t) :
  forall (i n : nat) (canvas : list Z) (frame : FrameInfo.t),
    infos !! n = Some frame ->
    loopFrames reader i infos canvas !! n
    = Some (Reader.decodeAndBlitFrameRGBA reader (i + n)
              (canvasBefore reader i infos canvas n),
            FrameInfo.delay frame).
Proof.
  induction infos as [|f infos IH]; intros i n canvas frame Hn; [done|].
  destruct n as [|n].
  - injection Hn as ->. cbn. by rewrite Nat.add_0_r.
  - rewrite canvasBefore_cons. cbn [loopFrames lookup list_lookup].
    cbn in Hn. rewrite (IH (S i) n _ frame Hn).
    by replace (S i + n)%nat with (i + S n)%nat by lia.
Qed.

Lemma canvasBefore_succ (reader : Reader.t) (infos : list FrameInfo.t) :
  forall (i n : nat) (canvas : list Z) (frame : FrameInfo.t),
    infos !! n = Some frame ->
    canvasBefore reader i infos canvas (S n)
    = afterDisposal reader frame (canvasBefore reader i infos canvas n)
        (Reader.decodeAndBlitFrameRGBA reader (i + n)
           (canvasBefore reader i infos canvas n)).
Proof.
  induction infos as [|f infos IH]; intros i n canvas frame Hn; [done|].
  destruct n as [|n].
  - injection Hn as ->. cbn. by rewrite Nat.add_0_r.
  - cbn in Hn. rewrite !canvasBefore_cons.
    rewrite (IH (S i) n _ frame Hn).
    by replace (S i + n)%nat with (i + S n)%nat by lia.
Qed.

Lemma inRows_beyond (canvasWidth : nat) (frame : FrameInfo.t)
    (rows p : nat) :
  (p < rowStart canvasWidth frame 0)%nat ->
  inRows canvasWidth frame rows p = false.
Proof.
  intros Hp. unfold inRows.
  apply not_true_is_false. intros Hex.
  apply existsb_exists in Hex as (row & _ & Hrow).
  apply andb_true_iff in Hrow as [H1 _]. apply Nat.leb_le in H1.
  unfold rowStart in *. nia.
Qed.

End DecoderLoopFacts.

(** X14: what [clearFrameRegion] never does, for any frame and any canvas
    width: it never changes the length of the buffer, it never writes
    anything but 0 (every byte keeps its value or becomes 0), it touches no
    byte before the start of the frame's first row, and clearing twice is
    clearing once. *)
Theorem X14_clearFrameRegion_only_zeroes (buffer : list Z)
    (canvasWidth : nat) (frame : Decoder.FrameInfo.t) :
  let cleared := Decoder.clearFrameRegion buffer canvasWidth frame in
  length cleared = length buffer /\
  (forall p v, cleared !! p = Some v -> buffer !! p = Some v \/ v = 0) /\
  (forall p, (p < Decoder.rowStart canvasWidth frame 0)%nat ->
             cleared !! p = buffer !! p) /\
  Decoder.clearFrameRegion cleared canvasWidth frame = cleared.
Proof.
  intros cleared. split; [apply clearFrameRegion_length|].
  split; [|split].
  - intros p v. subst cleared. rewrite clearFrameRegion_lookup.
    destruct (buffer !! p) as [u|]; [|done]. cbn.
    destruct (Decoder.inRows _ _ _ _); intros [= <-]; auto.
  - intros p Hp. subst cleared. rewrite clearFrameRegion_lookup.
    rewrite inRows_beyond by done. by destruct (buffer !! p).
  - apply list_eq. intros p. subst cleared.
    rewrite !clearFrameRegion_lookup.
    destruct (buffer !! p) as [u|]; [|done]. cbn.
    by destruct (Decoder.inRows _ _ _ _).
Qed.

(** X15: the shape of a decoded source, for any frames (inside the canvas or
    not), as long as the collaborator decoder keeps the buffer length.
    [extractGifSource] passes width, height and loop count through, gives one
    frame per container frame, with the container's delays in order, and
    every captured buffer has [width * height * 4] bytes. *)
Theorem X15_decoded_source_shape (reader : Decoder.Reader.t) :
  Decoder.Reader.frameInfo reader <> [] ->
  Decoder.blitKeepsLength reader ->
  exists (source : Decoder.Source.t) (h : list (list Z)),
    Decoder.extractGifSource reader = inr (source, h) /\
    Decoder.Source.width source = Decoder.Reader.width reader /\
    Decoder.Source.height source = Decoder.Reader.height reader /\
    Decoder.Source.loopCount source = Decoder.Reader.loopCount reader /\
    length (Decoder.Source.frames source) = Decoder.Reader.numFrames reader /\
    Decoder.FrameData.delay <$> Decoder.Source.frames source
    = Decoder.FrameInfo.delay <$> Decoder.Reader.frameInfo reader /\
    Forall (fun fr =>
              length (Decoder.deref h (Decoder.FrameData.pixels fr))
              = (Decoder.Reader.width reader
                 * Decoder.Reader.height reader * 4)%nat)
           (Decoder.Source.frames source).
Proof.
  intros Hne Hkeep.
  destruct (extractGifSource_loopFrames reader Hne Hkeep)
    as (source & h & Hres & Hw & Hh & Hl & Hbufs).
  exists source, h. split; [exact Hres|].
  split; [exact Hw|]. split; [exact Hh|]. split; [exact Hl|].
  destruct (loopFrames_shape reader (Decoder.Reader.frameInfo reader) Hkeep
              0%nat
              (replicate (Decoder.Reader.width reader
                          * Decoder.Reader.height reader * 4) 0))
    as [Hdelays Hlens].
  rewrite <- Hbufs in Hdelays, Hlens.
  unfold Decoder.frameBuffers in Hdelays, Hlens.
  rewrite <- !list_fmap_compose in Hdelays, Hlens.
  split; [|split].
  - unfold Decoder.Reader.numFrames.
    rewrite <- (length_fmap Decoder.FrameInfo.delay
                  (Decoder.Reader.frameInfo reader)), <- Hdelays.
    by rewrite length_fmap.
  - exact Hdelays.
  - rewrite Forall_fmap in Hlens. rewrite length_replicate in Hlens.
    exact Hlens.
Qed.

Lemma X15_decoded_source_shape_witness :
  exists (source : Decoder.Source.t) (h : list (list Z)),
    Decoder.extractGifSource Decoder.twoFrameReader = inr (source, h) /\
    Decoder.FrameData.delay <$> Decoder.Source.frames source = [10; 7].
Proof.
  destruct (X15_decoded_source_shape Decoder.twoFrameReader)
    as (source & h & Hres & _ & _ & _ & _ & Hd & _).
  - done.
  - intros i canvas. apply solidBlit_length.
  - by exists source, h.
Defined.

(** X16: how consecutive captured frames relate, for any frames.  Frame
    [n + 1] is frame [n + 1]'s delta composited onto: the captured frame [n]
    itself when frame [n] has a disposal code other than 2 and 3
    (accumulate); the captured frame [n] with the byte rows of frame [n]
    cleared when the code is 2; and the very canvas frame [n] was composited
    onto when the code is 3. *)
Theorem X16_consecutive_frames (reader : Decoder.Reader.t) (n : nat)
    (frame next : Decoder.FrameInfo.t) :
  Decoder.blitKeepsLength reader ->
  Decoder.Reader.frameInfo reader !! n = Some frame ->
  Decoder.Reader.frameInfo reader !! S n = Some next ->
  exists (source : Decoder.Source.t) (h : list (list Z))
         (before captured capturedNext : list Z),
    Decoder.extractGifSource reader = inr (source, h) /\
    Decoder.frameBuffers h (Decoder.Source.frames source) !! n
    = Some (captured, Decoder.FrameInfo.delay frame) /\
    Decoder.frameBuffers h (Decoder.Source.frames source) !! S n
    = Some (capturedNext, Decoder.FrameInfo.delay next) /\
    captured = Decoder.Reader.decodeAndBlitFrameRGBA reader n before /\
    capturedNext
    = Decoder.Reader.decodeAndBlitFrameRGBA reader (S n)
        (if Decoder.FrameInfo.disposal frame =? 2 then
           Decoder.clearFrameRegion captured (Decoder.Reader.width reader)
             frame
         else if Decoder.FrameInfo.disposal frame =? 3 then before
         else captured).
Proof.
  intros Hkeep Hn Hn1.
  assert (Hne : Decoder.Reader.frameInfo reader <> []).
  { intros Hnil. by rewrite Hnil in Hn. }
  destruct (extractGifSource_loopFrames reader Hne Hkeep)
    as (source & h & Hres & _ & _ & _ & Hbufs).
  set (zeros := replicate (Decoder.Reader.width reader
                           * Decoder.Reader.height reader * 4) 0) in *.
  set (infos := Decoder.Reader.frameInfo reader) in *.
  exists source, h,
    (DecoderLoop.canvasBefore reader 0 infos zeros n),
    (Decoder.Reader.decodeAndBlitFrameRGBA reader n
       (DecoderLoop.canvasBefore reader 0 infos zeros n)),
    (Decoder.Reader.decodeAndBlitFrameRGBA reader (S n)
       (DecoderLoop.canvasBefore reader 0 infos zeros (S n))).
  split; [exact Hres|]. rewrite Hbufs.
  split; [exact (loopFrames_lookup reader infos 0 n zeros frame Hn)|].
  split; [exact (loopFrames_lookup reader infos 0 (S n) zeros next Hn1)|].
  split; [reflexivity|].
  rewrite (canvasBefore_succ reader infos 0 n zeros frame Hn).
  reflexivity.
Qed.

Lemma X16_consecutive_frames_witness :
  exists (source : Decoder.Source.t) (h : list (list Z))
         (captured capturedNext : list Z),
    Decoder.extractGifSource Decoder.twoFrameReader = inr (source, h) /\
    Decoder.frameBuffers h (Decoder.Source.frames source) !! 1%nat
    = Some (capturedNext, 7) /\
    capturedNext
    = Decoder.solidBlit 20 Decoder.twoFrames 1
        (Decoder.clearFrameRegion captured 20
           {| Decoder.FrameInfo.x := 0; Decoder.FrameInfo.y := 0;
              Decoder.FrameInfo.width := 20; Decoder.FrameInfo.height := 20;
              Decoder.FrameInfo.delay := 10;
              Decoder.FrameInfo.disposal := 2 |}).
Proof.
  destruct (X16_consecutive_frames Decoder.twoFrameReader 0 _ _
              (fun i canvas => solidBlit_length 20 Decoder.twoFrames i canvas)
              eq_refl eq_refl)
    as (source & h & before & captured & capturedNext & Hres & _ & Hn1 & _
        & Hnext).
  exists source, h, captured, capturedNext.
  split; [exact Hres|]. split; [exact Hn1|exact Hnext].
Defined.

Section JobFacts.
Import Orchestrator Jobs.

Lemma step_jobRef (s : AppState) (e : Event) :
  jobRef (step s e) = jobRef s + (if allocatesJob e then 1 else 0).
Proof.
  destruct e as [hasSource ps outcome| | |jobId ps result|];
    cbn [step allocatesJob].
  - destruct hasSource; [apply rebuild_jobRef|]. cbn. lia.
  - rewrite finalize_jobRef. lia.
  - rewrite fail_jobRef. lia.
  - unfold imageOnload. destruct (negb _); [lia|].
    destruct result as [[url v]|detail];
      rewrite ?finalize_jobRef, ?fail_jobRef; lia.
  - unfold imageOnerror. rewrite fail_jobRef. lia.
Qed.

Lemma fail_revokedUrls (jobId : Z) (message detail : string) (s : AppState) :
  revokedUrls (fail jobId message detail s) = revokedUrls s.
Proof. unfold fail. by destruct (negb _). Qed.

Lemma finalize_current (jobId ps : Z) (url : string) (v : option Vector)
    (st : string) (s : AppState) :
  jobRef s = jobId ->
  revokedUrls (finalize jobId ps url v st s) = revokedUrls s /\
  resultPreview (finalize jobId ps url v st s) = Some url /\
  status (finalize jobId ps url v st s) = st /\
  isProcessing (finalize jobId ps url v st s) = false.
Proof.
  intros <-. unfold finalize. by rewrite Z.eqb_refl.
Qed.

Lemma fail_current (jobId : Z) (message detail : string) (s : AppState) :
  jobRef s = jobId ->
  isProcessing (fail jobId message detail s) = false /\
  resultPreview (fail jobId message detail s) = resultPreview s /\
  vectorData (fail jobId message detail s) = vectorData s /\
  status (fail jobId message detail s)
  = (if decide (detail = "") then message else message +:+ ": " +:+ detail).
Proof.
  intros <-. unfold fail. by rewrite Z.eqb_refl.
Qed.

End JobFacts.

(** X17: job ids count the triggers.  Along any run of handlers,
    [jobRef.current] grows by exactly the number of triggers that had a
    source, so every such trigger gets its own id, one more than the
    previous. *)
Theorem X17_jobRef_counts_triggers (s : Orchestrator.AppState)
    (events : list Orchestrator.Event) :
  Orchestrator.jobRef (Orchestrator.run s events)
  = Orchestrator.jobRef s
    + Z.of_nat (length (filter (fun e => Jobs.allocatesJob e = true) events)).
Proof.
  unfold Orchestrator.run. revert s.
  induction events as [|e events IH]; intros s.
  - cbn. lia.
  - cbn [foldl]. rewrite IH, step_jobRef, filter_cons.
    destruct (Jobs.allocatesJob e); cbn.
    + rewrite decide_True by done. cbn [length]. lia.
    + rewrite decide_False by done. lia.
Qed.

(** X19: every completion of the current job ends the busy state.  Whatever
    handler completes the job whose id is current ([finalize], [fail],
    [image.onload], [image.onerror]), [isProcessing] is false afterwards and
    nothing is revoked; a current [fail] keeps the preview and the vector
    data and sets the status to the message, followed by [": "] and the
    detail when there is one. *)
Theorem X19_current_completion_ends_busy (s : Orchestrator.AppState)
    (e : Orchestrator.Event) :
  Orchestrator.completionOf e = Some (Orchestrator.jobRef s) ->
  Orchestrator.isProcessing (Orchestrator.step s e) = false /\
  Orchestrator.revokedUrls (Orchestrator.step s e)
  = Orchestrator.revokedUrls s /\
  (forall message detail,
     e = Orchestrator.Fail (Orchestrator.jobRef s) message detail ->
     Orchestrator.resultPreview (Orchestrator.step s e)
     = Orchestrator.resultPreview s /\
     Orchestrator.vectorData (Orchestrator.step s e)
     = Orchestrator.vectorData s /\
     Orchestrator.status (Orchestrator.step s e)
     = (if decide (detail = "") then message
        else message +:+ ": " +:+ detail)).
Proof.
  intros He.
  destruct e as [|j ps url v st|j msg detail|j ps result|j detail];
    cbn [Orchestrator.completionOf] in He; simplify_eq;
    cbn [Orchestrator.step].
  - destruct (finalize_current (Orchestrator.jobRef s) ps url v st s eq_refl)
      as (Hr & _ & _ & Hp).
    by repeat split.
  - destruct (fail_current (Orchestrator.jobRef s) msg detail s eq_refl)
      as (Hp & Hres & Hvec & Hst).
    split; [exact Hp|]. split; [apply fail_revokedUrls|].
    by intros message detail' [= -> ->].
  - unfold Orchestrator.imageOnload. rewrite Z.eqb_refl. cbn [negb].
    destruct result as [[url v]|detail].
    + destruct (finalize_current (Orchestrator.jobRef s) ps url (Some v) ""
                  s eq_refl) as (Hr & _ & _ & Hp).
      by repeat split.
    + destruct (fail_current (Orchestrator.jobRef s)
                  "Failed to generate pixel art." detail s eq_refl)
        as (Hp & _).
      split; [exact Hp|]. split; [apply fail_revokedUrls|done].
  - unfold Orchestrator.imageOnerror.
    destruct (fail_current (Orchestrator.jobRef s) "Image failed to load."
                detail s eq_refl) as (Hp & _).
    split; [exact Hp|]. split; [apply fail_revokedUrls|done].
Qed.

Lemma X19_current_completion_ends_busy_witness :
  let s := Orchestrator.run Orchestrator.initialState
             [Orchestrator.Trigger true 12 Orchestrator.ImagePending] in
  Orchestrator.isProcessing s = true /\
  Orchestrator.isProcessing
    (Orchestrator.step s (Orchestrator.ImageOnerror 1 "")) = false.
Proof.
  intros s. split; [by vm_compute|].
  by apply (X19_current_completion_ends_busy s
              (Orchestrator.ImageOnerror 1 "")).
Defined.

Section BindFacts.




End BindFacts.

Section PresetFacts.
Import Presets.

Lemma findPreset_elem (presets : list Preset) (wanted : string) (p : Preset) :
  findPreset presets wanted = Some p -> p ∈ presets.
Proof.
  unfold findPreset.
  destruct (list_find _ presets) as [[i q]|] eqn:Hf.
  - intros [= <-]. apply list_find_Some in Hf as (Hi & _).
    by eapply list_elem_of_lookup_2.
  - apply list_elem_of_lookup_2.
Qed.

Lemma lossless_lookup (f : string -> Palette.RGB) (palette : list string) :
  lossless palette = true ->
  let L := Palette.buildPaletteLookup f palette in
  (forall i c, palette !! i = Some c ->
     Palette.colorIndexMap L !! c = Some i /\
     Palette.paletteColors L !! i = Some (Palette.packColor f c)) /\
  Palette.fallbackIndex L = pred (length palette).
Proof.
  intros Hl L. unfold lossless in Hl.
  apply andb_true_iff in Hl as [Hl Hhi].
  apply andb_true_iff in Hl as [Hu Hlo].
  apply bool_decide_eq_true in Hu.
  apply Nat.leb_le in Hlo, Hhi.
  assert (Hlen : (length (Palette.uniqueColors palette) <= 256)%nat)
    by (by rewrite Hu).
  destruct (paddedPalette_small palette Hlen) as [rest Hpad].
  rewrite Hu in Hpad.
  assert (Hnd : NoDup palette).
  { rewrite <- Hu. apply uniqueColors_NoDup. }
  split.
  - intros i c Hi.
    assert (Hfind : list_find (eq c) (Palette.paddedPalette palette)
                    = Some (i, c)).
    { rewrite Hpad. apply list_find_app_l, list_find_Some.
      split; [exact Hi|]. split; [done|].
      intros j y Hj Hlt <-.
      pose proof (NoDup_lookup _ _ _ _ Hnd Hi Hj). lia. }
    cbn [L Palette.buildPaletteLookup Palette.colorIndexMap
           Palette.paletteColors].
    split; [by rewrite buildIndexMap_lookup, Hfind|].
    rewrite list_lookup_fmap, Hpad, lookup_app_l
      by (by eapply lookup_lt_Some).
    by rewrite Hi.
  - cbn [L Palette.buildPaletteLookup Palette.fallbackIndex].
    rewrite (fallbackIndex_small palette Hlen). cbn. by rewrite Hu.
Qed.

End PresetFacts.

(** X20: [getPalette] always returns a preset of the table: the one with the
    wanted id when there is one, the first preset (Game Boy) otherwise.  And
    every palette it can return goes through [buildPaletteLookup] without
    loss: color number [i] of the preset gets slot [i], the table holds its
    packed color there, and the fallback slot is the last color of the
    preset. *)
Theorem X20_getPalette_total_lossless (hexToRgb : string -> Palette.RGB)
    (wanted : string) :
  let preset := Presets.getPalette wanted in
  let L := Palette.buildPaletteLookup hexToRgb (Presets.colors preset) in
  preset ∈ Presets.PIXEL_PRESETS /\
  ((exists q, q ∈ Presets.PIXEL_PRESETS /\ Presets.id q = wanted) ->
   Presets.id preset = wanted) /\
  ((forall q, q ∈ Presets.PIXEL_PRESETS -> Presets.id q <> wanted) ->
   Presets.id preset = "gameboy") /\
  (forall i c, Presets.colors preset !! i = Some c ->
     Palette.colorIndexMap L !! c = Some i /\
     Palette.paletteColors L !! i = Some (Palette.packColor hexToRgb c)) /\
  Palette.fallbackIndex L = pred (length (Presets.colors preset)).
Proof.
  intros preset L.
  assert (Hfound : Presets.findPreset Presets.PIXEL_PRESETS wanted
                   = Some preset).
  { subst preset. unfold Presets.getPalette.
    destruct (Presets.findPreset Presets.PIXEL_PRESETS wanted) eqn:E; [done|].
    unfold Presets.findPreset in E.
    destruct (list_find _ Presets.PIXEL_PRESETS) as [[i q]|]; done. }
  assert (Hin : preset ∈ Presets.PIXEL_PRESETS)
    by (by eapply findPreset_elem).
  assert (Hall : Forall (fun q => Presets.lossless (Presets.colors q) = true)
                   Presets.PIXEL_PRESETS).
  { repeat constructor; by vm_compute. }
  rewrite Forall_forall in Hall. specialize (Hall preset Hin).
  destruct (lossless_lookup hexToRgb (Presets.colors preset) Hall)
    as [Hslots Hfb].
  split; [exact Hin|]. split; [|split; [|split; [exact Hslots|exact Hfb]]].
  - intros (q & Hq & Hid). unfold Presets.findPreset in Hfound.
    destruct (list_find (fun p => Presets.id p = wanted)
                Presets.PIXEL_PRESETS) as [[i p]|] eqn:Hf.
    + injection Hfound as <-. by apply list_find_Some in Hf as (_ & ? & _).
    + apply list_find_None in Hf. rewrite Forall_forall in Hf.
      by destruct (Hf q Hq).
  - intros Hnone. unfold Presets.findPreset in Hfound.
    destruct (list_find (fun p => Presets.id p = wanted)
                Presets.PIXEL_PRESETS) as [[i p]|] eqn:Hf.
    + injection Hfound as <-. apply list_find_Some in Hf as (Hi & Hid & _).
      destruct (Hnone p); [|done]. by eapply list_elem_of_lookup_2.
    + cbn in Hfound. by injection Hfound as <-.
Qed.

Lemma X20_getPalette_total_lossless_witness :
  Presets.id (Presets.getPalette "noir") = "noir" /\
  Presets.id (Presets.getPalette "pastel") = "gameboy".
Proof.
  pose (f := fun _ : string =>
               {| Palette.r := 0; Palette.g := 0; Palette.b := 0 |}).
  split.
  - destruct (X20_getPalette_total_lossless f "noir") as (_ & Hid & _).
    apply Hid.
    destruct (Presets.PIXEL_PRESETS !! 4%nat) as [q|] eqn:E; [|done].
    exists q. split; [by eapply list_elem_of_lookup_2|].
    cbn in E. by injection E as <-.
  - destruct (X20_getPalette_total_lossless f "pastel") as (_ & _ & Hid & _).
    apply Hid. intros q Hq.
    assert (Hall : Forall (fun q => Presets.id q <> "pastel")
                     Presets.PIXEL_PRESETS)
      by (repeat constructor; discriminate).
    rewrite Forall_forall in Hall. by apply Hall.
Defined.

Section SvgFacts.
Import Svg.







End SvgFacts.



Section GifPathFacts.
Import GifPath.
Context {W : Type} (gifWriter : GifWriter W).

Lemma sampleWidth_ge_8 (resolution : Z) : 8 <= sampleWidth resolution.
Proof. unfold sampleWidth. lia. Qed.

Lemma sampleHeight_ge_8 (sourceWidth sourceHeight resolution h : Z) :
  sampleHeight sourceWidth sourceHeight resolution = Num.Int h -> 8 <= h.
Proof.
  unfold sampleHeight.
  destruct (Math_round _) as [| | |z]; cbn; try discriminate.
  - intros [= <-]. lia.
  - destruct (Z.leb_spec 8 z); intros [= <-]; lia.
Qed.



(** The block size of the animated branch is an integer, at least 1. *)
Lemma safePixelSize_Int (sw h fc pixelSize : Z) :
  exists k : Z,
    SizeBudget.getSafeGifPixelSize (Num.Int sw) (Num.Int h) (Num.Int fc)
      (Num.Int pixelSize) = Num.Int k /\ 1 <= k.
Proof.
  rewrite getSafeGifPixelSize_Int. eexists. split; [reflexivity|].
  destruct (Num.isFinite _); [apply integerSize_ge_1|lia].
Qed.

(** A grid was returned: its dimensions were array lengths. *)
Lemma quantizeFramePixels_inr (framePixels : list Z)
    (sourceWidth sourceHeight sampleWidth sampleHeight : Z)
    (paletteData : list Quantizer.PaletteEntry)
    (colorGrid : list (list string)) :
  Quantizer.quantizeFramePixels framePixels sourceWidth sourceHeight
    sampleWidth sampleHeight paletteData = inr colorGrid ->
  sampleHeight < 2 ^ 32 /\
  (0 < sampleHeight -> 0 <= sampleWidth < 2 ^ 32).
Proof.
  unfold Quantizer.quantizeFramePixels, Quantizer.validArrayLength.
  destruct (Z.leb_spec (2 ^ 32) sampleHeight); [done|].
  destruct (Z.ltb_spec 0 sampleHeight); [|intros _; lia].
  destruct (Z.leb_spec 0 sampleWidth); [|done].
  destruct (Z.ltb_spec sampleWidth (2 ^ 32)); [|done].
  intros _. lia.
Qed.




(** A round that ends normally has made one call of [addFrame]. *)
Lemma frameBody_inr (sourceWidth sourceHeight sw : Z)
    (sh k fw fh : Num.t) (paletteData : list Quantizer.PaletteEntry)
    (m : gmap string nat) (fb : nat)
    (st st' : LoopState) (frame : list Z * Z) :
  frameBody gifWriter sourceWidth sourceHeight sw sh k fw fh paletteData
    m fb st frame = inr st' ->
  exists a,
    addedFor sourceWidth sourceHeight sw sh k paletteData m fb frame a /\
    calls st' = calls st ++ [a] /\
    vector st' = match vector st with
                 | None => Some (quantizedGrid a)
                 | Some v => Some v
                 end.
Proof.
  unfold frameBody.
  destruct (quantizeFrame _ _ _ _ _ _) as [e|grid] eqn:Hq; [done|].
  destruct (indexFrame _ _ _ _) as [e|pixels] eqn:Hi; [done|].
  cbv zeta.
  destruct (addFrame _ _ _ _ _ _) as [writer'|]; [|done].
  intros [= <-]. eexists. split; [|split; reflexivity].
  unfold addedFor. cbn [quantizedGrid indexedPixels delay]. done.
Qed.

(** The rounds that ended normally. *)
Lemma forEach_inr (sourceWidth sourceHeight sw : Z)
    (sh k fw fh : Num.t) (paletteData : list Quantizer.PaletteEntry)
    (m : gmap string nat) (fb : nat) (frames : list (list Z * Z))
    (st st' : LoopState) :
  forEach (frameBody gifWriter sourceWidth sourceHeight sw sh k fw fh
             paletteData m fb) frames st = inr st' ->
  exists news : list AddedFrame,
    Forall2 (addedFor sourceWidth sourceHeight sw sh k paletteData m fb)
            frames news /\
    calls st' = calls st ++ news /\
    vector st' = match vector st with
                 | None => quantizedGrid <$> head news
                 | Some v => Some v
                 end.
Proof.
  revert st. induction frames as [|frame frames IH]; intros st.
  - cbn [forEach]. intros [= <-]. exists []. split; [constructor|].
    rewrite app_nil_r. split; [done|]. by destruct (vector st).
  - cbn [forEach].
    destruct (frameBody _ _ _ _ _ _ _ _ _ _ _ st frame) as [e|st1] eqn:Hb;
      [done|].
    intros Hrest.
    apply frameBody_inr in Hb as (a & Ha & Hcalls & Hvec).
    destruct (IH st1 Hrest) as (news & Hall & Hcalls' & Hvec').
    exists (a :: news). split; [by constructor|]. split.
    + by rewrite Hcalls', Hcalls, <- app_assoc.
    + rewrite Hvec', Hvec. by destruct (vector st).
Qed.



(** What a run that reached [finalize] has done. *)
Lemma encodeGif_inr (hexToRgb : string -> Palette.RGB)
    (frames : list (list Z * Z)) (loopCount : option FrameDelay.number)
    (sourceWidth sourceHeight resolution pixelSize : Z)
    (paletteData : list Quantizer.PaletteEntry) (out : GifOutput) :
  let sw := sampleWidth resolution in
  let sh := sampleHeight sourceWidth sourceHeight resolution in
  let L := Palette.buildPaletteLookup hexToRgb
             (Quantizer.hex <$> paletteData) in
  encodeGif gifWriter hexToRgb frames loopCount sourceWidth sourceHeight
    resolution pixelSize paletteData = inr out ->
  safePixelSize out
  = SizeBudget.getSafeGifPixelSize (Num.Int sw) sh
      (Num.Int (Z.of_nat (length frames))) (Num.Int pixelSize) /\
  palette out = Palette.paletteColors L /\
  Forall2 (addedFor sourceWidth sourceHeight sw sh (safePixelSize out)
             paletteData (Palette.colorIndexMap L)
             (Palette.fallbackIndex L))
          frames (added out) /\
  firstVector out = quantizedGrid <$> head (added out).
Proof.
  intros sw sh L. unfold encodeGif.
  destruct (decide (length frames = 0%nat)) as [|_]; [done|].
  cbv zeta. fold sw sh L.
  destruct (typedArrayLength _) as [e|bufferLength]; [done|].
  destruct (construct _ _ _ _ _ _) as [writer0|]; [|done].
  destruct (forEach _ frames _) as [e|st] eqn:Hloop; [done|].
  destruct (finish _ _) as [len|]; [|done].
  intros [= <-]. cbn [safePixelSize palette added firstVector].
  apply forEach_inr in Hloop as (news & Hall & Hcalls & Hvec).
  cbn [calls vector app] in Hcalls, Hvec. rewrite Hcalls, Hvec. done.
Qed.

End GifPathFacts.



(** X23: the animated encode shows the color the quantizer chose.  When the
    palette has at most 256 distinct colors (compared in lower case), every
    pixel [(row, col)] of every added frame holds an index whose entry in the
    global palette is the packed color of the lowercased hex of the palette
    entry that [quantizeFramePixels] picked for the cell
    [(row / safePixelSize, col / safePixelSize)] of that source frame: the
    entry nearest to the source pixel that the sampling formula, evaluated
    in doubles and clamped, reads for that cell. *)
Theorem X23_gif_pixel_color {W : Type} (gifWriter : GifPath.GifWriter W)
    (hexToRgb : string -> Palette.RGB) (frames : list (list Z * Z))
    (loopCount : option FrameDelay.number)
    (sourceWidth sourceHeight resolution pixelSize : Z)
    (paletteData : list Quantizer.PaletteEntry) (out : GifPath.GifOutput)
    (h k : Z) (i : nat) (frame : list Z * Z) (row col : Z) :
  let sw := GifPath.sampleWidth resolution in
  paletteData <> [] ->
  (length (Palette.uniqueColors (Quantizer.hex <$> paletteData)) <= 256)%nat ->
  GifPath.sampleHeight sourceWidth sourceHeight resolution = Num.Int h ->
  GifPath.encodeGif gifWriter hexToRgb frames loopCount sourceWidth
    sourceHeight resolution pixelSize paletteData = inr out ->
  GifPath.safePixelSize out = Num.Int k ->
  frames !! i = Some frame ->
  0 <= row < h * k -> 0 <= col < sw * k ->
  exists (a : GifPath.AddedFrame) (e : Quantizer.PaletteEntry) (v : Z),
    GifPath.added out !! i = Some a /\
    e ∈ paletteData /\
    Quantizer.quantizeAt frame.1 sourceWidth paletteData
      (Quantizer.clamp
         (Quantizer.sourceCoord (row / k) h sourceHeight) sourceHeight)
      (Quantizer.clamp
         (Quantizer.sourceCoord (col / k) sw sourceWidth) sourceWidth)
    = Some (Quantizer.hex e) /\
    GifPath.indexedPixels a !! Z.to_nat (row * (sw * k) + col) = Some v /\
    GifPath.palette out !! Z.to_nat v
    = Some (Palette.packColor hexToRgb
              (Palette.toLowerCase (Quantizer.hex e))).
Proof.
  intros sw Hpal Huniq Hsh Hout Hsafe Hi Hrow Hcol.
  apply encodeGif_inr in Hout as (Hk & Hpalette & Hall & _).
  cbv zeta in Hk, Hpalette, Hall. fold sw in Hk, Hall.
  rewrite Hsh in Hk, Hall. rewrite Hsafe in Hk, Hall.
  set (P := Quantizer.hex <$> paletteData) in *.
  set (L := Palette.buildPaletteLookup hexToRgb P) in *.
  set (m := Palette.colorIndexMap L) in *.
  set (fb := Palette.fallbackIndex L) in *.
  assert (Hk1 : 1 <= k).
  { destruct (safePixelSize_Int sw h (Z.of_nat (length frames)) pixelSize)
      as (k' & Hk' & Hk1).
    rewrite <- Hk in Hk'. by injection Hk' as ->. }
  assert (Hsw : 8 <= sw) by apply sampleWidth_ge_8.
  assert (Hh8 : 8 <= h) by (by eapply sampleHeight_ge_8).
  destruct (Forall2_lookup_l _ _ _ _ _ Hall Hi) as (a & Ha & Hq & Hix & _).
  unfold GifPath.quantizeFrame in Hq.
  destruct (Quantizer.quantizeFramePixels frame.1 sourceWidth sourceHeight
              sw h paletteData) as [[|]|grid] eqn:Hgrid; [done..|].
  injection Hq as Hq.
  unfold GifPath.indexFrame in Hix.
  destruct (Palette.colorGridToIndexedPixels (GifPath.quantizedGrid a) k
              m fb) as [msg|pixels] eqn:Hpix; [done|].
  injection Hix as Hix.
  destruct (quantizeFramePixels_inr _ _ _ _ _ _ _ Hgrid) as [Hh32 Hw32].
  destruct (quantizeFramePixels_grid frame.1 sourceWidth sourceHeight
              sw h paletteData Hpal Hh32 Hw32)
    as (grid' & Hgrid' & Hgl & Hrows).
  assert (grid' = grid) by congruence. subst grid'.
  rewrite <- Hq in Hpix.
  assert (Hy : 0 <= row / k < h).
  { split; [apply Z.div_pos; lia|apply Z.div_lt_upper_bound; lia]. }
  assert (Hx : 0 <= col / k < sw).
  { split; [apply Z.div_pos; lia|apply Z.div_lt_upper_bound; lia]. }
  destruct (Hrows (row / k) Hy) as (grow & Hgrow & Hgrl & Hcells).
  specialize (Hcells (col / k) Hx).
  destruct (Hrows 0) as (row0 & Hrow0 & Hlen0 & _); [lia|].
  change (Z.to_nat 0) with 0%nat in Hrow0.
  assert (Hg0 : from_option length 0%nat (grid !! 0%nat) = Z.to_nat sw)
    by (by rewrite Hrow0).
  edestruct (quantizeAt_member frame.1 sourceWidth paletteData)
    as (e & He & Hin); [exact Hpal|].
  rewrite He in Hcells.
  destruct (colorGridToIndexedPixels_lookup grid k m fb row col)
    as (pixels' & Hpix' & Hv).
  { rewrite Hgl. lia. }
  { rewrite Hg0. lia. }
  { exact Hk1. }
  { rewrite Hgl, Z2Nat.id by lia. lia. }
  { rewrite Hg0, Z2Nat.id by lia. lia. }
  assert (pixels' = pixels) by congruence. subst pixels'.
  rewrite Hg0, Z2Nat.id in Hv by lia.
  unfold Palette.cellIndex in Hv. rewrite Hgrow in Hv.
  cbn [mbind option_bind] in Hv. rewrite Hcells in Hv.
  destruct (lookupIndex_palette_color hexToRgb P (Quantizer.hex e) Huniq)
    as (j & _ & Hj & Hpad).
  { rewrite sourceColors_nonempty.
    - subst P. apply list_elem_of_fmap. by exists e.
    - subst P. by destruct paletteData. }
  fold L m fb in Hj. rewrite Hj in Hv.
  assert (Hlt : (j < 256)%nat).
  { apply lookup_lt_Some in Hpad. rewrite paddedPalette_length in Hpad.
    pose proof (targetSize_bounds P). lia. }
  rewrite Z.mod_small in Hv by lia.
  exists a, e, (Z.of_nat j).
  split; [exact Ha|]. split; [exact Hin|]. split; [exact He|].
  split; [by rewrite <- Hix|].
  rewrite Nat2Z.id, Hpalette.
  cbn [L Palette.buildPaletteLookup Palette.paletteColors].
  by rewrite list_lookup_fmap, Hpad.
Qed.

Lemma X23_gif_pixel_color_witness :
  exists (out : GifPath.GifOutput) (a : GifPath.AddedFrame) (v : Z),
    GifPath.encodeGif GifPath.nullWriter GifPath.greyRgb GifPath.twoDots
      None 1 1 1 2 Quantizer.blackWhite = inr out /\
    GifPath.added out !! 1%nat = Some a /\
    GifPath.indexedPixels a !! 17%nat = Some v /\
    GifPath.palette out !! Z.to_nat v = Some 16777215.
Proof.
  assert (Hout : exists out,
             GifPath.encodeGif GifPath.nullWriter GifPath.greyRgb
               GifPath.twoDots None 1 1 1 2 Quantizer.blackWhite = inr out)
    by (vm_compute; eauto).
  destruct Hout as [out Hout].
  assert (Hpal : Quantizer.blackWhite <> []) by discriminate.
  assert (Huniq : (length (Palette.uniqueColors
                             (Quantizer.hex <$> Quantizer.blackWhite))
                   <= 256)%nat) by (vm_compute; lia).
  assert (Hsh : GifPath.sampleHeight 1 1 1 = Num.Int 8) by (by vm_compute).
  assert (Hk : GifPath.safePixelSize out = Num.Int 2).
  { pose proof Hout as Hc. vm_compute in Hc. injection Hc as Hc.
    by rewrite <- Hc. }
  pose proof (X23_gif_pixel_color GifPath.nullWriter GifPath.greyRgb
                GifPath.twoDots None 1 1 1 2 Quantizer.blackWhite out 8 2
                1%nat ([250; 250; 250; 255], 0) 1 1) as H.
  cbv zeta in H.
  destruct H as (a & e & v & Ha & _ & He & Hv & Hp);
    [exact Hpal|exact Huniq|exact Hsh|exact Hout|exact Hk|reflexivity
    |lia|vm_compute; split; [discriminate|reflexivity]|].
  exists out, a, v. split; [exact Hout|]. split; [exact Ha|].
  split; [exact Hv|].
  assert (Hq : Quantizer.quantizeAt ([250; 250; 250; 255], 0).1 1
                 Quantizer.blackWhite
                 (Quantizer.clamp (Quantizer.sourceCoord (1 / 2) 8 1) 1)
                 (Quantizer.clamp
                    (Quantizer.sourceCoord (1 / 2)
                       (GifPath.sampleWidth 1) 1) 1)
               = Some "#ffffff") by (by vm_compute).
  rewrite Hq in He. injection He as He.
  rewrite <- He in Hp. exact Hp.
Defined.

Section StillQuantizerFacts.
Import StillQuantizer.

Lemma forEach_app {S A : Type} (body : S -> A -> option S) (l1 l2 : list A)
    (s : S) :
  forEach body (l1 ++ l2) s = forEach body l1 s ≫= forEach body l2.
Proof.
  revert s. induction l1 as [|a l1 IH]; intros s; [done|].
  cbn [app forEach]. destruct (body s a) as [s'|]; [|done].
  cbn [mbind option_bind]. apply IH.
Qed.

Lemma forEach_fmap {S A B : Type} (body : S -> B -> option S) (g : A -> B)
    (l : list A) (s : S) :
  forEach body (g <$> l) s = forEach (fun s' a => body s' (g a)) l s.
Proof.
  revert s. induction l as [|a l IH]; intros s; [done|].
  cbn [fmap list_fmap forEach]. destruct (body s (g a)) as [s'|]; [|done].
  cbn [mbind option_bind]. apply IH.
Qed.

Lemma forEach_nested {S : Type} (body : S -> Z -> Z -> option S)
    (ys xs : list Z) (s : S) :
  forEach (fun st y => forEach (fun st' x => body st' y x) xs st) ys s
  = forEach (fun st yx => body st yx.1 yx.2)
      (ys ≫= fun y => (fun x => (y, x)) <$> xs) s.
Proof.
  revert s. induction ys as [|y ys IH]; intros s; [done|].
  rewrite bind_cons, forEach_app, forEach_fmap. cbn [forEach fst snd].
  destruct (forEach _ xs s) as [s'|]; [|done].
  cbn [mbind option_bind]. apply IH.
Qed.

(** A loop invariant indexed by the rounds already run. *)
Lemma forEach_prefix_inv {S A : Type} (I : list A -> S -> Prop)
    (body : S -> A -> option S) (l : list A) (s : S) :
  I [] s ->
  (forall done_ a st, a ∈ l -> I done_ st ->
     exists st', body st a = Some st' /\ I (done_ ++ [a]) st') ->
  exists st', forEach body l s = Some st' /\ I l st'.
Proof.
  revert I s. induction l as [|a l IH]; intros I s H0 Hstep.
  - by exists s.
  - destruct (Hstep [] a s) as (s1 & Hb & H1); [left|exact H0|].
    cbn [forEach]. rewrite Hb. cbn [mbind option_bind].
    apply (IH (fun d => I (a :: d)) s1); [exact H1|].
    intros done_ a' st Hin HI.
    destruct (Hstep (a :: done_) a' st) as (st' & Hb' & HI');
      [by right|exact HI|].
    by exists st'.
Qed.

Lemma elem_of_cells (w h y x : Z) :
  (y, x) ∈ cells w h <-> 0 <= y < h /\ 0 <= x < w.
Proof.
  unfold cells. rewrite list_elem_of_bind. split.
  - intros (y' & Hx & Hy). apply list_elem_of_fmap in Hx as (x' & Heq & Hx).
    injection Heq as -> ->. apply elem_of_seqZ in Hx, Hy. lia.
  - intros [Hy Hx]. exists y. split.
    + apply list_elem_of_fmap. exists x. split; [done|].
      apply elem_of_seqZ. lia.
    + apply elem_of_seqZ. lia.
Qed.

Lemma storeClamped_length (buf : list Z) (i v : Z) :
  length (storeClamped buf i v) = length buf.
Proof.
  unfold storeClamped. destruct (i <? 0); [done|apply length_insert].
Qed.

Lemma storeClamped_lookup (buf : list Z) (i v p : Z) :
  0 <= p ->
  storeClamped buf i v !! Z.to_nat p
  = if decide (p = i /\ p < Z.of_nat (length buf))
    then Some (Z.max 0 (Z.min 255 v))
    else buf !! Z.to_nat p.
Proof.
  intros Hp. unfold storeClamped.
  destruct (Z.ltb_spec i 0) as [Hneg|Hpos].
  - case_decide; [lia|done].
  - case_decide as Hd.
    + destruct Hd as [-> Hlt]. apply list_lookup_insert_eq. lia.
    + destruct (decide (p = i)) as [->|Hne].
      * rewrite !lookup_ge_None_2; [done|lia|rewrite length_insert; lia].
      * apply list_lookup_insert_ne. lia.
Qed.

(** The four stores of one round, read back. *)
Lemma cellStores_lookup (q : list Z) (index p : Z)
    (e : Quantizer.PaletteEntry) :
  0 <= p ->
  storeClamped
    (storeClamped
       (storeClamped
          (storeClamped q index (Palette.r (Quantizer.rgb e)))
          (index + 1) (Palette.g (Quantizer.rgb e)))
       (index + 2) (Palette.b (Quantizer.rgb e)))
    (index + 3) 255 !! Z.to_nat p
  = if decide (index <= p < index + 4 /\ p < Z.of_nat (length q))
    then cellBytes e !! Z.to_nat (p - index)
    else q !! Z.to_nat p.
Proof.
  intros Hp.
  rewrite !storeClamped_lookup by done.
  rewrite !storeClamped_length.
  destruct (decide (p = index + 3 /\ _)) as [[-> ?]|H3].
  { rewrite decide_True by lia.
    by replace (index + 3 - index) with 3 by lia. }
  destruct (decide (p = index + 2 /\ _)) as [[-> ?]|H2].
  { rewrite decide_True by lia.
    by replace (index + 2 - index) with 2 by lia. }
  destruct (decide (p = index + 1 /\ _)) as [[-> ?]|H1].
  { rewrite decide_True by lia.
    by replace (index + 1 - index) with 1 by lia. }
  destruct (decide (p = index /\ _)) as [[-> ?]|H0].
  { rewrite decide_True by lia.
    by replace (index - index) with 0 by lia. }
  rewrite decide_False by lia. done.
Qed.

Lemma setCell_length (grid : list (list (option string))) (y x : Z)
    (hex : string) :
  length (setCell grid y x hex) = length grid.
Proof. apply length_alter. Qed.

Lemma setCell_rows (grid : list (list (option string))) (y x : Z)
    (hex : string) (n : nat) :
  Forall (fun row => length row = n) grid ->
  Forall (fun row => length row = n) (setCell grid y x hex).
Proof.
  intros Hrows. apply Forall_lookup. intros i row Hrow.
  unfold setCell in Hrow.
  destruct (decide (i = Z.to_nat y)) as [->|Hne].
  - rewrite list_lookup_alter_eq in Hrow.
    destruct (grid !! Z.to_nat y) as [row0|] eqn:Hr0; [|done].
    injection Hrow as <-. rewrite length_insert.
    by apply (Forall_lookup_1 _ _ _ _ Hrows Hr0).
  - rewrite list_lookup_alter_ne in Hrow by done.
    by apply (Forall_lookup_1 _ _ _ _ Hrows Hrow).
Qed.

Lemma setCell_lookup (grid : list (list (option string))) (y x y' x' : Z)
    (hex : string) (n : nat) :
  Forall (fun row => length row = n) grid ->
  0 <= y -> 0 <= x -> 0 <= y' < Z.of_nat (length grid) ->
  0 <= x' < Z.of_nat n ->
  setCell grid y' x' hex !! Z.to_nat y ≫= (.!! Z.to_nat x)
  = if decide (y = y' /\ x = x') then Some (Some hex)
    else grid !! Z.to_nat y ≫= (.!! Z.to_nat x).
Proof.
  intros Hrows Hy Hx Hy' Hx'. unfold setCell.
  destruct (decide (y = y')) as [->|Hne].
  - rewrite list_lookup_alter_eq.
    destruct (lookup_lt_is_Some_2 grid (Z.to_nat y')) as [row Hrow]; [lia|].
    rewrite Hrow. cbn [fmap option_fmap option_map mbind option_bind].
    pose proof (Forall_lookup_1 _ _ _ _ Hrows Hrow) as Hlen.
    cbv beta in Hlen.
    case_decide as Hd.
    + destruct Hd as [_ ->]. apply list_lookup_insert_eq. lia.
    + apply list_lookup_insert_ne. lia.
  - rewrite list_lookup_alter_ne by lia.
    by rewrite decide_False by lia.
Qed.

Lemma closestAt_member (data : list Z)
    (paletteData : list Quantizer.PaletteEntry) (index : Z) :
  paletteData <> [] ->
  exists e, closestAt data paletteData index = Some e /\ e ∈ paletteData.
Proof. intros Hne. by apply nearestEntry_member. Qed.

Lemma cellBody_inv (data : list Z) (w h : Z)
    (paletteData : list Quantizer.PaletteEntry) (done_ : list (Z * Z))
    (st : LoopState) (y x : Z) :
  paletteData <> [] -> 0 <= y < h -> 0 <= x < w ->
  stillInv data w h paletteData done_ st ->
  exists st', cellBody data w paletteData st y x = Some st' /\
              stillInv data w h paletteData (done_ ++ [(y, x)]) st'.
Proof.
  intros Hne Hy Hx (Hq & Hg & Hrows & Hcells).
  destruct (closestAt_member data paletteData ((y * w + x) * 4) Hne)
    as (e & He & Hin).
  unfold cellBody. cbv zeta. rewrite He. cbn [mbind option_bind].
  eexists. split; [reflexivity|].
  unfold stillInv. cbn [quantized colorGrid].
  split; [by rewrite !storeClamped_length|].
  split; [by rewrite setCell_length|].
  split; [by apply setCell_rows|].
  intros y1 x1 Hin1.
  assert (Hr1 : 0 <= y1 < h /\ 0 <= x1 < w).
  { apply elem_of_app in Hin1 as [Hold|Hnew].
    - by destruct (Hcells y1 x1 Hold).
    - apply list_elem_of_singleton in Hnew. injection Hnew as -> ->. done. }
  split; [exact Hr1|].
  destruct (closestAt_member data paletteData ((y1 * w + x1) * 4) Hne)
    as (e1 & He1 & Hin1').
  exists e1. split; [exact He1|]. split; [exact Hin1'|].
  assert (Hidx : 0 <= y * w + x) by nia.
  assert (Hidx1 : 0 <= y1 * w + x1) by nia.
  split.
  - rewrite (setCell_lookup _ _ _ _ _ _ (Z.to_nat w)); [|done|lia..].
    case_decide as Hd.
    + destruct Hd as [-> ->]. congruence.
    + apply elem_of_app in Hin1 as [Hold|Hnew].
      * destruct (Hcells y1 x1 Hold) as (_ & e' & He' & _ & Hc & _).
        congruence.
      * apply list_elem_of_singleton in Hnew. injection Hnew as -> ->.
        by destruct Hd.
  - intros c Hc Hlen.
    rewrite cellStores_lookup by lia.
    case_decide as Hd.
    + assert (y1 * w + x1 = y * w + x) as Heq by lia.
      rewrite Heq in He1. assert (e1 = e) by congruence. subst e1.
      f_equal. lia.
    + apply elem_of_app in Hin1 as [Hold|Hnew].
      * destruct (Hcells y1 x1 Hold) as (_ & e' & He' & _ & _ & Hb).
        assert (e' = e1) by congruence. subst e'.
        by apply Hb.
      * apply list_elem_of_singleton in Hnew. injection Hnew as -> ->.
        exfalso. apply Hd. lia.
Qed.

(** The loops with a palette: they end, and the invariant holds for every
    cell. *)
Lemma quantizeLoops_spec (data : list Z) (w h : Z)
    (paletteData : list Quantizer.PaletteEntry) :
  paletteData <> [] ->
  exists st, quantizeLoops data w h paletteData = Some st /\
             stillInv data w h paletteData (cells w h) st.
Proof.
  intros Hne. unfold quantizeLoops. cbv zeta.
  rewrite (forEach_nested (cellBody data w paletteData)).
  apply (forEach_prefix_inv (stillInv data w h paletteData)).
  - unfold stillInv. cbn [quantized colorGrid].
    rewrite !length_replicate.
    split; [done|]. split; [done|]. split.
    + apply Forall_replicate, length_replicate.
    + intros y x Hin. by apply elem_of_nil in Hin.
  - intros done_ [y x] st Hin HI. apply elem_of_cells in Hin as [Hy Hx].
    by apply (cellBody_inv data w h).
Qed.

(** The buffer given to [putImageData] is the one the loops filled. *)
Lemma quantizeSampleCanvas_painted (data : list Z) (w h : Z)
    (paletteData : list Quantizer.PaletteEntry) (pixelSize : Z)
    (includeOutputCanvas outputCtx : bool) (q : list Z) :
  painted (quantizeSampleCanvas data w h paletteData pixelSize
             includeOutputCanvas outputCtx) = Some q ->
  exists st, quantizeLoops data w h paletteData = Some st /\
             quantized st = q.
Proof.
  unfold quantizeSampleCanvas.
  destruct (2 ^ 32 <=? h); [done|].
  destruct ((0 <? h) && negb (Quantizer.validArrayLength w)); [done|].
  destruct (quantizeLoops data w h paletteData) as [st|]; [|done].
  destruct (negb (imageDataFits _ w h)); [done|].
  cbn [painted]. intros [= <-]. by exists st.
Qed.

(** For the image data of a canvas with a pixel, the call gets past the
    array creations and the [ImageData] constructor. *)
Lemma quantizeSampleCanvas_canvas (data : list Z) (w h : Z)
    (paletteData : list Quantizer.PaletteEntry) (pixelSize : Z)
    (includeOutputCanvas outputCtx : bool) (st : LoopState) :
  0 < w < 2 ^ 32 -> 0 < h < 2 ^ 32 ->
  Z.of_nat (length data) = w * h * 4 ->
  quantizeLoops data w h paletteData = Some st ->
  length (quantized st) = length data ->
  quantizeSampleCanvas data w h paletteData pixelSize includeOutputCanvas
    outputCtx
  = {| painted := Some (quantized st);
       outcome :=
         if includeOutputCanvas then
           if outputCtx then
             inr {| Result.colorGrid := colorGrid st;
                    Result.sampleWidth := w;
                    Result.sampleHeight := h;
                    Result.outputCanvas :=
                      Some {| OutputCanvas.width := w * pixelSize;
                              OutputCanvas.height := h * pixelSize |} |}
           else inl (Error "Unable to create export canvas.")
         else
           inr {| Result.colorGrid := colorGrid st;
                  Result.sampleWidth := w;
                  Result.sampleHeight := h;
                  Result.outputCanvas := None |} |}.
Proof.
  intros Hw Hh Hlen Hst Hq.
  unfold quantizeSampleCanvas, imageDataFits, Quantizer.validArrayLength.
  rewrite Hst, Hq.
  destruct (Z.leb_spec (2 ^ 32) h); [lia|].
  destruct (Z.ltb_spec 0 h); [|lia].
  destruct (Z.leb_spec 0 w); [|lia].
  destruct (Z.ltb_spec w (2 ^ 32)); [|lia].
  destruct (Z.ltb_spec 0 w); [|lia].
  destruct (Z.eqb_spec (Z.of_nat (length data)) (w * h * 4)); [|lia].
  done.
Qed.

End StillQuantizerFacts.

(** X24: the still-image quantizer and the frame quantizer agree.  For the
    image data of a canvas of at least one pixel and a non-empty palette,
    [quantizeSampleCanvas] gives [putImageData] a buffer as long as the data
    it read, and throws only when it is to make the export canvas and cannot
    get its context, with the message ["Unable to create export canvas."].
    When it returns, its color grid has no unassigned slot: it is exactly
    the grid that [quantizeFramePixels] computes from the same pixels
    sampled at their own size; and the export canvas is [pixelSize] times
    the sample canvas, or [null] when none was asked for.  With an empty
    palette it throws a [TypeError] at the first pixel and paints nothing. *)
Theorem X24_still_grid_matches_frame_quantizer (data : list Z)
    (sampleWidth sampleHeight pixelSize : Z)
    (paletteData : list Quantizer.PaletteEntry)
    (includeOutputCanvas outputCtx : bool) :
  let run :=
    StillQuantizer.quantizeSampleCanvas data sampleWidth sampleHeight
      paletteData pixelSize includeOutputCanvas outputCtx in
  0 < sampleWidth < 2 ^ 32 -> 0 < sampleHeight < 2 ^ 32 ->
  Z.of_nat (length data) = sampleWidth * sampleHeight * 4 ->
  (paletteData <> [] ->
   exists (quantized : list Z) (grid : list (list string)),
     StillQuantizer.painted run = Some quantized /\
     length quantized = length data /\
     Quantizer.quantizeFramePixels data sampleWidth sampleHeight sampleWidth
       sampleHeight paletteData = inr grid /\
     StillQuantizer.outcome run
     = if includeOutputCanvas && negb outputCtx
       then inl (StillQuantizer.Error "Unable to create export canvas.")
       else
         inr {| StillQuantizer.Result.colorGrid :=
                  (fun row : list string => Some <$> row) <$> grid;
                StillQuantizer.Result.sampleWidth := sampleWidth;
                StillQuantizer.Result.sampleHeight := sampleHeight;
                StillQuantizer.Result.outputCanvas :=
                  if includeOutputCanvas
                  then Some {| StillQuantizer.OutputCanvas.width :=
                                 sampleWidth * pixelSize;
                               StillQuantizer.OutputCanvas.height :=
                                 sampleHeight * pixelSize |}
                  else None |}) /\
  (paletteData = [] ->
   StillQuantizer.painted run = None /\
   StillQuantizer.outcome run = inl StillQuantizer.TypeError).
Proof.
  intros run Hw Hh Hlen. split.
  - intros Hne.
    destruct (quantizeLoops_spec data sampleWidth sampleHeight paletteData
                Hne) as (st & Hst & Hq & Hg & Hrows & Hcells).
    destruct (quantizeFramePixels_grid data sampleWidth sampleHeight
                sampleWidth sampleHeight paletteData Hne)
      as (grid & Hgrid & Hglen & Hgrows); [lia|lia|].
    assert (Heq : StillQuantizer.colorGrid st
                  = (fun row : list string => Some <$> row) <$> grid).
    { apply (list_eq_same_length _ _ (Z.to_nat sampleHeight));
        [by rewrite length_fmap|exact Hg|].
      intros i row row' Hi Hrow Hrow'.
      rewrite list_lookup_fmap in Hrow'.
      destruct (grid !! i) as [grow|] eqn:Hgrow; [|done].
      injection Hrow' as <-.
      assert (Hy : 0 <= Z.of_nat i < sampleHeight) by lia.
      destruct (Hgrows (Z.of_nat i) Hy) as (grow' & Hgrow' & Hgl & Hgcells).
      rewrite Nat2Z.id, Hgrow in Hgrow'. injection Hgrow' as <-.
      pose proof (Forall_lookup_1 _ _ _ _ Hrows Hrow) as Hrlen.
      cbv beta in Hrlen.
      apply (list_eq_same_length _ _ (Z.to_nat sampleWidth));
        [by rewrite length_fmap|exact Hrlen|].
      intros j c c' Hj Hc Hc'.
      assert (Hx : 0 <= Z.of_nat j < sampleWidth) by lia.
      destruct (Hcells (Z.of_nat i) (Z.of_nat j))
        as (_ & e & He & _ & Hcell & _).
      { by apply elem_of_cells. }
      rewrite !Nat2Z.id, Hrow in Hcell. cbn [mbind option_bind] in Hcell.
      specialize (Hgcells (Z.of_nat j) Hx).
      rewrite Nat2Z.id in Hgcells.
      rewrite !sourceCoord_same, !clamp_Int in Hgcells by lia.
      rewrite !Z.max_r, !Z.min_r in Hgcells by lia.
      cbn [Quantizer.quantizeAt] in Hgcells.
      change (Quantizer.quantizeCell data sampleWidth paletteData
                (Z.of_nat i) (Z.of_nat j))
        with (Quantizer.hex
                <$> StillQuantizer.closestAt data paletteData
                      ((Z.of_nat i * sampleWidth + Z.of_nat j) * 4))
        in Hgcells.
      rewrite He in Hgcells. cbn [fmap option_fmap option_map] in Hgcells.
      rewrite list_lookup_fmap, Hgcells in Hc'.
      cbn [fmap option_fmap option_map] in Hc'. congruence. }
    exists (StillQuantizer.quantized st), grid. subst run.
    rewrite (quantizeSampleCanvas_canvas data sampleWidth sampleHeight
               paletteData pixelSize includeOutputCanvas outputCtx st)
      by done.
    cbn [StillQuantizer.painted StillQuantizer.outcome].
    split; [done|]. split; [exact Hq|]. split; [exact Hgrid|].
    rewrite Heq. by destruct includeOutputCanvas, outputCtx.
  - intros ->. subst run. unfold StillQuantizer.quantizeSampleCanvas.
    destruct (Z.leb_spec (2 ^ 32) sampleHeight); [lia|].
    unfold Quantizer.validArrayLength.
    destruct (Z.ltb_spec 0 sampleHeight); [|lia].
    destruct (Z.leb_spec 0 sampleWidth); [|lia].
    destruct (Z.ltb_spec sampleWidth (2 ^ 32)); [|lia].
    cbn [andb negb].
    assert (Hnone : StillQuantizer.quantizeLoops data sampleWidth
                      sampleHeight [] = None).
    { unfold StillQuantizer.quantizeLoops. cbv zeta.
      rewrite (seqZ_cons 0 sampleHeight) by lia.
      cbn [StillQuantizer.forEach].
      rewrite (seqZ_cons 0 sampleWidth) by lia.
      reflexivity. }
    by rewrite Hnone.
Qed.

Lemma X24_still_grid_matches_frame_quantizer_witness :
  StillQuantizer.outcome
    (StillQuantizer.quantizeSampleCanvas StillQuantizer.twoPixels 2 1
       Quantizer.blackWhite 4 true false)
  = inl (StillQuantizer.Error "Unable to create export canvas.") /\
  StillQuantizer.outcome
    (StillQuantizer.quantizeSampleCanvas StillQuantizer.twoPixels 2 1
       Quantizer.blackWhite 4 false false)
  = inr {| StillQuantizer.Result.colorGrid :=
             [[Some "#000000"; Some "#ffffff"]];
           StillQuantizer.Result.sampleWidth := 2;
           StillQuantizer.Result.sampleHeight := 1;
           StillQuantizer.Result.outputCanvas := None |} /\
  StillQuantizer.outcome
    (StillQuantizer.quantizeSampleCanvas StillQuantizer.twoPixels 2 1 [] 4
       true true)
  = inl StillQuantizer.TypeError.
Proof.
  pose proof (X24_still_grid_matches_frame_quantizer
                StillQuantizer.twoPixels 2 1 4 Quantizer.blackWhite
                true false) as H1.
  pose proof (X24_still_grid_matches_frame_quantizer
                StillQuantizer.twoPixels 2 1 4 Quantizer.blackWhite
                false false) as H2.
  pose proof (X24_still_grid_matches_frame_quantizer
                StillQuantizer.twoPixels 2 1 4 [] true true) as H3.
  cbv zeta in H1, H2, H3.
  assert (Hg : Quantizer.quantizeFramePixels StillQuantizer.twoPixels 2 1 2 1
                 Quantizer.blackWhite
               = inr [["#000000"; "#ffffff"]]) by (by vm_compute).
  destruct H1 as [H1 _]; [lia|lia|reflexivity|].
  destruct H2 as [H2 _]; [lia|lia|reflexivity|].
  destruct H3 as [_ H3]; [lia|lia|reflexivity|].
  destruct H1 as (q1 & g1 & _ & _ & _ & H1); [discriminate|].
  destruct H2 as (q2 & g2 & _ & _ & Hg2 & H2); [discriminate|].
  destruct H3 as [_ H3]; [reflexivity|].
  split; [exact H1|]. split; [|exact H3].
  rewrite Hg in Hg2. injection Hg2 as <-. exact H2.
Defined.

(** X25: what the still-image quantizer paints.  For image data of a
    [sampleWidth] by [sampleHeight] canvas and a palette of byte colors,
    every pixel of the buffer given to [putImageData] holds the color of the
    first palette entry of least squared distance to the pixel read there,
    with alpha 255 whatever the alpha of the source. *)
Theorem X25_still_pixels_nearest_opaque (data : list Z)
    (sampleWidth sampleHeight pixelSize : Z)
    (paletteData : list Quantizer.PaletteEntry)
    (includeOutputCanvas outputCtx : bool)
    (quantized : list Z) (y x : Z) :
  paletteData <> [] ->
  Forall Quantizer.byteEntry paletteData ->
  Forall Quantizer.isByte data ->
  Z.of_nat (length data) = sampleWidth * sampleHeight * 4 ->
  StillQuantizer.painted
    (StillQuantizer.quantizeSampleCanvas data sampleWidth sampleHeight
       paletteData pixelSize includeOutputCanvas outputCtx)
  = Some quantized ->
  0 <= y < sampleHeight -> 0 <= x < sampleWidth ->
  exists (r g b : Z) (i : nat) (e : Quantizer.PaletteEntry),
    let index := Z.to_nat ((y * sampleWidth + x) * 4) in
    data !! index = Some r /\
    data !! (index + 1)%nat = Some g /\
    data !! (index + 2)%nat = Some b /\
    paletteData !! i = Some e /\
    (forall (j : nat) (e' : Quantizer.PaletteEntry),
       paletteData !! j = Some e' ->
       Quantizer.sqdist e r g b <= Quantizer.sqdist e' r g b /\
       ((j < i)%nat ->
        Quantizer.sqdist e r g b < Quantizer.sqdist e' r g b)) /\
    quantized !! index = Some (Palette.r (Quantizer.rgb e)) /\
    quantized !! (index + 1)%nat = Some (Palette.g (Quantizer.rgb e)) /\
    quantized !! (index + 2)%nat = Some (Palette.b (Quantizer.rgb e)) /\
    quantized !! (index + 3)%nat = Some 255.
Proof.
  intros Hne Hpal Hdata Hlen Hrun Hy Hx.
  apply quantizeSampleCanvas_painted in Hrun as (st & Hst & <-).
  destruct (quantizeLoops_spec data sampleWidth sampleHeight
              paletteData Hne) as (st' & Hst' & _ & _ & _ & Hcells).
  assert (st' = st) by congruence. subst st'.
  destruct (Hcells y x) as (_ & e & He & _ & _ & Hbytes).
  { by apply elem_of_cells. }
  set (idx := (y * sampleWidth + x) * 4) in *.
  assert (Hidx : 0 <= idx /\ idx + 3 < Z.of_nat (length data)).
  { subst idx. rewrite Hlen. nia. }
  destruct (lookup_lt_is_Some_2 data (Z.to_nat idx)) as [r Hr]; [lia|].
  destruct (lookup_lt_is_Some_2 data (Z.to_nat idx + 1)) as [g Hg]; [lia|].
  destruct (lookup_lt_is_Some_2 data (Z.to_nat idx + 2)) as [b Hb]; [lia|].
  destruct (nearestEntry_spec paletteData r g b Hne Hpal)
    as (i & e' & He' & Hi & Hmin).
  { exact (Forall_lookup_1 _ _ _ _ Hdata Hr). }
  { exact (Forall_lookup_1 _ _ _ _ Hdata Hg). }
  { exact (Forall_lookup_1 _ _ _ _ Hdata Hb). }
  assert (e' = e).
  { unfold StillQuantizer.closestAt, Quantizer.readByte in He.
    cbv zeta in He.
    destruct (Z.ltb_spec idx 0); [lia|].
    destruct (Z.ltb_spec (idx + 1) 0); [lia|].
    destruct (Z.ltb_spec (idx + 2) 0); [lia|].
    replace (Z.to_nat (idx + 1)) with (Z.to_nat idx + 1)%nat in He by lia.
    replace (Z.to_nat (idx + 2)) with (Z.to_nat idx + 2)%nat in He by lia.
    rewrite Hr, Hg, Hb in He. congruence. }
  subst e'.
  pose proof (Forall_lookup_1 _ _ _ _ Hpal Hi) as (Hbr & Hbg & Hbb).
  unfold Quantizer.isByte in Hbr, Hbg, Hbb.
  exists r, g, b, i, e. cbv zeta.
  split; [exact Hr|]. split; [exact Hg|]. split; [exact Hb|].
  split; [exact Hi|]. split; [exact Hmin|].
  pose proof (Hbytes 0%nat) as H0. pose proof (Hbytes 1%nat) as H1.
  pose proof (Hbytes 2%nat) as H2. pose proof (Hbytes 3%nat) as H3.
  cbn [StillQuantizer.cellBytes lookup list_lookup] in H0, H1, H2, H3.
  replace (Z.to_nat (idx + Z.of_nat 0)) with (Z.to_nat idx) in H0 by lia.
  replace (Z.to_nat (idx + Z.of_nat 1)) with (Z.to_nat idx + 1)%nat in H1
    by lia.
  replace (Z.to_nat (idx + Z.of_nat 2)) with (Z.to_nat idx + 2)%nat in H2
    by lia.
  replace (Z.to_nat (idx + Z.of_nat 3)) with (Z.to_nat idx + 3)%nat in H3
    by lia.
  rewrite H0, H1, H2, H3 by lia.
  rewrite !Z.min_r, !Z.max_r by lia. done.
Qed.

Lemma X25_still_pixels_nearest_opaque_witness :
  exists quantized : list Z,
    StillQuantizer.painted
      (StillQuantizer.quantizeSampleCanvas StillQuantizer.twoPixels 2 1
         Quantizer.blackWhite 4 true false)
    = Some quantized /\
    quantized !! 4%nat = Some 255 /\
    quantized !! 7%nat = Some 255.
Proof.
  assert (Hq : exists q,
             StillQuantizer.painted
               (StillQuantizer.quantizeSampleCanvas StillQuantizer.twoPixels
                  2 1 Quantizer.blackWhite 4 true false)
             = Some q) by (vm_compute; eauto).
  destruct Hq as [q Hq].
  assert (Hpal : Forall Quantizer.byteEntry Quantizer.blackWhite).
  { repeat constructor; cbn; lia. }
  assert (Hdata : Forall Quantizer.isByte StillQuantizer.twoPixels).
  { repeat constructor; cbn; lia. }
  destruct (X25_still_pixels_nearest_opaque StillQuantizer.twoPixels 2 1 4
              Quantizer.blackWhite true false q 0 1 ltac:(discriminate)
              Hpal Hdata eq_refl Hq ltac:(lia) ltac:(lia))
    as (r & g & b & i & e & Hr & Hg & Hb & Hi & Hmin & Hqr & _ & _ & Hqa).
  exists q. split; [exact Hq|].
  change (Z.to_nat ((0 * 2 + 1) * 4)) with 4%nat in *.
  split; [|exact Hqa].
  rewrite Hqr. f_equal.
  injection Hr as <-. injection Hg as <-. injection Hb as <-.
  destruct i as [|[|i]]; [| |done].
  - injection Hi as <-.
    destruct (Hmin 1%nat _ eq_refl) as [Hle _]. vm_compute in Hle.
    by destruct Hle.
  - by injection Hi as <-.
Defined.
